(** * ZVerse: confidential group messaging

    A shallow embedding of
    - [contracts/ZVerseGroups.sol]  (the group registry: groups, members,
      messages and the decrypt permissions it hands out), and
    - [ui/src/utils/messages.ts]    (the client-side envelope codec:
      [deriveKeyBytes], [normalizeGroupKey], [sealMessage], [openMessage],
      and [shortenAddress]),
    together with the properties the specification states about them
    (Parts III to V) and further properties of the code (Parts VI to
    VIII). *)

From Stdlib Require Import ZArith Lia.
From stdpp Require Import base option list gmap strings.

Local Open Scope Z_scope.

#[local] Set Default Proof Using "Type".

(* ===================================================================== *)
(** * Part I: the registry contract [ZVerseGroups]                       *)
(* ===================================================================== *)

Module ZVerseGroups.

(** Solidity value types.  [address] is a 160-bit and [uint256] a 256-bit
    unsigned integer; [eaddress] and [euint256] are [bytes32] handles. *)
Definition address := N.
Definition uint256 := N.
Definition handle := N.
Definition bytes := list N.

Record Group := mkGroup {
  name : string;
  encryptedKey : handle;
  creator : address;
  members : list address;
  isMember : gmap address bool
}.

Record Message := mkMessage {
  sender : address;
  encryptedContent : handle;
  timestamp : uint256
}.

Inductive Event :=
| GroupCreated (groupId : uint256) (name : string) (creator : address) (encryptedKey : handle)
| GroupJoined (groupId : uint256) (member : address)
| MessageSent (groupId : uint256) (sender : address) (encryptedContent : handle).

(** Modelled from the spec: the ACL store of the external encryption
    service (the [FHE] library's [allow]/[allowThis]/[isAllowed] are not
    part of this repository).  It is a set of (handle, principal) grants;
    granting is idempotent, never fails, and nothing is ever revoked. *)
Definition ACL := gset (handle * address).

Definition FHE_allow (h : handle) (account : address) (acl : ACL) : ACL :=
  {[ (h, account) ]} ∪ acl.

Definition FHE_isAllowed (h : handle) (account : address) (acl : ACL) : bool :=
  bool_decide ((h, account) ∈ acl).

(** Contract storage, the ACL of the service and the event log. *)
Record State := mkState {
  _groups : list Group;
  _groupMessages : gmap uint256 (list Message);
  acl : ACL;
  events : list Event
}.

(** What a call sees of its transaction and block. *)
Record Env := mkEnv {
  msg_sender : address;
  block_timestamp : uint256;
  block_prevrandao : uint256
}.

(** A call returns, reverts with a reason string ([require]) or panics
    (an array index out of bounds is [Panic(0x32)]). *)
Inductive Result (A : Type) :=
| Ok (a : A)
| Revert (reason : string)
| Panic (code : N).
Arguments Ok {A} a.
Arguments Revert {A} reason.
Arguments Panic {A} code.

#[global] Instance Result_bind : MBind Result := λ A B k r,
  match r with
  | Ok a => k a
  | Revert s => Revert s
  | Panic c => Panic c
  end.

(** [mapping(address => bool)]: an absent key reads [false]. *)
Definition isMemberOf (g : Group) (a : address) : bool :=
  default false (isMember g !! a).

(** [mapping(uint256 => Message[])]: an absent key reads the empty array. *)
Definition messagesOf (st : State) (groupId : uint256) : list Message :=
  default [] (_groupMessages st !! groupId).

(** The modifier [validGroup]: [require(groupId < _groups.length)],
    followed by the storage reference [_groups[groupId]]. *)
Definition validGroup (st : State) (groupId : uint256) : Result Group :=
  match _groups st !! N.to_nat groupId with
  | Some g => Ok g
  | None => Revert "Invalid group"
  end.

Section Contract.

(** The address of the deployed contract ([address(this)]). *)
Variable this : address.

(** [keccak256(abi.encodePacked(prevrandao, timestamp, sender, groupId))]
    read as a [uint256]. *)
Variable keccak256_packed : uint256 → uint256 → address → uint256 → uint256.

(** [FHE.asEaddress]: the handle of the trivial encryption of an address. *)
Variable FHE_asEaddress : address → handle.

(** [FHE.fromExternal]: checks the input proof of an external ciphertext
    for the calling user; [None] is the service's revert. *)
Variable FHE_fromExternal : address → handle → bytes → option handle.

Definition createGroup (st : State) (env : Env) (name : string)
  : Result (State * uint256) :=
  if (String.length name =? 0)%nat then Revert "Name required" else
  let groupId := N.of_nat (length (_groups st)) in
  let groupAddress :=
    (keccak256_packed (block_prevrandao env) (block_timestamp env)
                      (msg_sender env) groupId mod 2 ^ 160)%N in
  let encryptedKey := FHE_asEaddress groupAddress in
  let group := mkGroup name encryptedKey (msg_sender env)
                       [msg_sender env] {[ msg_sender env := true ]} in
  let acl1 := FHE_allow encryptedKey this (acl st) in
  let acl2 := FHE_allow encryptedKey (msg_sender env) acl1 in
  Ok (mkState (_groups st ++ [group]) (_groupMessages st) acl2
              (events st ++ [GroupCreated groupId name (msg_sender env) encryptedKey]),
      groupId).

(** The loop of [joinGroup] over the stored messages. *)
Definition allowHistory (account : address) (messages : list Message) (a : ACL) : ACL :=
  foldl (fun a m => FHE_allow (encryptedContent m) account a) a messages.

Definition joinGroup (st : State) (env : Env) (groupId : uint256) : Result State :=
  group ← validGroup st groupId;
  if isMemberOf group (msg_sender env) then Revert "Already a member" else
  let group' := mkGroup (name group) (encryptedKey group) (creator group)
                        (members group ++ [msg_sender env])
                        (<[ msg_sender env := true ]> (isMember group)) in
  let acl1 := FHE_allow (encryptedKey group) (msg_sender env) (acl st) in
  let acl2 := allowHistory (msg_sender env) (messagesOf st groupId) acl1 in
  Ok (mkState (<[ N.to_nat groupId := group' ]> (_groups st)) (_groupMessages st) acl2
              (events st ++ [GroupJoined groupId (msg_sender env)])).

(** The loop of [sendMessage] over the members. *)
Definition allowMembers (h : handle) (members : list address) (a : ACL) : ACL :=
  foldl (fun a m => FHE_allow h m a) a members.

Definition sendMessage (st : State) (env : Env) (groupId : uint256)
    (encryptedMessage : handle) (inputProof : bytes) : Result State :=
  group ← validGroup st groupId;
  if negb (isMemberOf group (msg_sender env)) then Revert "Join group first" else
  match FHE_fromExternal (msg_sender env) encryptedMessage inputProof with
  | None => Revert "FHE.fromExternal"
  | Some storedMessage =>
    let acl1 := FHE_allow storedMessage this (acl st) in
    let acl2 := allowMembers storedMessage (members group) acl1 in
    let message := mkMessage (msg_sender env) storedMessage (block_timestamp env) in
    Ok (mkState (_groups st)
                (<[ groupId := messagesOf st groupId ++ [message] ]> (_groupMessages st))
                acl2
                (events st ++ [MessageSent groupId (msg_sender env) storedMessage]))
  end.

(** The views. *)
Definition getGroupCount (st : State) : uint256 := N.of_nat (length (_groups st)).

Definition getGroup (st : State) (groupId : uint256)
  : Result (string * handle * address * uint256) :=
  group ← validGroup st groupId;
  Ok (name group, encryptedKey group, creator group, N.of_nat (length (members group))).

Definition getGroupMembers (st : State) (groupId : uint256) : Result (list address) :=
  group ← validGroup st groupId; Ok (members group).

Definition isGroupMember (st : State) (groupId : uint256) (account : address) : Result bool :=
  group ← validGroup st groupId; Ok (isMemberOf group account).

Definition getGroupKey (st : State) (groupId : uint256) : Result handle :=
  group ← validGroup st groupId; Ok (encryptedKey group).

Definition getMessageCount (st : State) (groupId : uint256) : Result uint256 :=
  validGroup st groupId ;; Ok (N.of_nat (length (messagesOf st groupId))).

(** [_groupMessages[groupId][index]]: out of range is [Panic(0x32)]. *)
Definition messageAt (st : State) (groupId index : uint256) : Result Message :=
  match messagesOf st groupId !! N.to_nat index with
  | Some m => Ok m
  | None => Panic 50
  end.

Definition getMessage (st : State) (groupId index : uint256)
  : Result (address * handle * uint256) :=
  validGroup st groupId ;;
  messageData ← messageAt st groupId index;
  Ok (sender messageData, encryptedContent messageData, timestamp messageData).

Definition canDecryptGroupKey (st : State) (groupId : uint256) (account : address)
  : Result bool :=
  group ← validGroup st groupId;
  Ok (FHE_isAllowed (encryptedKey group) account (acl st)).

Definition canDecryptMessage (st : State) (groupId index : uint256) (account : address)
  : Result bool :=
  validGroup st groupId ;;
  messageData ← messageAt st groupId index;
  Ok (FHE_isAllowed (encryptedContent messageData) account (acl st)).

(** Transactions.  A call that reverts or panics leaves the state as it
    was; a successful one commits its state. *)
Inductive Call :=
| CreateGroup (name : string)
| JoinGroup (groupId : uint256)
| SendMessage (groupId : uint256) (encryptedMessage : handle) (inputProof : bytes).

Definition run (st : State) (env : Env) (c : Call) : Result State :=
  match c with
  | CreateGroup name => r ← createGroup st env name; Ok (fst r)
  | JoinGroup groupId => joinGroup st env groupId
  | SendMessage groupId encryptedMessage inputProof =>
      sendMessage st env groupId encryptedMessage inputProof
  end.

Definition commit (st : State) (env : Env) (c : Call) : State :=
  match run st env c with
  | Ok st' => st'
  | _ => st
  end.

(** The membership invariant of one group: the member list is non-empty,
    holds the creator, holds nobody twice, and [isMember] is [true] at
    exactly the principals of the list. *)
Definition wellFormedGroup (g : Group) : Prop :=
  members g ≠ [] ∧
  creator g ∈ members g ∧
  NoDup (members g) ∧
  ∀ a : address, isMemberOf g a = true ↔ a ∈ members g.

(** The freshly deployed contract. *)
Definition deployed : State := mkState [] ∅ ∅ [].

Inductive reachable : State → Prop :=
| reachable_deployed : reachable deployed
| reachable_commit st env c : reachable st → reachable (commit st env c).

(** A sequence of transactions, each with its own sender and block. *)
Definition commitAll (st : State) (calls : list (Env * Call)) : State :=
  foldl (λ st ec, commit st ec.1 ec.2) st calls.

End Contract.

(** ** Reading the event log *)

(** The groups the log announces, in the order of their creation. *)
Definition groupsFromLog (log : list Event) : list (uint256 * string * address * handle) :=
  omap (λ e, match e with
             | GroupCreated groupId name creator encryptedKey =>
                 Some (groupId, name, creator, encryptedKey)
             | _ => None
             end) log.

(** The principals the log adds to a group: its creator, then who joined. *)
Definition membersFromLog (groupId : uint256) (log : list Event) : list address :=
  omap (λ e, match e with
             | GroupCreated g _ creator _ => if decide (g = groupId) then Some creator else None
             | GroupJoined g member => if decide (g = groupId) then Some member else None
             | MessageSent _ _ _ => None
             end) log.

(** The messages the log announces for a group: sender and handle. *)
Definition messagesFromLog (groupId : uint256) (log : list Event) : list (address * handle) :=
  omap (λ e, match e with
             | MessageSent g sender encryptedContent =>
                 if decide (g = groupId) then Some (sender, encryptedContent) else None
             | _ => None
             end) log.

(** ** Notions the properties are stated with *)

(** [st'] extends [st]: every grant, group, member and message of [st] is
    in [st'], at its place and unchanged. *)
Definition extends (st st' : State) : Prop :=
  acl st ⊆ acl st' ∧
  (∀ i g, _groups st !! i = Some g →
     ∃ g', _groups st' !! i = Some g' ∧
           name g' = name g ∧ encryptedKey g' = encryptedKey g ∧
           creator g' = creator g ∧
           members g `prefix_of` members g' ∧
           ∀ a, isMemberOf g a = true → isMemberOf g' a = true) ∧
  ∀ groupId, messagesOf st groupId `prefix_of` messagesOf st' groupId.

(** No message is stored under an identifier that is not a group's. *)
Definition noStrayMessages (st : State) : Prop :=
  ∀ groupId, (length (_groups st) ≤ N.to_nat groupId)%nat → messagesOf st groupId = [].

(** The contract and every member of a group hold a grant for the group's
    key and for each of the group's messages. *)
Definition grantsComplete (this : address) (st : State) : Prop :=
  ∀ groupId g a,
    _groups st !! N.to_nat groupId = Some g →
    a = this ∨ a ∈ members g →
    (encryptedKey g, a) ∈ acl st ∧
    ∀ m, m ∈ messagesOf st groupId → (encryptedContent m, a) ∈ acl st.

(** Every grant is the contract's own, or a member's for the key or a
    message of a group the member is in. *)
Definition grantsJustified (this : address) (st : State) : Prop :=
  ∀ h a,
    (h, a) ∈ acl st →
    a = this ∨
    ∃ groupId g,
      _groups st !! N.to_nat groupId = Some g ∧
      a ∈ members g ∧
      (h = encryptedKey g
       ∨ ∃ m, m ∈ messagesOf st groupId ∧ h = encryptedContent m).

(** Whoever sent a message of a group is a member of the group. *)
Definition sendersAreMembers (st : State) : Prop :=
  ∀ groupId g m,
    _groups st !! N.to_nat groupId = Some g →
    m ∈ messagesOf st groupId → isMemberOf g (sender m) = true.

(** The event log tells the groups, their members and their messages. *)
Definition logMirrorsState (st : State) : Prop :=
  groupsFromLog (events st)
  = imap (λ i g, (N.of_nat i, name g, creator g, encryptedKey g)) (_groups st) ∧
  ∀ groupId,
    membersFromLog groupId (events st)
    = from_option members [] (_groups st !! N.to_nat groupId) ∧
    messagesFromLog groupId (events st)
    = (λ m, (sender m, encryptedContent m)) <$> messagesOf st groupId.

(** ** A sample deployment, for running the contract on concrete calls *)

Definition sampleThis : address := 0x5EED%N.

Definition samplePacked (prevrandao timestamp : uint256) (sender : address)
    (groupId : uint256) : uint256 :=
  (prevrandao + timestamp + sender + groupId)%N.

Definition sampleAsEaddress (a : address) : handle := (2 * a + 1)%N.

(** The sample import accepts an input with a non-empty proof. *)
Definition sampleFromExternal (sender : address) (external : handle) (proof : bytes)
  : option handle :=
  match proof with
  | [] => None
  | _ => Some (2 * external)%N
  end.

Definition alice : address := 0xA11CE%N.
Definition bob : address := 0xB0B%N.

Definition sampleCommit : State → Env → Call → State :=
  commit sampleThis samplePacked sampleAsEaddress sampleFromExternal.

(** Alice creates a group and sends a message to it. *)
Definition historyState : State :=
  sampleCommit
    (sampleCommit deployed (mkEnv alice 100%N 7%N) (CreateGroup "History"))
    (mkEnv alice 101%N 8%N) (SendMessage 0%N 1234%N [1%N]).

(** Then Bob joins the group. *)
Definition joinedState : State :=
  sampleCommit historyState (mkEnv bob 102%N 9%N) (JoinGroup 0%N).

(** Then Bob creates a second group. *)
Definition twoGroupsState : State :=
  sampleCommit joinedState (mkEnv bob 105%N 12%N) (CreateGroup "Second").

Definition carol : address := 0xCA201%N.

End ZVerseGroups.

(* ===================================================================== *)
(** * Part II: the envelope codec [ui/src/utils/messages.ts]             *)
(* ===================================================================== *)

Module Messages.

(** A JavaScript string is a sequence of UTF-16 code units, a [bigint] is
    an integer, a [Uint8Array] a sequence of bytes. *)
Abbreviation jsstring := (list Z).
Abbreviation Uint8Array := (list Z).

(** A string literal of the source, code unit by code unit. *)
Definition js (s : string) : jsstring :=
  (λ c, Z.of_nat (Ascii.nat_of_ascii c)) <$> String.list_ascii_of_string s.

Definition isCodeUnit (u : Z) : Prop := 0 ≤ u < 65536.
Definition isByte (b : Z) : Prop := 0 ≤ b < 256.

(** What the codec and the library calls it makes can throw. *)
Inductive JsError :=
| Error (message : string)   (* [throw new Error(...)] of the source *)
| SyntaxError                (* [BigInt(s)] on a string that is no integer literal *)
| RangeError                 (* [TypedArray.prototype.set] past the end *)
| INVALID_ARGUMENT           (* ethers: invalid BytesLike value *)
| NUMERIC_FAULT              (* ethers: negative value, or value exceeds width *)
| BUFFER_OVERRUN.            (* ethers: padding exceeds data length *)

Inductive Js (A : Type) :=
| Return (a : A)
| Throw (e : JsError).
Arguments Return {A} a.
Arguments Throw {A} e.

#[global] Instance Js_bind : MBind Js := λ A B k r,
  match r with
  | Return a => k a
  | Throw e => Throw e
  end.

Definition KEY_BYTES : nat := 32.
Definition MAX_MESSAGE_BYTES : nat := KEY_BYTES - 1.

(** ** The platform: [TextEncoder], [TextDecoder] (WHATWG Encoding) *)

Definition isLeadSurrogate (u : Z) : bool := (0xD800 <=? u) && (u <=? 0xDBFF).
Definition isTrailSurrogate (u : Z) : bool := (0xDC00 <=? u) && (u <=? 0xDFFF).

(** A string as scalar values: a surrogate pair is one code point, a
    surrogate that is not part of a pair becomes U+FFFD. *)
Fixpoint toScalarValues (s : jsstring) : list Z :=
  match s with
  | [] => []
  | c :: rest =>
    if isLeadSurrogate c then
      match rest with
      | d :: rest' =>
        if isTrailSurrogate d
        then (0x10000 + (c - 0xD800) * 0x400 + (d - 0xDC00)) :: toScalarValues rest'
        else 0xFFFD :: toScalarValues rest
      | [] => [0xFFFD]
      end
    else if isTrailSurrogate c then 0xFFFD :: toScalarValues rest
    else c :: toScalarValues rest
  end.

(** The UTF-8 encoder, one code point at a time. *)
Definition utf8EncodeCodePoint (cp : Z) : list Z :=
  if cp <=? 0x7F then [cp]
  else if cp <=? 0x7FF then
    [Z.shiftr cp 6 + 0xC0; Z.lor 0x80 (Z.land cp 0x3F)]
  else if cp <=? 0xFFFF then
    [Z.shiftr cp 12 + 0xE0;
     Z.lor 0x80 (Z.land (Z.shiftr cp 6) 0x3F);
     Z.lor 0x80 (Z.land cp 0x3F)]
  else
    [Z.shiftr cp 18 + 0xF0;
     Z.lor 0x80 (Z.land (Z.shiftr cp 12) 0x3F);
     Z.lor 0x80 (Z.land (Z.shiftr cp 6) 0x3F);
     Z.lor 0x80 (Z.land cp 0x3F)].

(** [new TextEncoder().encode(s)] *)
Definition TextEncoder_encode (s : jsstring) : Uint8Array :=
  toScalarValues s ≫= utf8EncodeCodePoint.

(** The UTF-8 decoder's state. *)
Record Utf8Decoder := mkUtf8Decoder {
  codePoint : Z;
  bytesSeen : Z;
  bytesNeeded : Z;
  lowerBoundary : Z;
  upperBoundary : Z
}.

Definition utf8Initial : Utf8Decoder := mkUtf8Decoder 0 0 0 0x80 0xBF.

(** The decoder's handler on a byte when no sequence is open: the next
    state and the code points emitted (U+FFFD for an error). *)
Definition utf8Lead (byte : Z) : Utf8Decoder * list Z :=
  if (0 <=? byte) && (byte <=? 0x7F) then (utf8Initial, [byte])
  else if (0xC2 <=? byte) && (byte <=? 0xDF) then
    (mkUtf8Decoder (Z.land byte 0x1F) 0 1 0x80 0xBF, [])
  else if (0xE0 <=? byte) && (byte <=? 0xEF) then
    (mkUtf8Decoder (Z.land byte 0xF) 0 2
       (if byte =? 0xE0 then 0xA0 else 0x80)
       (if byte =? 0xED then 0x9F else 0xBF), [])
  else if (0xF0 <=? byte) && (byte <=? 0xF4) then
    (mkUtf8Decoder (Z.land byte 0x7) 0 3
       (if byte =? 0xF0 then 0x90 else 0x80)
       (if byte =? 0xF4 then 0x8F else 0xBF), [])
  else (utf8Initial, [0xFFFD]).

(** The handler on a byte in any state.  A byte that cannot continue the
    open sequence ends it with an error and is then handled afresh. *)
Definition utf8Handler (d : Utf8Decoder) (byte : Z) : Utf8Decoder * list Z :=
  if bytesNeeded d =? 0 then utf8Lead byte
  else if negb ((lowerBoundary d <=? byte) && (byte <=? upperBoundary d)) then
    let '(d', out) := utf8Lead byte in (d', 0xFFFD :: out)
  else
    let cp := Z.lor (Z.shiftl (codePoint d) 6) (Z.land byte 0x3F) in
    if bytesSeen d + 1 =? bytesNeeded d then (utf8Initial, [cp])
    else (mkUtf8Decoder cp (bytesSeen d + 1) (bytesNeeded d) 0x80 0xBF, []).

(** Running the decoder over a byte sequence; at the end of the input an
    open sequence is an error. *)
Fixpoint utf8DecodeFrom (d : Utf8Decoder) (input : list Z) : list Z :=
  match input with
  | [] => if bytesNeeded d =? 0 then [] else [0xFFFD]
  | byte :: rest =>
    let '(d', out) := utf8Handler d byte in out ++ utf8DecodeFrom d' rest
  end.

(** A scalar value as UTF-16 code units. *)
Definition utf16EncodeCodePoint (cp : Z) : list Z :=
  if cp <=? 0xFFFF then [cp]
  else [0xD800 + Z.shiftr (cp - 0x10000) 10; 0xDC00 + Z.land (cp - 0x10000) 0x3FF].

(** [new TextDecoder().decode(bytes)]: UTF-8, not fatal (errors decode to
    U+FFFD), and with [ignoreBOM] off, so that a byte order mark at the
    start of the output is dropped. *)
Definition TextDecoder_decode (input : Uint8Array) : jsstring :=
  let scalars := utf8DecodeFrom utf8Initial input in
  let scalars' := match scalars with
                  | c :: rest => if c =? 0xFEFF then rest else scalars
                  | [] => []
                  end in
  scalars' ≫= utf16EncodeCodePoint.

(** ** The platform: [BigInt(string)] and [bigint.toString(16)] *)

Definition isStrWhiteSpaceChar (c : Z) : bool :=
  bool_decide (c ∈ [0x9; 0xA; 0xB; 0xC; 0xD; 0x20; 0xA0; 0x1680;
                    0x2000; 0x2001; 0x2002; 0x2003; 0x2004; 0x2005; 0x2006;
                    0x2007; 0x2008; 0x2009; 0x200A;
                    0x2028; 0x2029; 0x202F; 0x205F; 0x3000; 0xFEFF]).

Fixpoint trimStart (s : jsstring) : jsstring :=
  match s with
  | c :: rest => if isStrWhiteSpaceChar c then trimStart rest else s
  | [] => []
  end.

Definition trim (s : jsstring) : jsstring :=
  reverse (trimStart (reverse (trimStart s))).

(** The value of a character as a digit of [radix]: [0-9], [a-z], [A-Z]. *)
Definition digitOf (radix : Z) (c : Z) : option Z :=
  let d := if (48 <=? c) && (c <=? 57) then c - 48
           else if (97 <=? c) && (c <=? 122) then c - 87
           else if (65 <=? c) && (c <=? 90) then c - 55
           else radix in
  if d <? radix then Some d else None.

Fixpoint digitsValue (radix : Z) (acc : Z) (s : jsstring) : option Z :=
  match s with
  | [] => Some acc
  | c :: rest => d ← digitOf radix c; digitsValue radix (acc * radix + d) rest
  end.

(** One or more digits of [radix]. *)
Definition parseDigits (radix : Z) (s : jsstring) : option Z :=
  match s with
  | [] => None
  | _ => digitsValue radix 0 s
  end.

(** [StringToBigInt]: white space around the literal is dropped; the empty
    string is 0; a literal is [0x], [0o] or [0b] and digits, or decimal
    digits with an optional sign. *)
Definition StringToBigInt (s : jsstring) : option Z :=
  match trim s with
  | [] => Some 0
  | c0 :: rest =>
    let nonDecimal :=
      match rest with
      | p :: digits =>
        if c0 =? 48 then
          if (p =? 120) || (p =? 88) then Some (parseDigits 16 digits)
          else if (p =? 111) || (p =? 79) then Some (parseDigits 8 digits)
          else if (p =? 98) || (p =? 66) then Some (parseDigits 2 digits)
          else None
        else None
      | [] => None
      end in
    match nonDecimal with
    | Some r => r
    | None =>
      if c0 =? 43 then parseDigits 10 rest
      else if c0 =? 45 then Z.opp <$> parseDigits 10 rest
      else parseDigits 10 (c0 :: rest)
    end
  end.

Definition BigInt (s : jsstring) : Js Z :=
  match StringToBigInt s with
  | Some v => Return v
  | None => Throw SyntaxError
  end.

(** The character of a hexadecimal digit, lower case. *)
Definition hexChar (d : Z) : Z := if d <? 10 then 48 + d else 87 + d.

(** The [width] low hexadecimal digits of [v], most significant first. *)
Fixpoint digitsOf (width : nat) (v : Z) : list Z :=
  match width with
  | O => []
  | S n => digitsOf n (v / 16) ++ [v mod 16]
  end.

(** The number of hexadecimal digits of [v ≥ 0] ("0" has one). *)
Definition hexWidth (v : Z) : nat :=
  if v =? 0 then 1%nat else S (Z.to_nat (Z.log2 v / 4)).

(** [v.toString(16)] for [v ≥ 0]. *)
Definition toString16 (v : Z) : jsstring :=
  hexChar <$> digitsOf (hexWidth v) v.

(** ** ethers: [toBeHex], [getBytes], [hexlify], [zeroPadValue] *)

Definition toBeHex (value : Z) (width : option nat) : Js jsstring :=
  if value <? 0 then Throw NUMERIC_FAULT else
  let result := toString16 value in
  match width with
  | None =>
    Return (js "0x" ++ (if Nat.odd (length result) then 48 :: result else result))
  | Some w =>
    if (w * 2 <? length result)%nat then Throw NUMERIC_FAULT
    else Return (js "0x" ++ replicate (w * 2 - length result) 48 ++ result)
  end.

Fixpoint parseHexPairs (s : jsstring) : option (list Z) :=
  match s with
  | [] => Some []
  | hi :: lo :: rest =>
    h ← digitOf 16 hi; l ← digitOf 16 lo; bs ← parseHexPairs rest;
    Some (h * 16 + l :: bs)
  | _ => None
  end.

(** [getBytes] of a string: it must match [/^0x([0-9a-f][0-9a-f])*$/i]. *)
Definition getBytes (value : jsstring) : Js Uint8Array :=
  match value with
  | c0 :: c1 :: digits =>
    if (c0 =? 48) && ((c1 =? 120) || (c1 =? 88)) then
      match parseHexPairs digits with
      | Some bs => Return bs
      | None => Throw INVALID_ARGUMENT
      end
    else Throw INVALID_ARGUMENT
  | _ => Throw INVALID_ARGUMENT
  end.

Definition hexlify (data : Uint8Array) : jsstring :=
  js "0x" ++ (data ≫= λ v, [hexChar (Z.shiftr (Z.land v 0xf0) 4); hexChar (Z.land v 0x0f)]).

Definition zeroPadValue (data : jsstring) (length : nat) : Js jsstring :=
  bytes ← getBytes data;
  if (length <? List.length bytes)%nat then Throw BUFFER_OVERRUN
  else Return (hexlify (replicate (length - List.length bytes) 0 ++ bytes)).

(** ** [Uint8Array] operations of the codec *)

(** [a[i]] read as an operand of [^]: an index past the end reads 0. *)
Definition at_ (a : Uint8Array) (i : nat) : Z := default 0 (a !! i).

(** [a[i] = v]: the value is stored modulo 256; past the end nothing is
    stored. *)
Definition store (a : Uint8Array) (i : nat) (v : Z) : Uint8Array :=
  <[ i := v mod 256 ]> a.

(** [target.set(source, offset)] *)
Definition Uint8Array_set (target source : Uint8Array) (offset : nat) : Js Uint8Array :=
  if (length target <? offset + length source)%nat then Throw RangeError
  else Return (take offset target ++ source ++ drop (offset + length source) target).

(** [a.slice(start, end)] for non-negative arguments. *)
Definition Uint8Array_slice (a : Uint8Array) (start end_ : nat) : Uint8Array :=
  take (end_ `min` length a - start `min` length a) (drop (start `min` length a) a).

(** ** [String.prototype.slice] and [shortenAddress] *)

(** A relative index of [slice]: a negative one counts from the end, and
    the result is clamped to the string. *)
Definition relativeIndex (len : nat) (i : Z) : nat :=
  if i <? 0 then Z.to_nat (Z.max (Z.of_nat len + i) 0)
  else Z.to_nat (Z.min i (Z.of_nat len)).

(** [s.slice(start, end)]; a missing [end] is the length of [s]. *)
Definition String_slice (s : jsstring) (start : Z) (end_ : option Z) : jsstring :=
  let len := length s in
  let from := relativeIndex len start in
  let to := match end_ with
            | Some e => relativeIndex len e
            | None => len
            end in
  take (to - from) (drop from s).

(** [shortenAddress(address?: string, size = 4)] for an integer [size]:
    [!address] holds for [undefined] and for the empty string; the
    separator is the one code unit U+2026. *)
Definition shortenAddress (address : option jsstring) (size : option Z) : jsstring :=
  let size := default 4 size in
  match address with
  | None | Some [] => []
  | Some address =>
    String_slice address 0 (Some (2 + size)) ++ [0x2026]
    ++ String_slice address (- size) None
  end.

(** ** Notions the properties are stated with *)

(** A letter [A-Z] as its lower-case form, any other code unit as it is. *)
Definition asciiLower (c : Z) : Z :=
  if (65 <=? c) && (c <=? 90) then c + 32 else c.

(** A hexadecimal digit in either case. *)
Definition isHexDigit (c : Z) : bool :=
  ((48 <=? c) && (c <=? 57)) || ((97 <=? c) && (c <=? 102)) || ((65 <=? c) && (c <=? 70)).

(** [s.toWellFormed()]: every surrogate that is not half of a pair is
    replaced by U+FFFD. *)
Definition toWellFormed (s : jsstring) : jsstring :=
  toScalarValues s ≫= utf16EncodeCodePoint.

(** A string without the byte order mark U+FEFF it may start with. *)
Definition stripBOM (s : jsstring) : jsstring :=
  match s with
  | c :: rest => if c =? 0xFEFF then rest else s
  | [] => []
  end.

(** The bytes of an open sequence that the decoder has taken without
    emitting anything yet. *)
Definition pendingBytes (d : Utf8Decoder) : nat :=
  if bytesNeeded d =? 0 then 0%nat else S (Z.to_nat (bytesSeen d)).

(** The value of a byte sequence read as a big-endian unsigned integer. *)
Definition beValue (bs : list Z) : Z := foldl (λ acc b, acc * 256 + b) 0 bs.

(** The [n] low bytes of [v], most significant first. *)
Fixpoint bytesBE (n : nat) (v : Z) : list Z :=
  match n with
  | O => []
  | S k => bytesBE k (v / 256) ++ [v mod 256]
  end.

(** The digits of a byte sequence, two a byte. *)
Definition nibbles (bs : list Z) : list Z := bs ≫= λ b, [b / 16; b mod 16].

(** The number of bytes [toBeHex] writes for [v ≥ 0]. *)
Definition byteWidth (v : Z) : nat := Nat.div2 (S (hexWidth v)).

(** The layout of the block that [sealMessage] combines with the key:
    the length, the encoded message, zeros. *)
Definition block (encoded : Uint8Array) : Uint8Array :=
  Z.of_nat (length encoded) :: encoded
  ++ replicate (MAX_MESSAGE_BYTES - length encoded) 0.

(** The first steps of [openMessage]: the cipher value as 32 bytes. *)
Definition cipherBytes (cipherValue : Z) : Js Uint8Array :=
  hex ← toBeHex cipherValue None;
  padded ← zeroPadValue hex KEY_BYTES;
  getBytes padded.

(** A Unicode scalar value: a code point that is no surrogate. *)
Definition isScalarValue (cp : Z) : Prop :=
  0 ≤ cp ≤ 0x10FFFF ∧ ¬ (0xD800 ≤ cp ≤ 0xDFFF).

(** [isScalarValue] as a test. *)
Definition isScalarValueb (cp : Z) : bool :=
  (0 <=? cp) && (cp <=? 0x10FFFF) && negb ((0xD800 <=? cp) && (cp <=? 0xDFFF)).

(** The states the decoder can be in: the code point collected so far is
    such that the sequence can only end in a scalar value. *)
Definition decoderOk (d : Utf8Decoder) : bool :=
  let cp := codePoint d in
  (0x80 <=? lowerBoundary d) && (upperBoundary d <=? 0xBF) && (0 <=? cp) &&
  (if bytesNeeded d =? 0 then true
   else if bytesNeeded d =? 1 then (bytesSeen d =? 0) && (cp <? 32)
   else if bytesNeeded d =? 2 then
     ((bytesSeen d =? 0) && (cp <? 16)
      && implb (cp =? 13) (upperBoundary d <=? 0x9F))
     || ((bytesSeen d =? 1) && (cp <? 0x400) && negb ((0x360 <=? cp) && (cp <? 0x380)))
   else if bytesNeeded d =? 3 then
     ((bytesSeen d =? 0) && (cp <? 5)
      && implb (cp =? 0) (0x90 <=? lowerBoundary d)
      && implb (cp =? 4) (upperBoundary d <=? 0x8F))
     || ((bytesSeen d =? 1) && (0x10 <=? cp) && (cp <? 0x110))
     || ((bytesSeen d =? 2) && (0x400 <=? cp) && (cp <? 0x4400))
   else false).

(** [s.isWellFormed()]: every surrogate of [s] is half of a pair. *)
Fixpoint isWellFormed (s : jsstring) : bool :=
  match s with
  | [] => true
  | c :: rest =>
    if isLeadSurrogate c then
      match rest with
      | d :: rest' => isTrailSurrogate d && isWellFormed rest'
      | [] => false
      end
    else negb (isTrailSurrogate c) && isWellFormed rest
  end.

(** [s.startsWith('0x')] *)
Definition startsWith0x (s : jsstring) : bool :=
  match s with
  | c0 :: c1 :: _ => (c0 =? 48) && (c1 =? 120)
  | _ => false
  end.

Section Codec.

(** The Keccak-256 digest of a byte sequence, as its 32 bytes. *)
Variable keccak256Digest : list Z → list Z.

(** [ethers.keccak256(data)] of a [Uint8Array]: the digest as a hex string. *)
Definition keccak256 (data : Uint8Array) : jsstring :=
  hexlify (keccak256Digest data).

Definition deriveKeyBytes (groupKey : jsstring) : Js Uint8Array :=
  normalized ← (if startsWith0x groupKey then Return groupKey
                else v ← BigInt groupKey; toBeHex v None);
  bytes ← getBytes normalized;
  let hashed := keccak256 bytes in
  getBytes hashed.

(** [normalizeGroupKey(value: string | bigint)] *)
Definition normalizeGroupKey (value : jsstring + Z) : Js jsstring :=
  bigValue ← match value with
             | inr v => Return v
             | inl s => BigInt s
             end;
  toBeHex bigValue (Some 20%nat).

(** The bytes a key string spells, which [deriveKeyBytes] hashes: the
    bytes its hex digits write when it starts with [0x], else the bytes
    of the integer it denotes, without leading zero bytes. *)
Definition keyMaterial (groupKey : jsstring) : Js Uint8Array :=
  if startsWith0x groupKey then getBytes groupKey
  else v ← BigInt groupKey;
       if v <? 0 then Throw NUMERIC_FAULT else Return (bytesBE (byteWidth v) v).

(** The 32-byte block of [sealMessage] before it is combined with the key. *)
Definition envelope (encoded : Uint8Array) : Js Uint8Array :=
  let payload := replicate KEY_BYTES 0 in
  let payload := store payload 0 (Z.of_nat (length encoded)) in
  Uint8Array_set payload encoded 1.

(** The loop [for (i = 0; i < KEY_BYTES; i++) payload[i] ^= keyBytes[i]]. *)
Definition xorKey (payload keyBytes : Uint8Array) : Uint8Array :=
  foldl (λ payload i, store payload i (Z.lxor (at_ payload i) (at_ keyBytes i)))
        payload (seq 0 KEY_BYTES).

Definition sealMessage (message : jsstring) (groupKey : jsstring) : Js Z :=
  keyBytes ← deriveKeyBytes groupKey;
  let encoded := TextEncoder_encode message in
  if (MAX_MESSAGE_BYTES <? length encoded)%nat
  then Throw (Error "Message too long. Limit 31 bytes") else
  payload ← envelope encoded;
  let payload := xorKey payload keyBytes in
  let cipherHex := hexlify payload in
  BigInt cipherHex.

(** [payload.map((byte, idx) => byte ^ keyBytes[idx])] *)
Definition mapXor (payload keyBytes : Uint8Array) : Uint8Array :=
  imap (λ idx byte, Z.lxor byte (at_ keyBytes idx) mod 256) payload.

Definition openMessage (cipherValue : Z) (groupKey : jsstring) : Js jsstring :=
  keyBytes ← deriveKeyBytes groupKey;
  hex ← toBeHex cipherValue None;
  padded ← zeroPadValue hex KEY_BYTES;
  payload ← getBytes padded;
  let plain := mapXor payload keyBytes in
  let length := at_ plain 0 in
  let slice := Uint8Array_slice plain 1 (1 + Z.to_nat length) in
  Return (TextDecoder_decode slice).

(** The block [openMessage] recovers before it reads the length byte. *)
Definition openedBlock (cipherValue : Z) (groupKey : jsstring) : Js Uint8Array :=
  keyBytes ← deriveKeyBytes groupKey;
  payload ← cipherBytes cipherValue;
  Return (mapXor payload keyBytes).

End Codec.

(** A stand-in digest (32 bytes that depend on the input's bytes and
    length) for running the codec on concrete inputs. *)
Definition sampleDigest (data : list Z) : list Z :=
  (λ i, (foldr Z.add 0 data + Z.of_nat (length data) + 7 * Z.of_nat i) mod 256)
    <$> seq 0 32.

End Messages.

(* ===================================================================== *)
(** * Part III: properties of the registry                               *)
(* ===================================================================== *)

Section RegistryBasics.

Import ZVerseGroups.

(** ** The ACL only grows, and the two loops grant what they pass over *)

Lemma FHE_isAllowed_true h a (s : ACL) :
  FHE_isAllowed h a s = true ↔ (h, a) ∈ s.
Proof. unfold FHE_isAllowed. apply bool_decide_eq_true. Qed.

Lemma FHE_allow_elem h a h' a' (s : ACL) :
  (h', a') ∈ FHE_allow h a s ↔ (h', a') = (h, a) ∨ (h', a') ∈ s.
Proof. unfold FHE_allow. set_solver. Qed.

Lemma allowHistory_mono account messages (s : ACL) p :
  p ∈ s → p ∈ allowHistory account messages s.
Proof.
  revert s. induction messages as [|m ms IH]; intros s Hp; simpl; [done|].
  apply IH. destruct p. apply FHE_allow_elem. by right.
Qed.

Lemma allowHistory_grants account messages (s : ACL) m :
  m ∈ messages → (encryptedContent m, account) ∈ allowHistory account messages s.
Proof.
  revert s. induction messages as [|m' ms IH]; intros s Hm.
  - by apply not_elem_of_nil in Hm.
  - apply elem_of_cons in Hm as [->|Hm]; simpl.
    + apply allowHistory_mono, FHE_allow_elem. by left.
    + by apply IH.
Qed.

Lemma allowMembers_mono h ms (s : ACL) p :
  p ∈ s → p ∈ allowMembers h ms s.
Proof.
  revert s. induction ms as [|m ms IH]; intros s Hp; simpl; [done|].
  apply IH. destruct p. apply FHE_allow_elem. by right.
Qed.

Lemma allowMembers_grants h ms (s : ACL) a :
  a ∈ ms → (h, a) ∈ allowMembers h ms s.
Proof.
  revert s. induction ms as [|m ms IH]; intros s Ha.
  - by apply not_elem_of_nil in Ha.
  - apply elem_of_cons in Ha as [->|Ha]; simpl.
    + apply allowMembers_mono, FHE_allow_elem. by left.
    + by apply IH.
Qed.

(** ** Reading the modifier and the views *)

Lemma validGroup_Ok st groupId g :
  validGroup st groupId = Ok g ↔ _groups st !! N.to_nat groupId = Some g.
Proof.
  unfold validGroup. destruct (_groups st !! N.to_nat groupId); split; congruence.
Qed.

Lemma validGroup_range st groupId :
  (∃ g, validGroup st groupId = Ok g) ↔ (groupId < getGroupCount st)%N.
Proof.
  unfold getGroupCount. split.
  - intros [g Hg%validGroup_Ok]. apply lookup_lt_Some in Hg. lia.
  - intros Hlt. destruct (lookup_lt_is_Some_2 (_groups st) (N.to_nat groupId)) as [g Hg]; [lia|].
    exists g. by apply validGroup_Ok.
Qed.

Lemma isGroupMember_Ok st groupId account b :
  isGroupMember st groupId account = Ok b ↔
  ∃ g, validGroup st groupId = Ok g ∧ isMemberOf g account = b.
Proof.
  unfold isGroupMember. destruct (validGroup st groupId) as [g| |]; simpl; split.
  - intros [= <-]. by exists g.
  - by intros (g' & [= <-] & <-).
  - done.
  - by intros (? & ? & _).
  - done.
  - by intros (? & ? & _).
Qed.

Lemma canDecryptMessage_Ok st groupId index account g m :
  validGroup st groupId = Ok g →
  messagesOf st groupId !! N.to_nat index = Some m →
  canDecryptMessage st groupId index account
  = Ok (FHE_isAllowed (encryptedContent m) account (acl st)).
Proof.
  intros Hg Hm. unfold canDecryptMessage, messageAt. rewrite Hg. simpl.
  by rewrite Hm.
Qed.

(** ** C1: retroactive grant on join *)

(** C1.  For a valid [groupId] and a caller who is not yet a member,
    [joinGroup] succeeds; afterwards the caller is the last entry of the
    member list (the earlier entries are as before), [canDecryptGroupKey]
    holds for the caller, the message sequence is as it was, and
    [canDecryptMessage] holds for the caller at every index of a message
    that existed in the group. *)
Theorem joinGroup_retroactive_grant st env groupId :
  isGroupMember st groupId (msg_sender env) = Ok false →
  ∃ st' members0,
    joinGroup st env groupId = Ok st' ∧
    getGroupMembers st groupId = Ok members0 ∧
    getGroupMembers st' groupId = Ok (members0 ++ [msg_sender env]) ∧
    isGroupMember st' groupId (msg_sender env) = Ok true ∧
    canDecryptGroupKey st' groupId (msg_sender env) = Ok true ∧
    getMessageCount st' groupId = getMessageCount st groupId ∧
    ∀ (count index : uint256),
      getMessageCount st groupId = Ok count → (index < count)%N →
      canDecryptMessage st' groupId index (msg_sender env) = Ok true.
Proof.
  intros (g & Hg & Hnot)%isGroupMember_Ok.
  pose proof Hg as Hlook%validGroup_Ok.
  pose proof (lookup_lt_Some _ _ _ Hlook) as Hlt.
  set (g' := mkGroup (name g) (encryptedKey g) (creator g)
                     (members g ++ [msg_sender env])
                     (<[ msg_sender env := true ]> (isMember g))).
  eexists _, (members g).
  assert (Hjoin : joinGroup st env groupId = Ok
    (mkState (<[ N.to_nat groupId := g' ]> (_groups st)) (_groupMessages st)
       (allowHistory (msg_sender env) (messagesOf st groupId)
          (FHE_allow (encryptedKey g) (msg_sender env) (acl st)))
       (events st ++ [GroupJoined groupId (msg_sender env)]))).
  { unfold joinGroup. rewrite Hg. simpl. by rewrite Hnot. }
  split; [exact Hjoin|].
  set (st' := mkState _ _ _ _) in Hjoin |- *.
  assert (Hg' : validGroup st' groupId = Ok g').
  { apply validGroup_Ok. simpl. by apply list_lookup_insert_eq. }
  repeat split.
  - unfold getGroupMembers. by rewrite Hg.
  - unfold getGroupMembers. by rewrite Hg'.
  - apply isGroupMember_Ok. exists g'. split; [done|].
    unfold isMemberOf. simpl. by rewrite lookup_insert_eq.
  - unfold canDecryptGroupKey. rewrite Hg'. simpl. f_equal.
    apply FHE_isAllowed_true, allowHistory_mono, FHE_allow_elem. by left.
  - unfold getMessageCount. by rewrite Hg, Hg'.
  - intros count index Hcount Hidx.
    unfold getMessageCount in Hcount. rewrite Hg in Hcount. simpl in Hcount.
    injection Hcount as <-.
    destruct (lookup_lt_is_Some_2 (messagesOf st groupId) (N.to_nat index)) as [m Hm]; [lia|].
    rewrite (canDecryptMessage_Ok st' groupId index _ g' m Hg' Hm). f_equal.
    apply FHE_isAllowed_true. simpl.
    apply allowHistory_grants. by eapply list_elem_of_lookup_2.
Qed.

End RegistryBasics.

Section RegistryProperties.

Import ZVerseGroups.

Variable this : address.
Variable keccak256_packed : uint256 → uint256 → address → uint256 → uint256.
Variable FHE_asEaddress : address → handle.
Variable FHE_fromExternal : address → handle → bytes → option handle.

Abbreviation sendMessage := (ZVerseGroups.sendMessage this FHE_fromExternal).
Abbreviation createGroup := (ZVerseGroups.createGroup this keccak256_packed FHE_asEaddress).
Abbreviation run := (ZVerseGroups.run this keccak256_packed FHE_asEaddress FHE_fromExternal).
Abbreviation commit := (ZVerseGroups.commit this keccak256_packed FHE_asEaddress FHE_fromExternal).
Abbreviation reachable := (ZVerseGroups.reachable this keccak256_packed FHE_asEaddress FHE_fromExternal).

(** ** Every reachable state is well formed *)

Lemma wellFormedGroup_created (a : address) name key :
  wellFormedGroup (mkGroup name key a [a] {[ a := true ]}).
Proof.
  unfold wellFormedGroup, isMemberOf. simpl.
  split; [done|]. split; [by apply list_elem_of_singleton|].
  split; [apply NoDup_singleton|]. intros b.
  rewrite list_elem_of_singleton. split.
  - intros Hb. destruct (decide (b = a)) as [->|Hne]; [done|].
    by rewrite lookup_singleton_ne in Hb.
  - intros ->. by rewrite lookup_singleton_eq.
Qed.

Lemma wellFormedGroup_joined g (a : address) :
  wellFormedGroup g → isMemberOf g a = false →
  wellFormedGroup (mkGroup (name g) (encryptedKey g) (creator g)
                           (members g ++ [a]) (<[ a := true ]> (isMember g))).
Proof.
  intros (Hne & Hcr & Hnd & Hiff) Hnot. unfold wellFormedGroup. simpl.
  split; [by destruct (members g)|].
  split; [apply elem_of_app; by left|].
  split.
  - apply NoDup_app. split; [done|]. split; [|apply NoDup_singleton].
    intros x Hx ->%list_elem_of_singleton. apply Hiff in Hx. congruence.
  - intros b. rewrite elem_of_app, list_elem_of_singleton, <-Hiff.
    unfold isMemberOf. simpl.
    destruct (decide (b = a)) as [->|Hne'].
    + rewrite lookup_insert_eq. simpl. by split; [right|].
    + rewrite lookup_insert_ne by done. split; [by left|]. by intros [|].
Qed.

Lemma run_preserves_groups st env c st' :
  Forall wellFormedGroup (_groups st) → run st env c = Ok st' →
  Forall wellFormedGroup (_groups st').
Proof.
  intros Hall Hrun. destruct c as [nm|groupId|groupId encryptedMessage inputProof];
    simpl in Hrun.
  - unfold ZVerseGroups.createGroup in Hrun.
    destruct (String.length nm =? 0)%nat; simpl in Hrun; [done|].
    injection Hrun as <-. simpl. apply Forall_app. split; [done|].
    apply Forall_singleton, wellFormedGroup_created.
  - unfold joinGroup in Hrun.
    destruct (validGroup st groupId) as [g| |] eqn:Hg; simpl in Hrun; [|done..].
    destruct (isMemberOf g (msg_sender env)) eqn:Hm; [done|].
    injection Hrun as <-. simpl. apply Forall_insert; [done|].
    apply wellFormedGroup_joined; [|done].
    apply validGroup_Ok in Hg. by eapply Forall_lookup_1.
  - unfold ZVerseGroups.sendMessage in Hrun.
    destruct (validGroup st groupId) as [g| |] eqn:Hg; simpl in Hrun; [|done..].
    destruct (negb (isMemberOf g (msg_sender env))); [done|].
    destruct (FHE_fromExternal _ _ _); [|done].
    by injection Hrun as <-.
Qed.

Lemma reachable_groups st :
  reachable st → Forall wellFormedGroup (_groups st).
Proof.
  induction 1 as [|st env c Hreach IH]; [by constructor|].
  unfold ZVerseGroups.commit. destruct (run st env c) as [st'| |] eqn:Hrun; [|done..].
  by eapply run_preserves_groups.
Qed.

(** ** C2: forward grant on send *)

(** C2.  For a valid [groupId], a caller who is a member and an input the
    service's import accepts (yielding [storedMessage]), [sendMessage]
    succeeds; it appends exactly one record, whose sender is the caller,
    leaves the member list as it was, and [canDecryptMessage] holds at the
    new record's index for every principal of the member list, which in a
    reachable state is every principal [isGroupMember] holds for. *)
Theorem sendMessage_forward_grant st env groupId encryptedMessage inputProof
    storedMessage :
  isGroupMember st groupId (msg_sender env) = Ok true →
  FHE_fromExternal (msg_sender env) encryptedMessage inputProof = Some storedMessage →
  ∃ st' count members0,
    sendMessage st env groupId encryptedMessage inputProof = Ok st' ∧
    getMessageCount st groupId = Ok count ∧
    getMessageCount st' groupId = Ok (N.succ count) ∧
    messagesOf st' groupId
    = messagesOf st groupId
      ++ [mkMessage (msg_sender env) storedMessage (block_timestamp env)] ∧
    getMessage st' groupId count
    = Ok (msg_sender env, storedMessage, block_timestamp env) ∧
    getGroupMembers st groupId = Ok members0 ∧
    getGroupMembers st' groupId = Ok members0 ∧
    (∀ member : address,
       member ∈ members0 →
       canDecryptMessage st' groupId count member = Ok true) ∧
    (reachable st →
     ∀ member : address,
       isGroupMember st groupId member = Ok true →
       canDecryptMessage st' groupId count member = Ok true).
Proof.
  intros (g & Hg & Hmem)%isGroupMember_Ok Himport.
  set (message := mkMessage (msg_sender env) storedMessage (block_timestamp env)).
  set (count := N.of_nat (length (messagesOf st groupId))).
  assert (Hsend : sendMessage st env groupId encryptedMessage inputProof = Ok
    (mkState (_groups st)
       (<[ groupId := messagesOf st groupId ++ [message] ]> (_groupMessages st))
       (allowMembers storedMessage (members g)
          (FHE_allow storedMessage this (acl st)))
       (events st ++ [MessageSent groupId (msg_sender env) storedMessage]))).
  { unfold ZVerseGroups.sendMessage. rewrite Hg. simpl. by rewrite Hmem, Himport. }
  eexists _, count, (members g). split; [exact Hsend|].
  set (st' := mkState _ _ _ _) in Hsend |- *.
  assert (Hg' : validGroup st' groupId = Ok g) by done.
  assert (Hmsgs : messagesOf st' groupId = messagesOf st groupId ++ [message]).
  { unfold messagesOf at 1. simpl. by rewrite lookup_insert_eq. }
  assert (Hat : messagesOf st' groupId !! N.to_nat count = Some message).
  { rewrite Hmsgs. unfold count. rewrite Nat2N.id.
    by rewrite lookup_app_r, Nat.sub_diag by lia. }
  repeat split.
  - unfold getMessageCount. by rewrite Hg.
  - unfold getMessageCount. rewrite Hg'. simpl. rewrite Hmsgs, length_app. simpl.
    f_equal. unfold count. lia.
  - exact Hmsgs.
  - unfold getMessage, messageAt. rewrite Hg'. simpl. by rewrite Hat.
  - unfold getGroupMembers. by rewrite Hg.
  - unfold getGroupMembers. by rewrite Hg'.
  - intros member Hin.
    rewrite (canDecryptMessage_Ok st' groupId count _ g message Hg' Hat). f_equal.
    apply FHE_isAllowed_true. simpl. by apply allowMembers_grants.
  - intros Hreach member (g0 & Hg0 & Hmember)%isGroupMember_Ok.
    assert (g0 = g) as -> by congruence.
    apply reachable_groups in Hreach.
    pose proof (Forall_lookup_1 _ _ _ _ Hreach (proj1 (validGroup_Ok _ _ _) Hg))
      as (_ & _ & _ & Hiff).
    rewrite (canDecryptMessage_Ok st' groupId count _ g message Hg' Hat). f_equal.
    apply FHE_isAllowed_true. simpl. by apply allowMembers_grants, Hiff.
Qed.

(** ** C5: the join guard *)

Lemma commit_failed st env c :
  (∀ st', run st env c ≠ Ok st') → commit st env c = st.
Proof.
  intros Hfail. unfold ZVerseGroups.commit.
  destruct (run st env c) as [st'| |] eqn:E; [|done..]. by destruct (Hfail st').
Qed.

Lemma joinGroup_member_reverts st env groupId :
  isGroupMember st groupId (msg_sender env) = Ok true →
  joinGroup st env groupId = Revert "Already a member".
Proof.
  intros (g & Hg & Hmem)%isGroupMember_Ok.
  unfold joinGroup. rewrite Hg. simpl. by rewrite Hmem.
Qed.

(** C5.  For a valid [groupId] and a caller who is already a member,
    [joinGroup] reverts with "Already a member", and the transaction leaves
    the whole state (member lists included) as it was. *)
Theorem joinGroup_already_member st env groupId :
  isGroupMember st groupId (msg_sender env) = Ok true →
  joinGroup st env groupId = Revert "Already a member" ∧
  commit st env (JoinGroup groupId) = st ∧
  getGroupMembers (commit st env (JoinGroup groupId)) groupId
  = getGroupMembers st groupId.
Proof.
  intros Hrev%joinGroup_member_reverts.
  assert (Hsame : commit st env (JoinGroup groupId) = st).
  { apply commit_failed. intros st'. simpl. by rewrite Hrev. }
  by rewrite Hsame.
Qed.

(** The guard as the specification words it: once a principal has joined,
    a second [joinGroup] by the same principal reverts and changes nothing. *)
Lemma joinGroup_second_call st env env' groupId st' :
  joinGroup st env groupId = Ok st' →
  msg_sender env' = msg_sender env →
  joinGroup st' env' groupId = Revert "Already a member" ∧
  commit st' env' (JoinGroup groupId) = st'.
Proof.
  intros Hjoin Hsame.
  assert (Hmem : isGroupMember st' groupId (msg_sender env') = Ok true).
  { rewrite Hsame. unfold joinGroup in Hjoin.
    destruct (validGroup st groupId) as [g| |] eqn:Hg; simpl in Hjoin; [|done..].
    destruct (isMemberOf g (msg_sender env)) eqn:Hm; [done|].
    injection Hjoin as <-. apply isGroupMember_Ok. eexists. split.
    - apply validGroup_Ok. simpl. apply list_lookup_insert_eq.
      apply validGroup_Ok in Hg. by eapply lookup_lt_Some.
    - unfold isMemberOf. simpl. by rewrite lookup_insert_eq. }
  apply joinGroup_member_reverts in Hmem. split; [done|].
  apply commit_failed. intros st''. simpl. by rewrite Hmem.
Qed.

(** ** C6: the membership invariant *)

(** C6.  In every state reached from the deployed contract by calls of
    [createGroup], [joinGroup] and [sendMessage] (failed ones included),
    every existing group has a non-empty member list that holds its
    creator and holds no principal twice, and [isMember] is [true] at
    exactly the principals of that list. *)
Theorem membership_invariant st groupId g :
  reachable st →
  validGroup st groupId = Ok g →
  members g ≠ [] ∧
  creator g ∈ members g ∧
  NoDup (members g) ∧
  ∀ a : address, isMemberOf g a = true ↔ a ∈ members g.
Proof.
  intros Hreach Hg%validGroup_Ok.
  apply reachable_groups in Hreach.
  exact (Forall_lookup_1 _ _ _ _ Hreach Hg).
Qed.

End RegistryProperties.

(* ===================================================================== *)
(** * Part IV: properties of the envelope codec                          *)
(* ===================================================================== *)

(** ** Small ranges are checked value by value *)

Lemma Z_range_ind (P : Z → Prop) (lo : Z) (n : nat) :
  Forall P (seqZ lo (Z.of_nat n)) → ∀ d, lo ≤ d < lo + Z.of_nat n → P d.
Proof. intros H d Hd. by apply (proj1 (Forall_seqZ P lo (Z.of_nat n)) H). Qed.

Ltac by_cases_on d lo n :=
  pattern d; apply (Z_range_ind _ lo n); [|lia];
  vm_compute seqZ; repeat (constructor; [try reflexivity|]); try constructor.

Section CodecProperties.

Import Messages.

(** ** Hexadecimal digits *)

Lemma digitOf_hexChar d : 0 ≤ d < 16 → digitOf 16 (hexChar d) = Some d.
Proof. intros Hd. by_cases_on d 0 16%nat. Qed.

Lemma hexChar_not_space d : 0 ≤ d < 16 → isStrWhiteSpaceChar (hexChar d) = false.
Proof. intros Hd. by_cases_on d 0 16%nat. Qed.

Lemma nibbles_of_byte v :
  isByte v → Z.shiftr (Z.land v 0xf0) 4 = v / 16 ∧ Z.land v 0x0f = v mod 16.
Proof.
  intros Hv. split.
  - rewrite Z.shiftr_land. change (Z.shiftr 0xf0 4) with (Z.ones 4).
    rewrite Z.land_ones, Z.shiftr_div_pow2 by lia. change (2 ^ 4) with 16.
    unfold isByte in Hv. apply Z.mod_small. split.
    + apply Z.div_pos; lia.
    + apply Z.div_lt_upper_bound; lia.
  - change 0x0f with (Z.ones 4). by rewrite Z.land_ones by lia.
Qed.

Lemma hexlify_nibbles bs :
  Forall isByte bs → hexlify bs = js "0x" ++ (hexChar <$> nibbles bs).
Proof.
  intros Hbs. unfold hexlify, nibbles. f_equal.
  induction Hbs as [|b bs Hb _ IH]; [done|].
  rewrite !bind_cons, fmap_app, IH. simpl.
  by destruct (nibbles_of_byte b Hb) as [-> ->].
Qed.

Lemma nibble_range b : isByte b → 0 ≤ b / 16 < 16 ∧ 0 ≤ b mod 16 < 16.
Proof.
  unfold isByte. intros Hb. split.
  - split; [apply Z.div_pos; lia | apply Z.div_lt_upper_bound; lia].
  - apply Z.mod_pos_bound. lia.
Qed.

Lemma parseHexPairs_nibbles bs :
  Forall isByte bs → parseHexPairs (hexChar <$> nibbles bs) = Some bs.
Proof.
  induction 1 as [|b bs Hb _ IH]; [done|].
  unfold nibbles in *. rewrite bind_cons.
  destruct (nibble_range b Hb) as [Hhi Hlo].
  cbn [app fmap list_fmap parseHexPairs].
  rewrite !digitOf_hexChar by done. cbn [mbind option_bind].
  rewrite IH. simpl.
  do 2 f_equal. pose proof (Z.div_mod b 16). lia.
Qed.

Lemma getBytes_hexlify bs : Forall isByte bs → getBytes (hexlify bs) = Return bs.
Proof.
  intros Hbs. rewrite hexlify_nibbles by done.
  change (js "0x" ++ ?s) with (48 :: 120 :: s).
  unfold getBytes. cbn [Z.eqb Pos.eqb andb orb].
  by rewrite parseHexPairs_nibbles.
Qed.

Lemma digitOf_range radix c d : 0 < radix → digitOf radix c = Some d → 0 ≤ d < radix.
Proof.
  unfold digitOf. intros Hr.
  repeat match goal with
         | |- context [if ?c then _ else _] => destruct c eqn:?
         end; intros; simplify_eq; lia.
Qed.

Lemma parseHexPairs_bytes s bs : parseHexPairs s = Some bs → Forall isByte bs.
Proof.
  revert bs. induction s as [s IH] using (induction_ltof1 _ length).
  intros bs. destruct s as [|hi [|lo rest]]; cbn [parseHexPairs]; [by intros [= <-]|done|].
  destruct (digitOf 16 hi) as [h|] eqn:Hh; [|done]. cbn [mbind option_bind].
  destruct (digitOf 16 lo) as [l|] eqn:Hl; [|done]. cbn [mbind option_bind].
  destruct (parseHexPairs rest) as [bs'|] eqn:Hrest; [|done]. cbn [mbind option_bind].
  intros [= <-]. constructor.
  - apply digitOf_range in Hh, Hl; [|lia..]. unfold isByte. lia.
  - apply (IH rest); [unfold ltof; simpl; lia|done].
Qed.

Lemma getBytes_bytes s bs : getBytes s = Return bs → Forall isByte bs.
Proof.
  unfold getBytes. destruct s as [|c0 [|c1 digits]]; [done..|].
  destruct (_ && _); [|done].
  destruct (parseHexPairs digits) eqn:E; [|done].
  intros [= <-]. by eapply parseHexPairs_bytes.
Qed.

(** ** Big-endian bytes and their value *)

Lemma beValue_snoc bs b : beValue (bs ++ [b]) = beValue bs * 256 + b.
Proof. unfold beValue. by rewrite foldl_app. Qed.

Lemma length_bytesBE n v : length (bytesBE n v) = n.
Proof.
  revert v. induction n as [|n IH]; intros v; [done|].
  cbn [bytesBE]. rewrite length_app, IH. simpl. lia.
Qed.

Lemma bytesBE_bytes n v : Forall isByte (bytesBE n v).
Proof.
  revert v. induction n as [|n IH]; intros v; [constructor|].
  cbn [bytesBE]. apply Forall_app. split; [apply IH|].
  apply Forall_singleton. unfold isByte. apply Z.mod_pos_bound. lia.
Qed.

Lemma beValue_bytesBE n v : beValue (bytesBE n v) = v mod 256 ^ Z.of_nat n.
Proof.
  revert v. induction n as [|n IH]; intros v.
  - by rewrite Z.mod_1_r.
  - cbn [bytesBE]. rewrite beValue_snoc, IH, Nat2Z.inj_succ, Z.pow_succ_r by lia.
    rewrite Z.rem_mul_r; [lia|lia|]. apply Z.pow_pos_nonneg; lia.
Qed.

Lemma beValue_bound bs :
  Forall isByte bs → 0 ≤ beValue bs < 256 ^ Z.of_nat (length bs).
Proof.
  induction bs as [|b bs IH] using rev_ind; intros Hbs; [change (0 ≤ 0 < 1); lia|].
  apply Forall_app in Hbs as [Hbs Hb%Forall_inv].
  rewrite beValue_snoc, length_app, Nat2Z.inj_add, Z.pow_add_r by lia.
  specialize (IH Hbs). unfold isByte in Hb. change (Z.of_nat (length [b])) with 1.
  rewrite Z.pow_1_r. nia.
Qed.

Lemma bytesBE_beValue bs :
  Forall isByte bs → bytesBE (length bs) (beValue bs) = bs.
Proof.
  induction bs as [|b bs IH] using rev_ind; intros Hbs; [done|].
  apply Forall_app in Hbs as [Hbs Hb%Forall_inv].
  rewrite beValue_snoc, length_app, Nat.add_comm. cbn [length Nat.add bytesBE].
  unfold isByte in Hb.
  replace ((beValue bs * 256 + b) / 256) with (beValue bs)
    by (rewrite Z.div_add_l, Z.div_small by lia; lia).
  rewrite IH by done. f_equal. f_equal.
  rewrite Z.add_comm, Z.mod_add by lia. by apply Z.mod_small.
Qed.

Lemma bytesBE_pad n k v :
  0 ≤ v < 256 ^ Z.of_nat n → bytesBE (k + n) v = replicate k 0 ++ bytesBE n v.
Proof.
  revert v. induction n as [|n IH]; intros v Hv.
  - rewrite Nat.add_0_r, app_nil_r.
    assert (v = 0) as -> by (simpl in Hv; lia).
    clear Hv. induction k as [|k IHk]; [done|].
    cbn [bytesBE]. rewrite Z.div_0_l, IHk by lia.
    change (0 mod 256) with 0. by rewrite <-replicate_S_end.
  - rewrite <-plus_n_Sm. cbn [bytesBE]. rewrite IH, app_assoc; [done|].
    rewrite Nat2Z.inj_succ, Z.pow_succ_r in Hv by lia.
    split; [apply Z.div_pos; lia|apply Z.div_lt_upper_bound; lia].
Qed.

Lemma nibbles_bytesBE n v : nibbles (bytesBE n v) = digitsOf (2 * n) v.
Proof.
  revert v. induction n as [|n IH]; intros v; [done|].
  replace (2 * S n)%nat with (S (S (2 * n))) by lia.
  cbn [bytesBE digitsOf]. unfold nibbles in *.
  rewrite bind_app, IH. cbn [mbind list_bind app]. rewrite <-app_assoc.
  rewrite Z.div_div by lia. change (16 * 16) with 256.
  replace ((v mod 256) / 16) with ((v / 16) mod 16) by (Z.div_mod_to_equations; lia).
  replace ((v mod 256) mod 16) with (v mod 16) by (Z.div_mod_to_equations; lia).
  done.
Qed.

(** ** [BigInt] of a hex string *)

Lemma digitsValue_hex acc ds :
  Forall (λ d, 0 ≤ d < 16) ds →
  digitsValue 16 acc (hexChar <$> ds) = Some (foldl (λ a d, a * 16 + d) acc ds).
Proof.
  intros Hds. revert acc. induction Hds as [|d ds Hd _ IH]; intros acc; [done|].
  cbn [fmap list_fmap digitsValue foldl]. rewrite digitOf_hexChar by done.
  cbn [mbind option_bind]. apply IH.
Qed.

Lemma foldl_nibbles acc bs :
  foldl (λ a d, a * 16 + d) acc (nibbles bs) = foldl (λ a b, a * 256 + b) acc bs.
Proof.
  revert acc. induction bs as [|b bs IH]; intros acc; [done|].
  unfold nibbles in *. rewrite bind_cons. cbn [app foldl]. rewrite IH. f_equal.
  pose proof (Z.div_mod b 16). lia.
Qed.

Lemma nibbles_range bs : Forall isByte bs → Forall (λ d, 0 ≤ d < 16) (nibbles bs).
Proof.
  induction 1 as [|b bs Hb _ IH]; [constructor|].
  unfold nibbles in *. rewrite bind_cons.
  destruct (nibble_range b Hb). cbn [app]. by repeat (constructor; [done|]).
Qed.

Lemma trimStart_id c s : isStrWhiteSpaceChar c = false → trimStart (c :: s) = c :: s.
Proof. intros H. simpl. by rewrite H. Qed.

Lemma trim_hex ds :
  Forall (λ d, 0 ≤ d < 16) ds → ds ≠ [] →
  trim (js "0x" ++ (hexChar <$> ds)) = js "0x" ++ (hexChar <$> ds).
Proof.
  intros Hds Hne. unfold trim.
  change (js "0x" ++ ?s) with (48 :: 120 :: s).
  rewrite trimStart_id by done.
  destruct ds as [|d ds _] using rev_ind; [done|].
  apply Forall_app in Hds as [_ Hd%Forall_inv].
  rewrite fmap_app. cbn [fmap list_fmap].
  rewrite !reverse_cons, reverse_app. cbn [reverse rev_append app].
  change (rev_append [hexChar d] []) with [hexChar d]. cbn [app].
  rewrite trimStart_id by by apply hexChar_not_space.
  rewrite reverse_cons, !reverse_app, reverse_involutive.
  by rewrite <-!app_assoc.
Qed.

Lemma BigInt_hexlify bs :
  Forall isByte bs → bs ≠ [] → BigInt (hexlify bs) = Return (beValue bs).
Proof.
  intros Hbs Hne. rewrite hexlify_nibbles by done.
  pose proof (nibbles_range bs Hbs) as Hds.
  assert (Hds_ne : nibbles bs ≠ []) by by destruct bs.
  unfold BigInt, StringToBigInt. rewrite trim_hex by done.
  change (js "0x" ++ ?s) with (48 :: 120 :: s). cbn [Z.eqb Pos.eqb orb].
  unfold parseDigits. destruct (hexChar <$> nibbles bs) eqn:E.
  - by apply fmap_nil_inv in E.
  - rewrite <-E, digitsValue_hex, foldl_nibbles by done. done.
Qed.

(** ** [toBeHex] *)

Lemma length_digitsOf w v : length (digitsOf w v) = w.
Proof.
  revert v. induction w as [|w IH]; intros v; [done|].
  cbn [digitsOf]. rewrite length_app, IH. simpl. lia.
Qed.

Lemma digitsOf_range w v : Forall (λ d, 0 ≤ d < 16) (digitsOf w v).
Proof.
  revert v. induction w as [|w IH]; intros v; [constructor|].
  cbn [digitsOf]. apply Forall_app. split; [apply IH|].
  apply Forall_singleton. apply Z.mod_pos_bound. lia.
Qed.

Lemma digitsOf_S_small w v :
  0 ≤ v < 16 ^ Z.of_nat w → digitsOf (S w) v = 0 :: digitsOf w v.
Proof.
  revert v. induction w as [|w IH]; intros v Hv.
  - assert (v = 0) as -> by (simpl in Hv; lia). done.
  - change (digitsOf (S (S w)) v) with (digitsOf (S w) (v / 16) ++ [v mod 16]).
    rewrite IH; [done|].
    rewrite Nat2Z.inj_succ, Z.pow_succ_r in Hv by lia.
    split; [apply Z.div_pos; lia|apply Z.div_lt_upper_bound; lia].
Qed.

Lemma hexWidth_bound v : 0 ≤ v → v < 16 ^ Z.of_nat (hexWidth v).
Proof.
  intros Hv. unfold hexWidth. destruct (Z.eqb_spec v 0) as [->|Hne]; [done|].
  assert (0 ≤ Z.log2 v / 4) by (apply Z.div_pos; [apply Z.log2_nonneg|lia]).
  rewrite Nat2Z.inj_succ, Z2Nat.id by done.
  change 16 with (2 ^ 4). rewrite <-Z.pow_mul_r by lia.
  apply Z.log2_lt_pow2; [lia|].
  pose proof (Z.div_mod (Z.log2 v) 4). pose proof (Z.mod_pos_bound (Z.log2 v) 4). lia.
Qed.

Lemma hexWidth_min v : 0 < v → 16 ^ (Z.of_nat (hexWidth v) - 1) ≤ v.
Proof.
  intros Hv. unfold hexWidth. destruct (Z.eqb_spec v 0) as [->|Hne]; [lia|].
  assert (0 ≤ Z.log2 v / 4) by (apply Z.div_pos; [apply Z.log2_nonneg|lia]).
  rewrite Nat2Z.inj_succ, Z2Nat.id by done.
  replace (Z.succ (Z.log2 v / 4) - 1) with (Z.log2 v / 4) by lia.
  change 16 with (2 ^ 4). rewrite <-Z.pow_mul_r by lia.
  apply Z.log2_le_pow2; [lia|].
  pose proof (Z.div_mod (Z.log2 v) 4). pose proof (Z.mod_pos_bound (Z.log2 v) 4). lia.
Qed.

Lemma toBeHex_None v :
  0 ≤ v → toBeHex v None = Return (hexlify (bytesBE (byteWidth v) v)).
Proof.
  intros Hv. unfold toBeHex. destruct (Z.ltb_spec v 0); [lia|].
  rewrite hexlify_nibbles, nibbles_bytesBE by apply bytesBE_bytes.
  do 2 f_equal. unfold toString16. rewrite length_fmap, length_digitsOf.
  unfold byteWidth.
  destruct (Nat.odd (hexWidth v)) eqn:Hodd.
  - apply Nat.odd_spec in Hodd as [k Hk]. rewrite Hk.
    replace (S (2 * k + 1)) with (2 * S k)%nat by lia.
    rewrite Nat.div2_double.
    replace (2 * S k)%nat with (S (2 * k + 1)) by lia.
    rewrite digitsOf_S_small; [done|]. rewrite <-Hk. split; [done|].
    by apply hexWidth_bound.
  - assert (Nat.even (hexWidth v) = true) as [k Hk]%Nat.even_spec
      by (rewrite <-Nat.negb_odd, Hodd; done).
    rewrite Hk. by rewrite Nat.div2_succ_double.
Qed.

Lemma byteWidth_bound v : 0 ≤ v → v < 256 ^ Z.of_nat (byteWidth v).
Proof.
  intros Hv. pose proof (hexWidth_bound v Hv) as Hb.
  eapply Z.lt_le_trans; [exact Hb|].
  change 256 with (16 ^ 2). rewrite <-Z.pow_mul_r by lia.
  apply Z.pow_le_mono_r; [lia|]. unfold byteWidth.
  destruct (Nat.Even_or_Odd (hexWidth v)) as [[k Hk]|[k Hk]]; rewrite Hk.
  - rewrite Nat.div2_succ_double. lia.
  - replace (S (2 * k + 1)) with (2 * S k)%nat by lia. rewrite Nat.div2_double. lia.
Qed.

Lemma byteWidth_le n v : 0 ≤ v < 256 ^ Z.of_nat n → (0 < n)%nat → (byteWidth v ≤ n)%nat.
Proof.
  intros Hv Hn. unfold byteWidth.
  destruct (Z.eq_dec v 0) as [->|Hne]; [simpl; lia|].
  pose proof (hexWidth_min v ltac:(lia)) as Hmin.
  assert (Hlt : 16 ^ (Z.of_nat (hexWidth v) - 1) < 16 ^ (2 * Z.of_nat n)).
  { eapply Z.le_lt_trans; [exact Hmin|].
    rewrite Z.pow_mul_r by lia. change (16 ^ 2) with 256. lia. }
  apply Z.pow_lt_mono_r_iff in Hlt; [|lia..].
  destruct (Nat.Even_or_Odd (hexWidth v)) as [[k Hk]|[k Hk]]; rewrite Hk in *.
  - rewrite Nat.div2_succ_double. lia.
  - replace (S (2 * k + 1)) with (2 * S k)%nat by lia. rewrite Nat.div2_double. lia.
Qed.

Lemma byteWidth_gt n v : 256 ^ Z.of_nat n ≤ v → (n < byteWidth v)%nat.
Proof.
  intros Hv.
  assert (0 < 256 ^ Z.of_nat n) by (apply Z.pow_pos_nonneg; lia).
  pose proof (byteWidth_bound v ltac:(lia)) as Hb.
  assert (Hlt : 256 ^ Z.of_nat n < 256 ^ Z.of_nat (byteWidth v)) by lia.
  apply Z.pow_lt_mono_r_iff in Hlt; lia.
Qed.

(** ** From a cipher value back to its 32 bytes *)

Lemma cipherBytes_in_range v :
  0 ≤ v < 2 ^ 256 → cipherBytes v = Return (bytesBE KEY_BYTES v).
Proof.
  intros Hv. unfold cipherBytes. rewrite toBeHex_None by lia.
  cbn [mbind Js_bind]. unfold zeroPadValue.
  rewrite getBytes_hexlify by apply bytesBE_bytes. cbn [mbind Js_bind].
  rewrite length_bytesBE.
  assert (Hw : (byteWidth v ≤ KEY_BYTES)%nat) by (apply byteWidth_le; [done|unfold KEY_BYTES; lia]).
  destruct (Nat.ltb_spec KEY_BYTES (byteWidth v)); [lia|].
  rewrite <-bytesBE_pad by (split; [lia|by apply byteWidth_bound; lia]).
  replace (KEY_BYTES - byteWidth v + byteWidth v)%nat with KEY_BYTES by lia.
  apply getBytes_hexlify, bytesBE_bytes.
Qed.

Lemma cipherBytes_negative v : v < 0 → cipherBytes v = Throw NUMERIC_FAULT.
Proof.
  intros Hv. unfold cipherBytes, toBeHex. by destruct (Z.ltb_spec v 0); [|lia].
Qed.

Lemma cipherBytes_too_wide v : 2 ^ 256 ≤ v → cipherBytes v = Throw BUFFER_OVERRUN.
Proof.
  intros Hv. unfold cipherBytes.
  assert (0 ≤ v) by (assert (0 < 2 ^ 256) by done; lia).
  rewrite toBeHex_None by done.
  cbn [mbind Js_bind]. unfold zeroPadValue.
  rewrite getBytes_hexlify by apply bytesBE_bytes. cbn [mbind Js_bind].
  rewrite length_bytesBE.
  pose proof (byteWidth_gt KEY_BYTES v Hv).
  by destruct (Nat.ltb_spec KEY_BYTES (byteWidth v)); [|lia].
Qed.

(** ** Combining with the key *)

Lemma lxor_mod_256 a b : Z.lxor a b mod 256 = Z.lxor (a mod 256) (b mod 256).
Proof.
  change 256 with (2 ^ 8). rewrite <-!Z.land_ones by lia.
  apply Z.bits_inj'. intros i Hi.
  rewrite !Z.land_spec, !Z.lxor_spec, !Z.land_spec.
  by destruct (Z.testbit a i), (Z.testbit b i), (Z.testbit (Z.ones 8) i).
Qed.

Lemma lxor_byte a b : isByte a → isByte b → Z.lxor a b mod 256 = Z.lxor a b.
Proof.
  unfold isByte. intros Ha Hb. by rewrite lxor_mod_256, !Z.mod_small.
Qed.

Lemma lxor_twice a k : isByte a → isByte k → Z.lxor (Z.lxor a k mod 256) k mod 256 = a.
Proof.
  intros Ha Hk. rewrite (lxor_byte a k) by done.
  rewrite Z.lxor_assoc, Z.lxor_nilpotent, Z.lxor_0_r.
  by apply Z.mod_small.
Qed.

Lemma at_bytes a i : Forall isByte a → isByte (at_ a i).
Proof.
  intros Ha. unfold at_. destruct (a !! i) as [x|] eqn:E; cbn [default].
  - exact (Forall_lookup_1 _ _ _ _ Ha E).
  - unfold isByte. lia.
Qed.

Lemma length_mapXor p kb : length (mapXor p kb) = length p.
Proof. unfold mapXor. apply length_imap. Qed.

Lemma mapXor_bytes p kb : Forall isByte (mapXor p kb).
Proof.
  apply Forall_lookup. intros i x. unfold mapXor. rewrite list_lookup_imap.
  destruct (p !! i); simpl; [|done]. intros [= <-].
  unfold isByte. apply Z.mod_pos_bound. lia.
Qed.

Lemma mapXor_twice p kb :
  Forall isByte p → Forall isByte kb → mapXor (mapXor p kb) kb = p.
Proof.
  intros Hp Hkb. apply list_eq. intros i. unfold mapXor.
  rewrite !list_lookup_imap. destruct (p !! i) as [x|] eqn:E; simpl; [|done].
  f_equal. apply lxor_twice; [exact (Forall_lookup_1 _ _ _ _ Hp E)|by apply at_bytes].
Qed.

Lemma mapXor_snoc p x kb :
  mapXor (p ++ [x]) kb = mapXor p kb ++ [Z.lxor x (at_ kb (length p)) mod 256].
Proof. unfold mapXor. rewrite imap_app. simpl. by rewrite Nat.add_0_r. Qed.

Lemma xorKey_prefix p kb n :
  (n ≤ length p)%nat →
  foldl (λ payload i, store payload i (Z.lxor (at_ payload i) (at_ kb i))) p (seq 0 n)
  = mapXor (take n p) kb ++ drop n p.
Proof.
  induction n as [|n IH]; intros Hn; [done|].
  rewrite seq_S, foldl_app, IH by lia. cbn [foldl Nat.add].
  destruct (lookup_lt_is_Some_2 p n) as [x Hx]; [lia|].
  rewrite (take_S_r _ _ _ Hx), mapXor_snoc, (drop_S _ _ _ Hx).
  rewrite length_take, Nat.min_l by lia.
  assert (Hlen : length (mapXor (take n p) kb) = n)
    by (rewrite length_mapXor, length_take; lia).
  unfold store, at_ at 1.
  rewrite lookup_app_r, Hlen, Nat.sub_diag by lia. cbn [lookup list_lookup default].
  rewrite insert_app_r_alt, Hlen, Nat.sub_diag by lia. cbn [insert list_insert].
  by rewrite <-app_assoc.
Qed.

Lemma xorKey_mapXor p kb : length p = KEY_BYTES → xorKey p kb = mapXor p kb.
Proof.
  intros Hlen. unfold xorKey. rewrite xorKey_prefix by lia.
  by rewrite <-Hlen, firstn_all, drop_all, app_nil_r.
Qed.

(** ** The envelope *)

Lemma envelope_layout encoded :
  (length encoded ≤ MAX_MESSAGE_BYTES)%nat →
  envelope encoded
  = Return (Z.of_nat (length encoded) :: encoded
            ++ replicate (MAX_MESSAGE_BYTES - length encoded) 0).
Proof.
  change MAX_MESSAGE_BYTES with 31%nat. intros Hlen.
  unfold envelope. change (replicate KEY_BYTES 0) with (0 :: replicate 31 0).
  unfold store, Uint8Array_set. cbn [insert list_insert length].
  rewrite length_replicate.
  destruct (Nat.ltb_spec 32 (1 + length encoded)); [lia|].
  cbn [take drop Nat.add app]. rewrite drop_replicate.
  by rewrite Z.mod_small by lia.
Qed.

Lemma envelope_too_long encoded :
  (MAX_MESSAGE_BYTES < length encoded)%nat → envelope encoded = Throw RangeError.
Proof.
  change MAX_MESSAGE_BYTES with 31%nat. intros Hlen.
  unfold envelope. change (replicate KEY_BYTES 0) with (0 :: replicate 31 0).
  unfold store, Uint8Array_set. cbn [insert list_insert length].
  rewrite length_replicate.
  by destruct (Nat.ltb_spec 32 (1 + length encoded)); [|lia].
Qed.

(** ** Bit operations as arithmetic *)

Lemma land_shifted_low hi lo n :
  0 ≤ n → 0 ≤ lo < 2 ^ n → Z.land (hi * 2 ^ n) lo = 0.
Proof.
  intros Hn Hlo. apply Z.bits_inj'. intros i Hi.
  rewrite Z.land_spec, Z.bits_0.
  destruct (Z.lt_ge_cases i n).
  - by rewrite Z.mul_pow2_bits_low.
  - rewrite <-(Z.mod_small lo (2 ^ n)) by done.
    rewrite Z.mod_pow2_bits_high by lia. apply andb_false_r.
Qed.

Lemma lor_shifted_low hi lo n :
  0 ≤ n → 0 ≤ lo < 2 ^ n → Z.lor (hi * 2 ^ n) lo = hi * 2 ^ n + lo.
Proof.
  intros Hn Hlo. symmetry. apply Z.add_nocarry_lor. by apply land_shifted_low.
Qed.

Lemma continuation_byte x : Z.lor 0x80 (Z.land x 0x3F) = 0x80 + x mod 64.
Proof.
  change 0x3F with (Z.ones 6). rewrite Z.land_ones by lia.
  change 0x80 with (2 * 2 ^ 6). apply lor_shifted_low; [lia|].
  apply Z.mod_pos_bound. lia.
Qed.

Lemma continuation_bits c : 0 ≤ c < 64 → Z.land (0x80 + c) 0x3F = c.
Proof.
  intros Hc. change 0x3F with (Z.ones 6). rewrite Z.land_ones by lia.
  change (2 ^ 6) with 64. Z.div_mod_to_equations. lia.
Qed.

Lemma append_bits cp c : 0 ≤ c < 64 → Z.lor (Z.shiftl cp 6) c = cp * 64 + c.
Proof.
  intros Hc. rewrite Z.shiftl_mul_pow2 by lia. by apply lor_shifted_low.
Qed.

(** ** UTF-8: decoding what was encoded *)

Lemma utf8EncodeCodePoint_arith cp :
  utf8EncodeCodePoint cp =
  if cp <=? 0x7F then [cp]
  else if cp <=? 0x7FF then [cp / 64 + 0xC0; 0x80 + cp mod 64]
  else if cp <=? 0xFFFF then
    [cp / 4096 + 0xE0; 0x80 + (cp / 64) mod 64; 0x80 + cp mod 64]
  else
    [cp / 262144 + 0xF0; 0x80 + (cp / 4096) mod 64;
     0x80 + (cp / 64) mod 64; 0x80 + cp mod 64].
Proof.
  unfold utf8EncodeCodePoint. rewrite !continuation_byte.
  by rewrite !Z.shiftr_div_pow2 by lia.
Qed.

Lemma utf8Lead_ascii b : 0 ≤ b ≤ 0x7F → utf8Lead b = (utf8Initial, [b]).
Proof.
  intros Hb. unfold utf8Lead.
  destruct (Z.leb_spec 0 b); [|lia]. by destruct (Z.leb_spec b 0x7F); [|lia].
Qed.

Lemma utf8Lead_two a :
  2 ≤ a < 32 → utf8Lead (a + 0xC0) = (mkUtf8Decoder a 0 1 0x80 0xBF, []).
Proof. intros Ha. by_cases_on a 2 30%nat. Qed.

Lemma utf8Lead_three a :
  0 ≤ a < 16 →
  utf8Lead (a + 0xE0)
  = (mkUtf8Decoder a 0 2 (if a =? 0 then 0xA0 else 0x80)
                         (if a =? 13 then 0x9F else 0xBF), []).
Proof. intros Ha. by_cases_on a 0 16%nat. Qed.

Lemma utf8Lead_four a :
  0 ≤ a < 5 →
  utf8Lead (a + 0xF0)
  = (mkUtf8Decoder a 0 3 (if a =? 0 then 0x90 else 0x80)
                         (if a =? 4 then 0x8F else 0xBF), []).
Proof. intros Ha. by_cases_on a 0 5%nat. Qed.

Lemma utf8Handler_continuation cp seen needed lower upper c :
  needed ≠ 0 → 0 ≤ c < 64 → lower ≤ 0x80 + c ≤ upper →
  utf8Handler (mkUtf8Decoder cp seen needed lower upper) (0x80 + c)
  = if seen + 1 =? needed then (utf8Initial, [cp * 64 + c])
    else (mkUtf8Decoder (cp * 64 + c) (seen + 1) needed 0x80 0xBF, []).
Proof.
  intros Hneeded Hc Hrange. unfold utf8Handler. cbn [bytesNeeded bytesSeen
    lowerBoundary upperBoundary codePoint].
  destruct (Z.eqb_spec needed 0); [done|].
  destruct (Z.leb_spec lower (0x80 + c)); [|lia].
  destruct (Z.leb_spec (0x80 + c) upper); [|lia]. cbn [andb negb].
  by rewrite continuation_bits, append_bits.
Qed.

Lemma utf8_decode_encoded cp rest :
  isScalarValue cp →
  utf8DecodeFrom utf8Initial (utf8EncodeCodePoint cp ++ rest)
  = cp :: utf8DecodeFrom utf8Initial rest.
Proof.
  intros [Hrange Hsurr]. rewrite utf8EncodeCodePoint_arith.
  destruct (Z.leb_spec cp 0x7F).
  { cbn [app utf8DecodeFrom]. unfold utf8Handler at 1. cbn [bytesNeeded utf8Initial Z.eqb].
    by rewrite utf8Lead_ascii by lia. }
  destruct (Z.leb_spec cp 0x7FF).
  { cbn [app utf8DecodeFrom]. unfold utf8Handler at 1. cbn [bytesNeeded utf8Initial Z.eqb].
    rewrite utf8Lead_two by (Z.div_mod_to_equations; lia). cbn [app].
    rewrite utf8Handler_continuation; [|done|Z.div_mod_to_equations; lia..].
    change (0 + 1 =? 1) with true. cbn [app]. f_equal.
    Z.div_mod_to_equations. lia. }
  destruct (Z.leb_spec cp 0xFFFF).
  { cbn [app utf8DecodeFrom]. unfold utf8Handler at 1. cbn [bytesNeeded utf8Initial Z.eqb].
    rewrite utf8Lead_three by (Z.div_mod_to_equations; lia). cbn [app].
    rewrite utf8Handler_continuation; [|done|Z.div_mod_to_equations; lia|].
    2:{ destruct (Z.eqb_spec (cp / 4096) 0), (Z.eqb_spec (cp / 4096) 13);
          Z.div_mod_to_equations; lia. }
    change (0 + 1 =? 2) with false. cbn [app].
    rewrite utf8Handler_continuation; [|done|Z.div_mod_to_equations; lia..].
    change (0 + 1 + 1 =? 2) with true. cbn [app]. f_equal.
    Z.div_mod_to_equations. lia. }
  cbn [app utf8DecodeFrom]. unfold utf8Handler at 1. cbn [bytesNeeded utf8Initial Z.eqb].
  rewrite utf8Lead_four by (Z.div_mod_to_equations; lia). cbn [app].
  rewrite utf8Handler_continuation; [|done|Z.div_mod_to_equations; lia|].
  2:{ destruct (Z.eqb_spec (cp / 262144) 0), (Z.eqb_spec (cp / 262144) 4);
        Z.div_mod_to_equations; lia. }
  change (0 + 1 =? 3) with false. cbn [app].
  rewrite utf8Handler_continuation; [|done|Z.div_mod_to_equations; lia..].
  change (0 + 1 + 1 =? 3) with false. cbn [app].
  rewrite utf8Handler_continuation; [|done|Z.div_mod_to_equations; lia..].
  change (0 + 1 + 1 + 1 =? 3) with true. cbn [app]. f_equal.
  Z.div_mod_to_equations. lia.
Qed.

Lemma utf8DecodeFrom_encoded cps :
  Forall isScalarValue cps →
  utf8DecodeFrom utf8Initial (cps ≫= utf8EncodeCodePoint) = cps.
Proof.
  induction 1 as [|cp cps Hcp _ IH]; [done|].
  by rewrite bind_cons, utf8_decode_encoded, IH.
Qed.

Lemma utf8EncodeCodePoint_bytes cp :
  isScalarValue cp → Forall isByte (utf8EncodeCodePoint cp).
Proof.
  intros [Hrange _]. rewrite utf8EncodeCodePoint_arith. unfold isByte.
  repeat match goal with
         | |- context [if ?c <=? ?d then _ else _] => destruct (Z.leb_spec c d)
         end;
    repeat (constructor; [Z.div_mod_to_equations; lia|]); constructor.
Qed.

Lemma TextEncoder_encode_bytes_of_scalars cps :
  Forall isScalarValue cps → Forall isByte (cps ≫= utf8EncodeCodePoint).
Proof.
  induction 1 as [|cp cps Hcp _ IH]; [constructor|].
  rewrite bind_cons. apply Forall_app. split; [by apply utf8EncodeCodePoint_bytes|done].
Qed.

(** ** UTF-16: strings and scalar values *)

Lemma isLeadSurrogate_true u : isLeadSurrogate u = true ↔ 0xD800 ≤ u ≤ 0xDBFF.
Proof. unfold isLeadSurrogate. rewrite andb_true_iff, !Z.leb_le. done. Qed.

Lemma isTrailSurrogate_true u : isTrailSurrogate u = true ↔ 0xDC00 ≤ u ≤ 0xDFFF.
Proof. unfold isTrailSurrogate. rewrite andb_true_iff, !Z.leb_le. done. Qed.

Lemma isLeadSurrogate_false u : isLeadSurrogate u = false ↔ ¬ (0xD800 ≤ u ≤ 0xDBFF).
Proof. rewrite <-isLeadSurrogate_true. by destruct (isLeadSurrogate u). Qed.

Lemma isTrailSurrogate_false u : isTrailSurrogate u = false ↔ ¬ (0xDC00 ≤ u ≤ 0xDFFF).
Proof. rewrite <-isTrailSurrogate_true. by destruct (isTrailSurrogate u). Qed.

Lemma toScalarValues_scalars s :
  Forall isCodeUnit s → Forall isScalarValue (toScalarValues s).
Proof.
  induction s as [s IH] using (induction_ltof1 _ length). unfold ltof in IH.
  assert (Hrepl : isScalarValue 0xFFFD) by (unfold isScalarValue; lia).
  destruct s as [|c rest]; [constructor|]. intros [Hc Hrest]%Forall_cons.
  unfold isCodeUnit in Hc. cbn [toScalarValues].
  destruct (isLeadSurrogate c) eqn:Hlead.
  - apply isLeadSurrogate_true in Hlead.
    destruct rest as [|d rest']; [by constructor|].
    apply Forall_cons in Hrest as [Hd Hrest']. unfold isCodeUnit in Hd.
    destruct (isTrailSurrogate d) eqn:Htrail.
    + apply isTrailSurrogate_true in Htrail. constructor.
      * unfold isScalarValue. lia.
      * apply IH; [simpl; lia|done].
    + constructor; [done|]. apply IH; [simpl; lia|by constructor].
  - apply isLeadSurrogate_false in Hlead.
    destruct (isTrailSurrogate c) eqn:Htrail.
    + constructor; [done|]. apply IH; [simpl; lia|done].
    + apply isTrailSurrogate_false in Htrail. constructor.
      * unfold isScalarValue. lia.
      * apply IH; [simpl; lia|done].
Qed.

Lemma TextEncoder_encode_bytes s :
  Forall isCodeUnit s → Forall isByte (TextEncoder_encode s).
Proof.
  intros Hs. by apply TextEncoder_encode_bytes_of_scalars, toScalarValues_scalars.
Qed.

Lemma utf16_pair c d :
  0xD800 ≤ c ≤ 0xDBFF → 0xDC00 ≤ d ≤ 0xDFFF →
  utf16EncodeCodePoint (0x10000 + (c - 0xD800) * 0x400 + (d - 0xDC00)) = [c; d].
Proof.
  intros Hc Hd. unfold utf16EncodeCodePoint.
  destruct (Z.leb_spec (0x10000 + (c - 0xD800) * 0x400 + (d - 0xDC00)) 0xFFFF); [lia|].
  rewrite Z.shiftr_div_pow2 by lia. change 0x3FF with (Z.ones 10).
  rewrite Z.land_ones by lia. change (2 ^ 10) with 1024.
  f_equal; [|f_equal]; Z.div_mod_to_equations; lia.
Qed.

Lemma utf16_of_toScalarValues s :
  isWellFormed s = true → Forall isCodeUnit s →
  toScalarValues s ≫= utf16EncodeCodePoint = s.
Proof.
  induction s as [s IH] using (induction_ltof1 _ length). unfold ltof in IH.
  destruct s as [|c rest]; [done|]. intros Hwf [Hc Hrest]%Forall_cons.
  unfold isCodeUnit in Hc. cbn [toScalarValues isWellFormed] in *.
  destruct (isLeadSurrogate c) eqn:Hlead.
  - apply isLeadSurrogate_true in Hlead.
    destruct rest as [|d rest']; [done|].
    apply Forall_cons in Hrest as [Hd Hrest'].
    apply andb_true_iff in Hwf as [Htrail Hwf]. rewrite Htrail.
    apply isTrailSurrogate_true in Htrail.
    rewrite bind_cons, utf16_pair, IH by (done || simpl; lia). done.
  - apply andb_true_iff in Hwf as [Htrail%negb_true_iff Hwf]. rewrite Htrail.
    rewrite bind_cons, IH by (done || simpl; lia).
    unfold utf16EncodeCodePoint. by destruct (Z.leb_spec c 0xFFFF); [|lia].
Qed.

Lemma toScalarValues_head c rest :
  Forall isCodeUnit (c :: rest) → c ≠ 0xFEFF →
  ∃ cp cps, toScalarValues (c :: rest) = cp :: cps ∧ cp ≠ 0xFEFF.
Proof.
  intros [Hc Hrest]%Forall_cons Hbom. unfold isCodeUnit in Hc.
  cbn [toScalarValues].
  destruct (isLeadSurrogate c) eqn:Hlead.
  - apply isLeadSurrogate_true in Hlead.
    destruct rest as [|d rest']; [by eexists _, _|].
    destruct (isTrailSurrogate d) eqn:Htrail; [|by eexists _, _].
    apply isTrailSurrogate_true in Htrail. eexists _, _. split; [done|]. lia.
  - destruct (isTrailSurrogate c); by eexists _, _.
Qed.

(** Decoding what was encoded gives the string back, provided the string
    is well formed and does not start with U+FEFF. *)
Lemma TextDecoder_decode_encoded s :
  Forall isCodeUnit s → isWellFormed s = true → head s ≠ Some 0xFEFF →
  TextDecoder_decode (TextEncoder_encode s) = s.
Proof.
  intros Hs Hwf Hbom. unfold TextDecoder_decode, TextEncoder_encode.
  rewrite utf8DecodeFrom_encoded by by apply toScalarValues_scalars.
  destruct s as [|c rest]; [done|].
  destruct (toScalarValues_head c rest Hs) as (cp & cps & Heq & Hne);
    [by intros ->|].
  rewrite <-(utf16_of_toScalarValues (c :: rest)) at 2 by done.
  rewrite Heq. by destruct (Z.eqb_spec cp 0xFEFF).
Qed.

(** ** UTF-8: decoding any bytes gives a string *)

Ltac bool_to_prop H :=
  repeat rewrite ?andb_true_iff, ?orb_true_iff, ?negb_true_iff, ?implb_true_iff,
    ?andb_false_iff, ?Z.leb_le, ?Z.ltb_lt, ?Z.eqb_eq, ?Z.leb_gt, ?Z.ltb_ge in H.

Ltac bool_to_prop_goal :=
  repeat rewrite ?andb_true_iff, ?orb_true_iff, ?negb_true_iff, ?implb_true_iff,
    ?andb_false_iff, ?Z.leb_le, ?Z.ltb_lt, ?Z.eqb_eq, ?Z.leb_gt, ?Z.ltb_ge.

Lemma isScalarValueb_true cp : isScalarValueb cp = true → isScalarValue cp.
Proof.
  unfold isScalarValueb, isScalarValue. intros H. bool_to_prop H. lia.
Qed.

Lemma utf8Lead_ok b :
  isByte b →
  decoderOk (utf8Lead b).1 = true ∧ Forall isScalarValue (utf8Lead b).2.
Proof.
  intros Hb.
  assert (Hall : forallb (λ b, decoderOk (utf8Lead b).1
                               && forallb isScalarValueb (utf8Lead b).2)
                         (seqZ 0 256) = true) by (vm_compute; reflexivity).
  rewrite forallb_forall in Hall. specialize (Hall b).
  rewrite <-list_elem_of_In, elem_of_seqZ, andb_true_iff, forallb_forall in Hall.
  destruct Hall as [Hok Hout]; [unfold isByte in Hb; lia|]. split; [done|].
  apply Forall_forall. intros cp Hcp. apply isScalarValueb_true, Hout.
  by apply list_elem_of_In.
Qed.

Lemma utf8Handler_ok d b :
  decoderOk d = true → isByte b →
  decoderOk (utf8Handler d b).1 = true ∧ Forall isScalarValue (utf8Handler d b).2.
Proof.
  intros Hd Hb. pose proof (utf8Lead_ok b Hb) as [Hlead Hout].
  assert (Hrepl : isScalarValue 0xFFFD) by (unfold isScalarValue; lia).
  unfold utf8Handler. destruct (Z.eqb_spec (bytesNeeded d) 0) as [|Hneeded]; [done|].
  destruct (Z.leb_spec (lowerBoundary d) b) as [Hlo|]; cbn [andb negb];
    [|destruct (utf8Lead b); split; [done|by constructor]].
  destruct (Z.leb_spec b (upperBoundary d)) as [Hhi|]; cbn [negb];
    [|destruct (utf8Lead b); split; [done|by constructor]].
  clear Hlead Hout.
  destruct d as [cp seen needed lower upper].
  unfold decoderOk in Hd. cbn [codePoint bytesSeen bytesNeeded lowerBoundary upperBoundary] in *.
  apply andb_true_iff in Hd as [Hd Hcase]. bool_to_prop Hd.
  replace b with (0x80 + (b - 0x80)) by lia.
  rewrite continuation_bits, append_bits by lia.
  remember (b - 0x80) as c eqn:Hceq. assert (Hc : 0 ≤ c < 64) by lia.
  destruct (Z.eqb_spec needed 0); [done|].
  destruct (Z.eqb_spec needed 1) as [->|];
    [|destruct (Z.eqb_spec needed 2) as [->|];
      [|destruct (Z.eqb_spec needed 3) as [->|]; [|done]]];
    bool_to_prop Hcase.
  - destruct Hcase as [-> Hcp]. change (0 + 1 =? 1) with true. cbv iota.
    split; [done|]. constructor; [|constructor]. unfold isScalarValue. lia.
  - destruct Hcase as [[[-> Hcp] Himp]|[[-> Hcp] Hsurr]].
    + change (0 + 1 =? 2) with false. cbv iota. split; [|constructor].
      unfold decoderOk. cbn [fst codePoint bytesSeen bytesNeeded lowerBoundary upperBoundary].
      change (2 =? 0) with false. change (2 =? 1) with false. change (2 =? 2) with true.
      cbv iota. bool_to_prop_goal. lia.
    + change (1 + 1 =? 2) with true. cbv iota. split; [done|].
      constructor; [|constructor]. unfold isScalarValue. lia.
  - destruct Hcase as [[[[[-> Hcp] Himp0] Himp]|[[-> Hcp0] Hcp]]|[[-> Hcp0] Hcp]].
    + change (0 + 1 =? 3) with false. cbv iota. split; [|constructor].
      unfold decoderOk. cbn [fst codePoint bytesSeen bytesNeeded lowerBoundary upperBoundary].
      change (3 =? 0) with false. change (3 =? 1) with false. change (3 =? 2) with false.
      change (3 =? 3) with true. cbv iota. bool_to_prop_goal. lia.
    + change (1 + 1 =? 3) with false. cbv iota. split; [|constructor].
      unfold decoderOk. cbn [fst codePoint bytesSeen bytesNeeded lowerBoundary upperBoundary].
      change (3 =? 0) with false. change (3 =? 1) with false. change (3 =? 2) with false.
      change (3 =? 3) with true. cbv iota. bool_to_prop_goal. lia.
    + change (2 + 1 =? 3) with true. cbv iota. split; [done|].
      constructor; [|constructor]. unfold isScalarValue. lia.
Qed.

Lemma utf8DecodeFrom_scalars d input :
  decoderOk d = true → Forall isByte input →
  Forall isScalarValue (utf8DecodeFrom d input).
Proof.
  intros Hd Hinput. revert d Hd.
  induction Hinput as [|b input Hb _ IH]; intros d Hd.
  - cbn [utf8DecodeFrom]. destruct (bytesNeeded d =? 0); [constructor|].
    constructor; [unfold isScalarValue; lia|constructor].
  - cbn [utf8DecodeFrom]. pose proof (utf8Handler_ok d b Hd Hb) as [Hd' Hout].
    destruct (utf8Handler d b) as [d' out]. apply Forall_app. split; [done|].
    by apply IH.
Qed.

Lemma utf16EncodeCodePoint_units cp :
  isScalarValue cp → Forall isCodeUnit (utf16EncodeCodePoint cp).
Proof.
  intros [Hrange _]. unfold utf16EncodeCodePoint, isCodeUnit.
  destruct (Z.leb_spec cp 0xFFFF).
  - constructor; [lia|constructor].
  - rewrite Z.shiftr_div_pow2 by lia. change 0x3FF with (Z.ones 10).
    rewrite Z.land_ones by lia. change (2 ^ 10) with 1024.
    repeat (constructor; [Z.div_mod_to_equations; lia|]). constructor.
Qed.

(** Whatever the bytes, decoding gives a string. *)
Lemma TextDecoder_decode_units input :
  Forall isByte input → Forall isCodeUnit (TextDecoder_decode input).
Proof.
  intros Hinput. unfold TextDecoder_decode.
  pose proof (utf8DecodeFrom_scalars utf8Initial input eq_refl Hinput) as Hs.
  assert (Hs' : Forall isScalarValue
                  match utf8DecodeFrom utf8Initial input with
                  | c :: rest => if c =? 0xFEFF then rest else utf8DecodeFrom utf8Initial input
                  | [] => []
                  end).
  { destruct Hs as [|c rest Hc Hrest]; [constructor|].
    destruct (c =? 0xFEFF); [done|by constructor]. }
  induction Hs' as [|cp cps Hcp _ IH]; [constructor|].
  rewrite bind_cons. apply Forall_app. split; [by apply utf16EncodeCodePoint_units|done].
Qed.

(** ** The codec, step by step *)

Section WithDigest.

Variable keccak256Digest : list Z → list Z.

Abbreviation deriveKeyBytes := (Messages.deriveKeyBytes keccak256Digest).
Abbreviation sealMessage := (Messages.sealMessage keccak256Digest).
Abbreviation openMessage := (Messages.openMessage keccak256Digest).
Abbreviation openedBlock := (Messages.openedBlock keccak256Digest).
Abbreviation keccak256 := (Messages.keccak256 keccak256Digest).

Lemma deriveKeyBytes_bytes k kb : deriveKeyBytes k = Return kb → Forall isByte kb.
Proof.
  unfold Messages.deriveKeyBytes.
  destruct (if startsWith0x k then _ else _) as [normalized|]; [|done].
  cbn [mbind Js_bind]. destruct (getBytes normalized); [|done].
  cbn [mbind Js_bind]. apply getBytes_bytes.
Qed.

Lemma getBytes_toBeHex v :
  0 ≤ v → toBeHex v None ≫= getBytes = Return (bytesBE (byteWidth v) v).
Proof.
  intros Hv. rewrite toBeHex_None by done. cbn [mbind Js_bind].
  apply getBytes_hexlify, bytesBE_bytes.
Qed.

Lemma deriveKeyBytes_keyMaterial k :
  deriveKeyBytes k = keyMaterial k ≫= λ bytes, getBytes (keccak256 bytes).
Proof.
  unfold Messages.deriveKeyBytes, keyMaterial.
  destruct (startsWith0x k); [done|].
  destruct (BigInt k) as [v|]; [|done]. cbn [mbind Js_bind].
  destruct (Z.ltb_spec v 0).
  - unfold toBeHex. by destruct (Z.ltb_spec v 0); [|lia].
  - pose proof (getBytes_toBeHex v ltac:(lia)) as Hb.
    destruct (toBeHex v None) as [h|]; [|done]. cbn [mbind Js_bind] in *.
    by rewrite Hb.
Qed.

Lemma openMessage_cipherBytes c k :
  openMessage c k =
  keyBytes ← deriveKeyBytes k;
  payload ← cipherBytes c;
  let plain := mapXor payload keyBytes in
  Return (TextDecoder_decode
            (Uint8Array_slice plain 1 (1 + Z.to_nat (at_ plain 0)))).
Proof.
  unfold Messages.openMessage, cipherBytes.
  destruct (deriveKeyBytes k) as [kb|]; [|done]. cbn [mbind Js_bind].
  destruct (toBeHex c None) as [hex|]; [|done]. cbn [mbind Js_bind].
  destruct (zeroPadValue hex KEY_BYTES) as [padded|]; [|done]. cbn [mbind Js_bind].
  by destruct (getBytes padded).
Qed.

Lemma length_block encoded :
  (length encoded ≤ MAX_MESSAGE_BYTES)%nat → length (block encoded) = KEY_BYTES.
Proof.
  unfold block, MAX_MESSAGE_BYTES, KEY_BYTES. intros H.
  cbn [length]. rewrite length_app, length_replicate. lia.
Qed.

Lemma block_bytes encoded :
  (length encoded ≤ MAX_MESSAGE_BYTES)%nat → Forall isByte encoded →
  Forall isByte (block encoded).
Proof.
  unfold block, MAX_MESSAGE_BYTES, KEY_BYTES. intros Hlen Henc.
  constructor; [unfold isByte; simpl in Hlen; lia|].
  apply Forall_app. split; [done|]. apply Forall_replicate. unfold isByte. lia.
Qed.

Lemma sealMessage_short m k kb :
  deriveKeyBytes k = Return kb →
  (length (TextEncoder_encode m) ≤ MAX_MESSAGE_BYTES)%nat →
  sealMessage m k = Return (beValue (mapXor (block (TextEncoder_encode m)) kb)).
Proof.
  intros Hk Hlen. unfold Messages.sealMessage. rewrite Hk. cbn [mbind Js_bind].
  destruct (Nat.ltb_spec MAX_MESSAGE_BYTES (length (TextEncoder_encode m))); [lia|].
  rewrite envelope_layout by done. cbn [mbind Js_bind]. fold (block (TextEncoder_encode m)).
  rewrite xorKey_mapXor by by apply length_block.
  apply BigInt_hexlify; [apply mapXor_bytes|].
  intros Hnil. apply (f_equal length) in Hnil.
  rewrite length_mapXor, length_block in Hnil by done. done.
Qed.

Lemma sealMessage_long m k kb :
  deriveKeyBytes k = Return kb →
  (MAX_MESSAGE_BYTES < length (TextEncoder_encode m))%nat →
  sealMessage m k = Throw (Error "Message too long. Limit 31 bytes").
Proof.
  intros Hk Hlen. unfold Messages.sealMessage. rewrite Hk. cbn [mbind Js_bind].
  by destruct (Nat.ltb_spec MAX_MESSAGE_BYTES (length (TextEncoder_encode m))); [|lia].
Qed.

Lemma mapXor_block_range p kb :
  length p = KEY_BYTES → 0 ≤ beValue (mapXor p kb) < 2 ^ 256.
Proof.
  intros Hlen. pose proof (beValue_bound (mapXor p kb) (mapXor_bytes p kb)) as Hb.
  rewrite length_mapXor, Hlen in Hb. exact Hb.
Qed.

Lemma openedBlock_in_range c k kb :
  deriveKeyBytes k = Return kb → 0 ≤ c < 2 ^ 256 →
  openedBlock c k = Return (mapXor (bytesBE KEY_BYTES c) kb).
Proof.
  intros Hk Hc. unfold Messages.openedBlock. rewrite Hk. cbn [mbind Js_bind].
  by rewrite cipherBytes_in_range.
Qed.

Lemma openMessage_in_range c k kb :
  deriveKeyBytes k = Return kb → 0 ≤ c < 2 ^ 256 →
  openMessage c k =
  let plain := mapXor (bytesBE KEY_BYTES c) kb in
  Return (TextDecoder_decode (Uint8Array_slice plain 1 (1 + Z.to_nat (at_ plain 0)))).
Proof.
  intros Hk Hc. rewrite openMessage_cipherBytes, Hk. cbn [mbind Js_bind].
  by rewrite cipherBytes_in_range.
Qed.

Lemma slice_block encoded :
  (length encoded ≤ MAX_MESSAGE_BYTES)%nat →
  Uint8Array_slice (block encoded) 1 (1 + Z.to_nat (at_ (block encoded) 0)) = encoded.
Proof.
  intros Hlen. pose proof (length_block encoded Hlen) as Hb.
  unfold Uint8Array_slice. rewrite Hb.
  change (at_ (block encoded) 0) with (Z.of_nat (length encoded)).
  unfold block. rewrite Nat2Z.id.
  unfold MAX_MESSAGE_BYTES, KEY_BYTES in *. simpl in Hlen.
  rewrite !Nat.min_l by lia. cbn [drop].
  replace (1 + length encoded - 1)%nat with (length encoded) by lia.
  by rewrite drop_0, take_app_length.
Qed.

(** Opening what was sealed decodes the bytes that were encoded. *)
Lemma openMessage_sealed m k kb :
  Forall isCodeUnit m →
  deriveKeyBytes k = Return kb →
  (length (TextEncoder_encode m) ≤ MAX_MESSAGE_BYTES)%nat →
  ∃ c, sealMessage m k = Return c ∧
       openedBlock c k = Return (block (TextEncoder_encode m)) ∧
       openMessage c k = Return (TextDecoder_decode (TextEncoder_encode m)).
Proof.
  intros Hm Hk Hlen. set (encoded := TextEncoder_encode m) in *.
  pose proof (length_block encoded Hlen) as Hblen.
  pose proof (block_bytes encoded Hlen (TextEncoder_encode_bytes m Hm)) as Hbb.
  pose proof (deriveKeyBytes_bytes k kb Hk) as Hkb.
  exists (beValue (mapXor (block encoded) kb)).
  pose proof (mapXor_block_range (block encoded) kb Hblen) as Hrange.
  assert (Hback : bytesBE KEY_BYTES (beValue (mapXor (block encoded) kb))
                  = mapXor (block encoded) kb).
  { rewrite <-Hblen, <-(length_mapXor (block encoded) kb).
    apply bytesBE_beValue, mapXor_bytes. }
  split; [by apply sealMessage_short|]. split.
  - rewrite (openedBlock_in_range _ k kb) by done.
    by rewrite Hback, mapXor_twice.
  - rewrite (openMessage_in_range _ k kb) by done. cbv zeta.
    by rewrite Hback, mapXor_twice, slice_block.
Qed.

(** ** C3: the round trip *)

(** C3 (amended).  For every well-formed string [m] (no surrogate outside
    a pair) that does not start with U+FEFF and whose UTF-8 encoding has
    at most 31 bytes, and for every key the derivation accepts,
    [sealMessage] returns a cipher value and [openMessage] of that value
    under the same key returns [m]. *)
Theorem openMessage_sealMessage_round_trip m k kb :
  Forall isCodeUnit m →
  isWellFormed m = true →
  head m ≠ Some 0xFEFF →
  (length (TextEncoder_encode m) ≤ 31)%nat →
  deriveKeyBytes k = Return kb →
  ∃ c, sealMessage m k = Return c ∧ openMessage c k = Return m.
Proof.
  intros Hm Hwf Hbom Hlen Hk.
  destruct (openMessage_sealed m k kb Hm Hk Hlen) as (c & Hseal & _ & Hopen).
  exists c. split; [done|].
  by rewrite Hopen, TextDecoder_decode_encoded.
Qed.

(** ** C7: the length bound and the layout *)

(** C7.  For every string [m] and every key the derivation accepts,
    [sealMessage] throws "Message too long" exactly when the UTF-8
    encoding of [m] has more than 31 bytes.  Otherwise it returns, and the
    32-byte block it combines with the key holds the encoding's length in
    byte 0, the encoding in the bytes after it, and zeros in the rest. *)
Theorem sealMessage_length_bound m k kb :
  deriveKeyBytes k = Return kb →
  let encoded := TextEncoder_encode m in
  (sealMessage m k = Throw (Error "Message too long. Limit 31 bytes")
   ↔ (31 < length encoded)%nat) ∧
  ((length encoded ≤ 31)%nat →
   ∃ payload,
     envelope encoded = Return payload ∧
     length payload = 32%nat ∧
     payload !! 0%nat = Some (Z.of_nat (length encoded)) ∧
     take (length encoded) (drop 1 payload) = encoded ∧
     drop (1 + length encoded) payload = replicate (31 - length encoded) 0 ∧
     sealMessage m k = Return (beValue (xorKey payload kb))).
Proof.
  intros Hk encoded. split.
  - split.
    + intros Hthrow. destruct (Nat.lt_ge_cases 31 (length encoded)) as [|Hle]; [done|].
      rewrite (sealMessage_short m k kb Hk Hle) in Hthrow. done.
    + by apply (sealMessage_long m k kb).
  - intros Hlen. exists (block encoded).
    pose proof (length_block encoded Hlen) as Hblen.
    split; [by apply envelope_layout|]. split; [done|]. split; [done|].
    unfold block. cbn [drop Nat.add]. rewrite drop_0, take_app_length, drop_app_length.
    split; [done|]. split; [done|]. fold (block encoded).
    rewrite xorKey_mapXor by done. by apply (sealMessage_short m k kb).
Qed.

(** ** C10: the range of a sealed message *)

(** C10.  For every string [m] whose UTF-8 encoding has at most 31 bytes
    and every key the derivation accepts, [sealMessage] returns the
    big-endian value of 32 bytes, an integer in [0, 2^256). *)
Theorem sealMessage_range m k kb :
  deriveKeyBytes k = Return kb →
  (length (TextEncoder_encode m) ≤ 31)%nat →
  ∃ c payload,
    sealMessage m k = Return c ∧
    length payload = 32%nat ∧ Forall isByte payload ∧
    c = beValue payload ∧
    0 ≤ c < 2 ^ 256.
Proof.
  intros Hk Hlen.
  pose proof (length_block _ Hlen) as Hblen.
  exists (beValue (mapXor (block (TextEncoder_encode m)) kb)),
         (mapXor (block (TextEncoder_encode m)) kb).
  split; [by apply sealMessage_short|].
  split; [by rewrite length_mapXor|].
  split; [apply mapXor_bytes|].
  split; [done|]. by apply mapXor_block_range.
Qed.

(** ** C4 and C9: what [openMessage] does with any cipher value *)

Lemma length_openedBlock c k kb plain :
  deriveKeyBytes k = Return kb → 0 ≤ c < 2 ^ 256 →
  openedBlock c k = Return plain → length plain = KEY_BYTES.
Proof.
  intros Hk Hc. rewrite (openedBlock_in_range c k kb Hk Hc). intros Heq.
  assert (plain = mapXor (bytesBE KEY_BYTES c) kb) as -> by congruence.
  rewrite length_mapXor. apply length_bytesBE.
Qed.

(** Every 32-byte block is what some cipher value opens to, whatever the
    digest: the block combined with the key, read as an integer. *)
Lemma openedBlock_any plain k kb :
  Forall isByte plain → length plain = KEY_BYTES →
  deriveKeyBytes k = Return kb →
  0 ≤ beValue (mapXor plain kb) < 2 ^ 256 ∧
  openedBlock (beValue (mapXor plain kb)) k = Return plain.
Proof.
  intros Hplain Hlen Hk.
  pose proof (mapXor_block_range plain kb Hlen) as Hrange.
  split; [exact Hrange|].
  rewrite (openedBlock_in_range _ k kb Hk Hrange).
  rewrite <-Hlen, <-(length_mapXor plain kb), bytesBE_beValue by apply mapXor_bytes.
  rewrite mapXor_twice; [done..|]. by eapply deriveKeyBytes_bytes.
Qed.

Lemma slice_from_1 plain (n : nat) :
  Uint8Array_slice plain 1 (1 + n) = take n (drop 1 plain).
Proof.
  unfold Uint8Array_slice. destruct plain as [|x plain]; [by destruct n|].
  replace (1 `min` length (x :: plain))%nat with 1%nat by (cbn [length]; lia).
  replace ((1 + n) `min` length (x :: plain) - 1)%nat with (n `min` length plain)%nat
    by (cbn [length]; lia).
  cbn [drop]. rewrite drop_0.
  destruct (Nat.le_gt_cases n (length plain)).
  - by rewrite Nat.min_l by lia.
  - rewrite Nat.min_r by lia. by rewrite firstn_all, take_ge by lia.
Qed.

(** C4 (amended).  For every key the derivation accepts, [openMessage]
    has no failure for a corrupt envelope: on a cipher value in
    [0, 2^256) it returns the decoding of the bytes after the length
    byte [L] (at most [L] of them), whatever [L] and those bytes are;
    it throws only on a negative cipher value (NUMERIC_FAULT) and on one
    of 2^256 or more (BUFFER_OVERRUN). *)
Theorem openMessage_outcomes c k kb :
  deriveKeyBytes k = Return kb →
  (c < 0 → openMessage c k = Throw NUMERIC_FAULT) ∧
  (2 ^ 256 ≤ c → openMessage c k = Throw BUFFER_OVERRUN) ∧
  (0 ≤ c < 2 ^ 256 →
   ∃ plain,
     openedBlock c k = Return plain ∧
     openMessage c k
     = Return (TextDecoder_decode (take (Z.to_nat (at_ plain 0)) (drop 1 plain)))).
Proof.
  intros Hk. repeat split.
  - intros Hc. rewrite openMessage_cipherBytes, Hk. cbn [mbind Js_bind].
    by rewrite cipherBytes_negative.
  - intros Hc. rewrite openMessage_cipherBytes, Hk. cbn [mbind Js_bind].
    by rewrite cipherBytes_too_wide.
  - intros Hc. eexists. split; [by apply openedBlock_in_range|].
    rewrite (openMessage_in_range c k kb) by done. cbv zeta.
    by rewrite slice_from_1.
Qed.

Lemma utf8Lead_invalid b :
  0x80 ≤ b ≤ 0xC1 ∨ 0xF5 ≤ b ≤ 0xFF → utf8Lead b = (utf8Initial, [0xFFFD]).
Proof.
  intros Hb. unfold utf8Lead.
  repeat match goal with
         | |- context [?x <=? ?y] => destruct (Z.leb_spec x y)
         end; cbn [andb]; done || lia.
Qed.

(** C9.  For every cipher value in [0, 2^256) and every key the
    derivation accepts, [openMessage] returns a string (a sequence of
    16-bit code units): the decoding of the bytes after the length byte
    [L], which are all 31 of them when [L] exceeds 31; and decoding does
    not fail on invalid UTF-8: a byte that can start no sequence decodes
    to U+FFFD and decoding goes on. *)
Theorem openMessage_total c k kb :
  0 ≤ c < 2 ^ 256 →
  deriveKeyBytes k = Return kb →
  (∃ plain s,
     openedBlock c k = Return plain ∧
     length plain = 32%nat ∧
     openMessage c k = Return s ∧
     Forall isCodeUnit s ∧
     s = TextDecoder_decode (Uint8Array_slice plain 1 (1 + Z.to_nat (at_ plain 0))) ∧
     (31 < at_ plain 0 →
      Uint8Array_slice plain 1 (1 + Z.to_nat (at_ plain 0)) = drop 1 plain ∧
      length (drop 1 plain) = 31%nat)) ∧
  (∀ b rest,
     0x80 ≤ b ≤ 0xC1 ∨ 0xF5 ≤ b ≤ 0xFF →
     utf8DecodeFrom utf8Initial (b :: rest)
     = 0xFFFD :: utf8DecodeFrom utf8Initial rest).
Proof.
  intros Hc Hk. split.
  - pose proof (openedBlock_in_range c k kb Hk Hc) as Hplain.
    pose proof (length_openedBlock c k kb _ Hk Hc Hplain) as Hlen.
    eexists _, _. split; [exact Hplain|]. split; [exact Hlen|].
    split; [by apply openMessage_in_range|].
    split.
    { apply TextDecoder_decode_units. rewrite slice_from_1.
      apply Forall_take, Forall_drop, mapXor_bytes. }
    split; [done|].
    intros HL. rewrite slice_from_1.
    assert (Hd : length (drop 1 (mapXor (bytesBE KEY_BYTES c) kb)) = 31%nat)
      by (rewrite length_drop, Hlen; unfold KEY_BYTES; lia).
    split; [|done]. apply take_ge. lia.
  - intros b rest Hb. cbn [utf8DecodeFrom]. unfold utf8Handler.
    cbn [bytesNeeded utf8Initial Z.eqb]. by rewrite utf8Lead_invalid.
Qed.

(** ** C8: what the key stream is the hash of *)

Lemma beValue_bytesBE_byteWidth v :
  0 ≤ v → beValue (bytesBE (byteWidth v) v) = v.
Proof.
  intros Hv. rewrite beValue_bytesBE. apply Z.mod_small.
  split; [done|]. by apply byteWidth_bound.
Qed.

Lemma head_bytesBE n v :
  head (bytesBE (S n) v) = Some ((v / 256 ^ Z.of_nat n) mod 256).
Proof.
  revert v. induction n as [|n IH]; intros v.
  - cbn [bytesBE app head]. by rewrite Z.div_1_r.
  - change (bytesBE (S (S n)) v) with (bytesBE (S n) (v / 256) ++ [v mod 256]).
    pose proof (length_bytesBE (S n) (v / 256)) as Hlen.
    destruct (bytesBE (S n) (v / 256)) as [|b bs] eqn:E; [done|].
    cbn [app head]. specialize (IH (v / 256)). rewrite E in IH. cbn [head] in IH.
    rewrite IH, Nat2Z.inj_succ, Z.pow_succ_r, Z.div_div by lia. done.
Qed.

Lemma byteWidth_min v : 0 < v → 256 ^ (Z.of_nat (byteWidth v) - 1) ≤ v.
Proof.
  intros Hv. pose proof (hexWidth_min v Hv) as Hmin.
  eapply Z.le_trans; [|exact Hmin].
  assert (0 < hexWidth v)%nat
    by (unfold hexWidth; destruct (Z.eqb_spec v 0); lia).
  change 256 with (16 ^ 2).
  assert ((0 < byteWidth v)%nat ∧ 2 * (Z.of_nat (byteWidth v) - 1) ≤ Z.of_nat (hexWidth v) - 1)
    as [Hpos Hle].
  { unfold byteWidth.
    destruct (Nat.Even_or_Odd (hexWidth v)) as [[j Hj]|[j Hj]]; rewrite Hj.
    - rewrite Nat.div2_succ_double. lia.
    - replace (S (2 * j + 1)) with (2 * S j)%nat by lia. rewrite Nat.div2_double. lia. }
  rewrite <-Z.pow_mul_r by lia. apply Z.pow_le_mono_r; lia.
Qed.

(** The bytes of a numeral key are the big-endian bytes of its value
    without a leading zero byte (the value 0 is the one byte 0). *)
Lemma bytesBE_byteWidth_minimal v :
  0 ≤ v →
  beValue (bytesBE (byteWidth v) v) = v ∧
  (0 < v → head (bytesBE (byteWidth v) v) ≠ Some 0) ∧
  (v = 0 → bytesBE (byteWidth v) v = [0]).
Proof.
  intros Hv. split; [by apply beValue_bytesBE_byteWidth|]. split.
  - intros Hpos. pose proof (byteWidth_min v Hpos) as Hmin.
    pose proof (byteWidth_bound v Hv) as Hmax.
    destruct (byteWidth v) as [|n] eqn:E; [simpl in Hmax; lia|].
    rewrite head_bytesBE. intros [= Hzero].
    replace (Z.of_nat (S n) - 1) with (Z.of_nat n) in Hmin by lia.
    rewrite Nat2Z.inj_succ, Z.pow_succ_r in Hmax by lia.
    assert (0 < 256 ^ Z.of_nat n) by (apply Z.pow_pos_nonneg; lia).
    assert (1 ≤ v / 256 ^ Z.of_nat n < 256).
    { split; [apply Z.div_le_lower_bound; lia|apply Z.div_lt_upper_bound; lia]. }
    rewrite Z.mod_small in Hzero by lia. lia.
  - by intros ->.
Qed.

Lemma same_keyBytes_same_codec k k' :
  deriveKeyBytes k' = deriveKeyBytes k →
  (∀ m, sealMessage m k' = sealMessage m k) ∧
  (∀ c, openMessage c k' = openMessage c k).
Proof.
  intros Heq. split; intros x.
  - unfold Messages.sealMessage. by rewrite Heq.
  - unfold Messages.openMessage. by rewrite Heq.
Qed.

(** Keys whose bytes have different digests have different key streams. *)
Lemma other_digest_other_keyBytes k k' bytes bytes' :
  Forall isByte (keccak256Digest bytes) →
  Forall isByte (keccak256Digest bytes') →
  keyMaterial k = Return bytes → keyMaterial k' = Return bytes' →
  keccak256Digest bytes ≠ keccak256Digest bytes' →
  deriveKeyBytes k ≠ deriveKeyBytes k'.
Proof.
  intros Hb Hb' Hk Hk' Hne. rewrite !deriveKeyBytes_keyMaterial, Hk, Hk'.
  cbn [mbind Js_bind]. unfold Messages.keccak256.
  rewrite !getBytes_hexlify by done. congruence.
Qed.

Section KeyDerivation.

(** The digest is 32 bytes. *)
Hypothesis keccak256Digest_bytes :
  ∀ data, length (keccak256Digest data) = 32%nat ∧ Forall isByte (keccak256Digest data).

(** C8 (amended).  The key stream is the 32-byte digest of the bytes the
    key string spells: for a key that starts with [0x], the bytes its hex
    digits write, two digits a byte, leading zero bytes kept; for any
    other key, the big-endian bytes of the non-negative integer [BigInt]
    reads from it, without leading zero bytes.  Two keys that spell the
    same bytes give the same key stream and the same seal and open
    results. *)
Theorem deriveKeyBytes_hashes_spelled_bytes :
  (∀ k bytes,
     startsWith0x k = true → getBytes k = Return bytes →
     deriveKeyBytes k = Return (keccak256Digest bytes)) ∧
  (∀ k v,
     startsWith0x k = false → BigInt k = Return v → 0 ≤ v →
     ∃ bytes,
       deriveKeyBytes k = Return (keccak256Digest bytes) ∧
       beValue bytes = v ∧
       (0 < v → head bytes ≠ Some 0) ∧
       (v = 0 → bytes = [0])) ∧
  (∀ k kb, deriveKeyBytes k = Return kb → length kb = 32%nat) ∧
  (∀ k k',
     keyMaterial k' = keyMaterial k →
     deriveKeyBytes k' = deriveKeyBytes k ∧
     (∀ m, sealMessage m k' = sealMessage m k) ∧
     (∀ c, openMessage c k' = openMessage c k)).
Proof using keccak256Digest_bytes.
  assert (Hhash : ∀ k bytes, keyMaterial k = Return bytes →
                             deriveKeyBytes k = Return (keccak256Digest bytes)).
  { intros k bytes Hk. rewrite deriveKeyBytes_keyMaterial, Hk. cbn [mbind Js_bind].
    apply getBytes_hexlify, keccak256Digest_bytes. }
  split; [|split; [|split]].
  - intros k bytes H0x Hbytes. apply Hhash. unfold keyMaterial. by rewrite H0x.
  - intros k v H0x Hv Hpos. exists (bytesBE (byteWidth v) v).
    split; [|by apply bytesBE_byteWidth_minimal].
    apply Hhash. unfold keyMaterial.
    rewrite H0x, Hv. cbn [mbind Js_bind]. by destruct (Z.ltb_spec v 0); [lia|].
  - intros k kb. rewrite deriveKeyBytes_keyMaterial.
    destruct (keyMaterial k) as [bytes|]; [|done]. cbn [mbind Js_bind].
    unfold Messages.keccak256. rewrite getBytes_hexlify by apply keccak256Digest_bytes.
    intros Heq. assert (kb = keccak256Digest bytes) as -> by congruence.
    apply keccak256Digest_bytes.
  - intros k k' Hsame.
    assert (Heq : deriveKeyBytes k' = deriveKeyBytes k)
      by (rewrite !deriveKeyBytes_keyMaterial; by rewrite Hsame).
    split; [done|]. by apply same_keyBytes_same_codec.
Qed.

Lemma digitsOf_pad n j v :
  0 ≤ v < 16 ^ Z.of_nat n → digitsOf (j + n) v = replicate j 0 ++ digitsOf n v.
Proof using Type.
  intros Hv. induction j as [|j IH]; [done|].
  cbn [Nat.add replicate app]. rewrite <-IH. apply digitsOf_S_small.
  destruct Hv as [Hv0 Hv1]. split; [done|]. eapply Z.lt_le_trans; [exact Hv1|].
  apply Z.pow_le_mono_r; lia.
Qed.

Lemma toBeHex_width w v :
  (0 < w)%nat → 0 ≤ v < 256 ^ Z.of_nat w →
  toBeHex v (Some w) = Return (hexlify (bytesBE w v)).
Proof using Type.
  intros Hw [Hv0 Hv1]. unfold toBeHex. destruct (Z.ltb_spec v 0); [lia|].
  unfold toString16. rewrite length_fmap, length_digitsOf.
  assert (Hle : (hexWidth v ≤ 2 * w)%nat).
  { destruct (Z.eq_dec v 0) as [->|Hne]; [change (hexWidth 0) with 1%nat; lia|].
    pose proof (hexWidth_min v ltac:(lia)) as Hmin.
    assert (Hlt : 16 ^ (Z.of_nat (hexWidth v) - 1) < 16 ^ (2 * Z.of_nat w)).
    { eapply Z.le_lt_trans; [exact Hmin|].
      rewrite Z.pow_mul_r by lia. change (16 ^ 2) with 256. lia. }
    apply Z.pow_lt_mono_r_iff in Hlt; lia. }
  destruct (Nat.ltb_spec (w * 2) (hexWidth v)); [lia|].
  rewrite hexlify_nibbles, nibbles_bytesBE by apply bytesBE_bytes.
  do 2 f_equal.
  replace (2 * w)%nat with ((w * 2 - hexWidth v) + hexWidth v)%nat at 1 by lia.
  rewrite digitsOf_pad by (split; [done|by apply hexWidth_bound]).
  by rewrite fmap_app, fmap_replicate.
Qed.

(** Every secret the contract can hold (an address, below 2^160) has a
    key string the derivation accepts: the 20-byte form that
    [normalizeGroupKey] writes, as the interface passes it. *)
Lemma normalizeGroupKey_accepted v :
  0 ≤ v < 2 ^ 160 →
  ∃ k, normalizeGroupKey (inr v) = Return k ∧
       startsWith0x k = true ∧
       keyMaterial k = Return (bytesBE 20 v) ∧
       deriveKeyBytes k = Return (keccak256Digest (bytesBE 20 v)).
Proof using keccak256Digest_bytes.
  intros Hv. exists (hexlify (bytesBE 20 v)).
  assert (Hmat : keyMaterial (hexlify (bytesBE 20 v)) = Return (bytesBE 20 v)).
  { unfold keyMaterial. change (startsWith0x (hexlify ?bs)) with true. cbv iota.
    apply getBytes_hexlify, bytesBE_bytes. }
  split; [cbn [normalizeGroupKey mbind Js_bind]; apply toBeHex_width; [lia|exact Hv]|].
  split; [done|]. split; [done|].
  rewrite deriveKeyBytes_keyMaterial, Hmat. cbn [mbind Js_bind].
  apply getBytes_hexlify, keccak256Digest_bytes.
Qed.

End KeyDerivation.

End WithDigest.

End CodecProperties.

(* ===================================================================== *)
(** * Part V: the properties on concrete inputs                          *)
(* ===================================================================== *)

Section Samples.

Import ZVerseGroups Messages.

(** ** The registry *)

(** C1 on the sample: Bob joins after Alice's message and can read the
    key and the message. *)
Lemma joinGroup_retroactive_grant_sample :
  isGroupMember historyState 0%N bob = Ok false ∧
  ∃ st',
    joinGroup historyState (mkEnv bob 102%N 9%N) 0%N = Ok st' ∧
    getGroupMembers st' 0%N = Ok [alice; bob] ∧
    canDecryptGroupKey st' 0%N bob = Ok true ∧
    canDecryptMessage st' 0%N 0%N bob = Ok true.
Proof.
  split; [reflexivity|].
  destruct (joinGroup_retroactive_grant historyState (mkEnv bob 102%N 9%N) 0%N eq_refl)
    as (st' & members0 & Hjoin & Hbefore & Hafter & _ & Hkey & _ & Hmessages).
  exists st'. split; [exact Hjoin|]. split.
  - rewrite Hafter. f_equal.
    change (Ok [alice] = Ok members0) in Hbefore. by injection Hbefore as <-.
  - split; [exact Hkey|]. apply (Hmessages 1%N 0%N); reflexivity.
Defined.

(** C2 on the sample: Bob sends a second message; Alice and Bob can read
    it. *)
Lemma sendMessage_forward_grant_sample :
  isGroupMember joinedState 0%N bob = Ok true ∧
  sampleFromExternal bob 99%N [1%N] = Some 198%N ∧
  ∃ st',
    sendMessage sampleThis sampleFromExternal joinedState (mkEnv bob 103%N 10%N) 0%N 99%N [1%N]
    = Ok st' ∧
    getMessage st' 0%N 1%N = Ok (bob, 198%N, 103%N) ∧
    canDecryptMessage st' 0%N 1%N alice = Ok true ∧
    canDecryptMessage st' 0%N 1%N bob = Ok true.
Proof.
  split; [reflexivity|]. split; [reflexivity|].
  destruct (sendMessage_forward_grant sampleThis samplePacked sampleAsEaddress
              sampleFromExternal joinedState
              (mkEnv bob 103%N 10%N) 0%N 99%N [1%N] 198%N eq_refl eq_refl)
    as (st' & count & members0 & Hsend & Hcount & _ & _ & Hmessage & Hmembers & _
        & Hall & _).
  change (Ok 1%N = Ok count) in Hcount. injection Hcount as <-.
  change (Ok [alice; bob] = Ok members0) in Hmembers. injection Hmembers as <-.
  exists st'. split; [exact Hsend|]. split; [exact Hmessage|].
  split; apply Hall; set_solver.
Defined.

(** C5 on the sample: Bob joins a second time. *)
Lemma joinGroup_already_member_sample :
  isGroupMember joinedState 0%N bob = Ok true ∧
  joinGroup joinedState (mkEnv bob 104%N 11%N) 0%N = Revert "Already a member" ∧
  sampleCommit joinedState (mkEnv bob 104%N 11%N) (JoinGroup 0%N) = joinedState.
Proof.
  split; [reflexivity|].
  destruct (joinGroup_already_member sampleThis samplePacked sampleAsEaddress
              sampleFromExternal joinedState (mkEnv bob 104%N 11%N) 0%N eq_refl)
    as (Hrevert & Hsame & _).
  split; [exact Hrevert|exact Hsame].
Defined.

Lemma joinedState_reachable :
  reachable sampleThis samplePacked sampleAsEaddress sampleFromExternal joinedState.
Proof. repeat apply reachable_commit. apply reachable_deployed. Qed.

(** C6 on the sample: the group after Bob has joined. *)
Lemma membership_invariant_sample :
  ∃ g,
    validGroup joinedState 0%N = Ok g ∧
    members g = [alice; bob] ∧
    members g ≠ [] ∧
    creator g ∈ members g ∧
    NoDup (members g) ∧
    ∀ a : address, isMemberOf g a = true ↔ a ∈ members g.
Proof.
  eexists. split; [reflexivity|]. split; [reflexivity|].
  exact (membership_invariant sampleThis samplePacked sampleAsEaddress
           sampleFromExternal joinedState 0%N _ joinedState_reachable eq_refl).
Defined.

(** ** The codec *)

Abbreviation sampleKey := (js "0x01").

Lemma sampleKey_bytes :
  Messages.deriveKeyBytes sampleDigest sampleKey = Return (sampleDigest [1]).
Proof. vm_compute. reflexivity. Qed.

Lemma Hello_code_units : Forall isCodeUnit (js "Hello").
Proof.
  change (Forall isCodeUnit [72; 101; 108; 108; 111]).
  repeat (constructor; [unfold isCodeUnit; lia|]). constructor.
Qed.

(** C3 on the sample: the message Hello is sealed and opened. *)
Lemma openMessage_sealMessage_round_trip_sample :
  ∃ c, Messages.sealMessage sampleDigest (js "Hello") sampleKey = Return c ∧
       Messages.openMessage sampleDigest c sampleKey = Return (js "Hello").
Proof.
  apply (openMessage_sealMessage_round_trip sampleDigest (js "Hello") sampleKey
           (sampleDigest [1])).
  - exact Hello_code_units.
  - reflexivity.
  - discriminate.
  - vm_compute. lia.
  - exact sampleKey_bytes.
Defined.

(** C3 as stated fails: a string that starts with U+FEFF comes back
    without it, and a surrogate outside a pair comes back as U+FFFD. *)
Lemma round_trip_fails_on_BOM :
  (length (TextEncoder_encode (0xFEFF%Z :: js "Hi")) ≤ 31)%nat ∧
  (Messages.sealMessage sampleDigest (0xFEFF :: js "Hi") sampleKey
     ≫= λ c, Messages.openMessage sampleDigest c sampleKey)
  = Return (js "Hi") ∧
  js "Hi" ≠ 0xFEFF :: js "Hi" ∧
  (length (TextEncoder_encode [0xD83D%Z]) ≤ 31)%nat ∧
  (Messages.sealMessage sampleDigest [0xD83D] sampleKey
     ≫= λ c, Messages.openMessage sampleDigest c sampleKey)
  = Return [0xFFFD].
Proof.
  split; [vm_compute; lia|]. split; [vm_compute; reflexivity|].
  split; [vm_compute; discriminate|].
  split; [vm_compute; lia|]. vm_compute. reflexivity.
Qed.

(** C7 on the sample: the block of the message Hello. *)
Lemma sealMessage_length_bound_sample :
  let encoded := TextEncoder_encode (js "Hello") in
  Messages.sealMessage sampleDigest (js "Hello") sampleKey
  ≠ Throw (Error "Message too long. Limit 31 bytes") ∧
  ∃ payload,
    envelope encoded = Return payload ∧
    payload !! 0%nat = Some 5 ∧
    take 5 (drop 1 payload) = encoded ∧
    Messages.sealMessage sampleDigest (js "Hello") sampleKey
    = Return (beValue (xorKey payload (sampleDigest [1]))).
Proof.
  intros encoded.
  destruct (sealMessage_length_bound sampleDigest (js "Hello") sampleKey
              (sampleDigest [1]) sampleKey_bytes) as [Hiff Hlayout].
  split.
  - intros Hthrow%Hiff. vm_compute in Hthrow. lia.
  - destruct Hlayout as (payload & Henv & _ & Hlen & Htake & _ & Hseal);
      [vm_compute; lia|].
    exists payload. by repeat split.
Defined.

(** C10 on the sample. *)
Lemma sealMessage_range_sample :
  ∃ c, Messages.sealMessage sampleDigest (js "Hello") sampleKey = Return c ∧
       0 ≤ c < 2 ^ 256.
Proof.
  destruct (sealMessage_range sampleDigest (js "Hello") sampleKey (sampleDigest [1])
              sampleKey_bytes) as (c & payload & Hseal & _ & _ & _ & Hrange);
    [vm_compute; lia|].
  exists c. split; [exact Hseal|exact Hrange].
Defined.

(** C4 as stated fails: a block with the length byte 253 and a block
    whose message byte is 0xFF (no UTF-8) are both opened to a string; no
    error is raised.  The errors [openMessage] does raise are those of a
    cipher value that is no 32-byte block. *)
Lemma openMessage_opens_corrupt_envelopes :
  (Messages.openedBlock sampleDigest (2 ^ 256 - 1) sampleKey ≫= λ plain, Return (at_ plain 0))
  = Return 253 ∧
  (∃ s, Messages.openMessage sampleDigest (2 ^ 256 - 1) sampleKey = Return s) ∧
  (Messages.openedBlock sampleDigest (0x03F6 * 2 ^ 240) sampleKey ≫= λ plain, Return (take 2 plain))
  = Return [1; 0xFF] ∧
  Messages.openMessage sampleDigest (0x03F6 * 2 ^ 240) sampleKey = Return [0xFFFD] ∧
  Messages.openMessage sampleDigest (2 ^ 256) sampleKey = Throw BUFFER_OVERRUN ∧
  Messages.openMessage sampleDigest (-1) sampleKey = Throw NUMERIC_FAULT.
Proof.
  split; [vm_compute; reflexivity|].
  split; [eexists; vm_compute; reflexivity|].
  split; [vm_compute; reflexivity|].
  split; [vm_compute; reflexivity|].
  split; vm_compute; reflexivity.
Qed.

(** C4 on the sample: the three outcomes of [openMessage]. *)
Lemma openMessage_outcomes_sample :
  Messages.openMessage sampleDigest (-1) sampleKey = Throw NUMERIC_FAULT ∧
  Messages.openMessage sampleDigest (2 ^ 256) sampleKey = Throw BUFFER_OVERRUN ∧
  ∃ plain,
    Messages.openedBlock sampleDigest (2 ^ 256 - 1) sampleKey = Return plain ∧
    Messages.openMessage sampleDigest (2 ^ 256 - 1) sampleKey
    = Return (TextDecoder_decode (take (Z.to_nat (at_ plain 0)) (drop 1 plain))).
Proof.
  pose proof (openMessage_outcomes sampleDigest (-1) sampleKey (sampleDigest [1])
                sampleKey_bytes) as (Hneg & _ & _).
  pose proof (openMessage_outcomes sampleDigest (2 ^ 256) sampleKey (sampleDigest [1])
                sampleKey_bytes) as (_ & Hwide & _).
  pose proof (openMessage_outcomes sampleDigest (2 ^ 256 - 1) sampleKey (sampleDigest [1])
                sampleKey_bytes) as (_ & _ & Hin).
  split; [apply Hneg; lia|]. split; [apply Hwide; lia|]. apply Hin. lia.
Defined.

(** C9 on the sample: a length byte of 253 opens the 31 bytes after it. *)
Lemma openMessage_total_sample :
  ∃ plain s,
    Messages.openedBlock sampleDigest (2 ^ 256 - 1) sampleKey = Return plain ∧
    at_ plain 0 = 253 ∧
    Messages.openMessage sampleDigest (2 ^ 256 - 1) sampleKey = Return s ∧
    s = TextDecoder_decode (drop 1 plain).
Proof.
  destruct (openMessage_total sampleDigest (2 ^ 256 - 1) sampleKey (sampleDigest [1]))
    as [(plain & s & Hplain & _ & Hopen & _ & Hs & Hclamp) _];
    [lia|exact sampleKey_bytes|].
  assert (HL : at_ plain 0 = 253).
  { assert (Messages.openedBlock sampleDigest (2 ^ 256 - 1) sampleKey
            = Return (mapXor (bytesBE 32 (2 ^ 256 - 1)) (sampleDigest [1])))
      as Hb by (vm_compute; reflexivity).
    rewrite Hb in Hplain. assert (plain = mapXor (bytesBE 32 (2 ^ 256 - 1)) (sampleDigest [1]))
      as -> by congruence.
    vm_compute. reflexivity. }
  exists plain, s. split; [done|]. split; [done|]. split; [done|].
  destruct Hclamp as [Hslice _]; [lia|]. by rewrite <-Hslice.
Defined.

Lemma sampleDigest_bytes data :
  length (sampleDigest data) = 32%nat ∧ Forall isByte (sampleDigest data).
Proof.
  unfold sampleDigest. split; [by rewrite length_fmap, length_seq|].
  apply Forall_fmap, Forall_forall. intros i _. unfold isByte. simpl.
  apply Z.mod_pos_bound. lia.
Qed.

(** C8 on the sample: [255] and [0xff] spell the byte [ff], [0x00ff]
    spells two bytes. *)
Lemma deriveKeyBytes_hashes_spelled_bytes_sample :
  Messages.deriveKeyBytes sampleDigest (js "255") = Return (sampleDigest [255]) ∧
  Messages.deriveKeyBytes sampleDigest (js "0xff") = Return (sampleDigest [255]) ∧
  Messages.deriveKeyBytes sampleDigest (js "0x00ff") = Return (sampleDigest [0; 255]) ∧
  ∀ m, Messages.sealMessage sampleDigest m (js "255")
       = Messages.sealMessage sampleDigest m (js "0xff").
Proof.
  destruct (deriveKeyBytes_hashes_spelled_bytes sampleDigest sampleDigest_bytes)
    as (Hhex & _ & _ & Hsame).
  pose proof (Hhex (js "0xff") [255] eq_refl eq_refl) as Hff.
  split; [rewrite (proj1 (Hsame (js "0xff") (js "255") eq_refl)); exact Hff|].
  split; [exact Hff|].
  split; [exact (Hhex (js "0x00ff") [0; 255] eq_refl eq_refl)|].
  apply (Hsame (js "0xff") (js "255") eq_refl).
Defined.

(** C8 as stated fails: key strings of one value that spell different
    bytes have different key streams.  So the hex forms [0x01] and
    [0x0001], and the decimal form [1] and the 20-byte form that
    [normalizeGroupKey] writes for it. *)
Lemma same_value_other_key_stream :
  BigInt (js "0x01") = Return 1 ∧ BigInt (js "0x0001") = Return 1 ∧
  keyMaterial (js "0x01") = Return [1] ∧
  keyMaterial (js "0x0001") = Return [0; 1] ∧
  Messages.deriveKeyBytes sampleDigest (js "0x01")
  ≠ Messages.deriveKeyBytes sampleDigest (js "0x0001") ∧
  BigInt (js "1") = Return 1 ∧
  normalizeGroupKey (inl (js "1")) = Return (js "0x0000000000000000000000000000000000000001") ∧
  keyMaterial (js "1") = Return [1] ∧
  keyMaterial (js "0x0000000000000000000000000000000000000001")
  = Return (replicate 19 0 ++ [1]) ∧
  Messages.deriveKeyBytes sampleDigest (js "1")
  ≠ Messages.deriveKeyBytes sampleDigest (js "0x0000000000000000000000000000000000000001").
Proof.
  split; [vm_compute; reflexivity|]. split; [vm_compute; reflexivity|].
  split; [vm_compute; reflexivity|]. split; [vm_compute; reflexivity|].
  split; [vm_compute; discriminate|].
  split; [vm_compute; reflexivity|]. split; [vm_compute; reflexivity|].
  split; [vm_compute; reflexivity|]. split; [vm_compute; reflexivity|].
  vm_compute. discriminate.
Qed.

End Samples.

(* ===================================================================== *)
(** * Part VI: the registry, call by call and over its history           *)
(* ===================================================================== *)

Section RegistryCoverage.

Import ZVerseGroups.

Variable this : address.
Variable keccak256_packed : uint256 → uint256 → address → uint256 → uint256.
Variable FHE_asEaddress : address → handle.
Variable FHE_fromExternal : address → handle → bytes → option handle.

Abbreviation sendMessage := (ZVerseGroups.sendMessage this FHE_fromExternal).
Abbreviation createGroup := (ZVerseGroups.createGroup this keccak256_packed FHE_asEaddress).
Abbreviation run := (ZVerseGroups.run this keccak256_packed FHE_asEaddress FHE_fromExternal).
Abbreviation commit := (ZVerseGroups.commit this keccak256_packed FHE_asEaddress FHE_fromExternal).
Abbreviation commitAll := (ZVerseGroups.commitAll this keccak256_packed FHE_asEaddress FHE_fromExternal).
Abbreviation reachable := (ZVerseGroups.reachable this keccak256_packed FHE_asEaddress FHE_fromExternal).

(** ** What a successful call writes *)

(** The key handle [createGroup] computes. *)
Abbreviation newKey st env :=
  (FHE_asEaddress
     (keccak256_packed (block_prevrandao env) (block_timestamp env) (msg_sender env)
                       (N.of_nat (length (_groups st))) mod 2 ^ 160)%N).

Lemma createGroup_Ok st env nm :
  nm ≠ EmptyString →
  createGroup st env nm
  = Ok (mkState
          (_groups st ++ [mkGroup nm (newKey st env) (msg_sender env)
                                  [msg_sender env] {[ msg_sender env := true ]}])
          (_groupMessages st)
          (FHE_allow (newKey st env) (msg_sender env)
             (FHE_allow (newKey st env) this (acl st)))
          (events st ++ [GroupCreated (N.of_nat (length (_groups st))) nm
                                      (msg_sender env) (newKey st env)]),
        N.of_nat (length (_groups st))).
Proof.
  intros Hnm. unfold ZVerseGroups.createGroup.
  destruct nm as [|c nm']; [done|]. done.
Qed.

Lemma createGroup_empty st env :
  createGroup st env EmptyString = Revert "Name required".
Proof. done. Qed.

Lemma run_inv st env c st' :
  run st env c = Ok st' →
  match c with
  | CreateGroup nm =>
      nm ≠ EmptyString ∧
      st' = mkState
          (_groups st ++ [mkGroup nm (newKey st env) (msg_sender env)
                                  [msg_sender env] {[ msg_sender env := true ]}])
          (_groupMessages st)
          (FHE_allow (newKey st env) (msg_sender env)
             (FHE_allow (newKey st env) this (acl st)))
          (events st ++ [GroupCreated (N.of_nat (length (_groups st))) nm
                                      (msg_sender env) (newKey st env)])
  | JoinGroup groupId =>
      ∃ g, _groups st !! N.to_nat groupId = Some g ∧
           isMemberOf g (msg_sender env) = false ∧
           st' = mkState
             (<[ N.to_nat groupId :=
                   mkGroup (name g) (encryptedKey g) (creator g)
                           (members g ++ [msg_sender env])
                           (<[ msg_sender env := true ]> (isMember g)) ]> (_groups st))
             (_groupMessages st)
             (allowHistory (msg_sender env) (messagesOf st groupId)
                (FHE_allow (encryptedKey g) (msg_sender env) (acl st)))
             (events st ++ [GroupJoined groupId (msg_sender env)])
  | SendMessage groupId encryptedMessage inputProof =>
      ∃ g storedMessage,
        _groups st !! N.to_nat groupId = Some g ∧
        isMemberOf g (msg_sender env) = true ∧
        FHE_fromExternal (msg_sender env) encryptedMessage inputProof = Some storedMessage ∧
        st' = mkState (_groups st)
          (<[ groupId := messagesOf st groupId
                ++ [mkMessage (msg_sender env) storedMessage (block_timestamp env)] ]>
             (_groupMessages st))
          (allowMembers storedMessage (members g)
             (FHE_allow storedMessage this (acl st)))
          (events st ++ [MessageSent groupId (msg_sender env) storedMessage])
  end.
Proof.
  destruct c as [nm|groupId|groupId encryptedMessage inputProof]; simpl.
  - destruct nm as [|c nm']; [done|].
    rewrite createGroup_Ok by done. simpl. by intros [= <-].
  - unfold joinGroup.
    destruct (validGroup st groupId) as [g| |] eqn:Hg; simpl; [|done..].
    apply validGroup_Ok in Hg.
    destruct (isMemberOf g (msg_sender env)) eqn:Hm; [done|].
    intros [= <-]. by exists g.
  - unfold ZVerseGroups.sendMessage.
    destruct (validGroup st groupId) as [g| |] eqn:Hg; simpl; [|done..].
    apply validGroup_Ok in Hg.
    destruct (isMemberOf g (msg_sender env)) eqn:Hm; simpl; [|done].
    destruct (FHE_fromExternal _ _ _) as [h|] eqn:Himport; [|done].
    intros [= <-]. by exists g, h.
Qed.

Lemma commit_cases st env c :
  commit st env c = st ∨ run st env c = Ok (commit st env c).
Proof.
  unfold ZVerseGroups.commit. destruct (run st env c); auto.
Qed.

Lemma messagesOf_insert st groups groupId ms a ev other :
  messagesOf (mkState groups (<[ groupId := ms ]> (_groupMessages st)) a ev) other
  = if decide (other = groupId) then ms else messagesOf st other.
Proof.
  unfold messagesOf. simpl. destruct (decide (other = groupId)) as [->|Hne].
  - by rewrite lookup_insert_eq.
  - by rewrite lookup_insert_ne.
Qed.

(** ** Calls only add *)

Lemma extends_refl st : extends st st.
Proof.
  split; [done|]. split; [|done].
  intros i g Hg. exists g. by repeat split.
Qed.

Lemma extends_trans st1 st2 st3 : extends st1 st2 → extends st2 st3 → extends st1 st3.
Proof.
  intros (Hacl & Hgroups & Hmsgs) (Hacl' & Hgroups' & Hmsgs').
  split; [intros p Hp; by apply Hacl', Hacl|]. split.
  - intros i g Hg.
    destruct (Hgroups i g Hg) as (g' & Hg' & Hn & Hk & Hc & Hm & Hf).
    destruct (Hgroups' i g' Hg') as (g'' & Hg'' & Hn' & Hk' & Hc' & Hm' & Hf').
    exists g''. split; [done|]. split; [congruence|]. split; [congruence|].
    split; [congruence|]. split; [by etrans|by auto].
  - intros groupId. etrans; [apply Hmsgs|apply Hmsgs'].
Qed.

Lemma run_extends st env c st' : run st env c = Ok st' → extends st st'.
Proof.
  intros Hrun%run_inv.
  destruct c as [nm|groupId|groupId encryptedMessage inputProof].
  - destruct Hrun as [_ ->]. split; [|split]; simpl.
    + intros p Hp. destruct p. apply FHE_allow_elem. right.
      apply FHE_allow_elem. by right.
    + intros i g Hg. exists g. rewrite lookup_app_l by by eapply lookup_lt_Some.
      by repeat split.
    + done.
  - destruct Hrun as (g & Hg & Hnot & ->). split; [|split]; simpl.
    + intros p Hp. apply allowHistory_mono. destruct p.
      apply FHE_allow_elem. by right.
    + intros i g0 Hg0. destruct (decide (i = N.to_nat groupId)) as [->|Hne].
      * assert (g0 = g) as -> by congruence. eexists. split.
        -- apply list_lookup_insert_eq. by eapply lookup_lt_Some.
        -- simpl. repeat split; [by apply prefix_app_r|].
           intros a Ha. unfold isMemberOf in *. simpl.
           destruct (decide (a = msg_sender env)) as [->|Hne].
           ++ by rewrite lookup_insert_eq.
           ++ by rewrite lookup_insert_ne.
      * exists g0. rewrite list_lookup_insert_ne by done. by repeat split.
    + done.
  - destruct Hrun as (g & h & Hg & Hmem & Himport & ->). split; [|split]; simpl.
    + intros p Hp. apply allowMembers_mono. destruct p.
      apply FHE_allow_elem. by right.
    + intros i g0 Hg0. exists g0. by repeat split.
    + intros other. rewrite messagesOf_insert.
      destruct (decide (other = groupId)) as [->|Hne]; [|done].
      by apply prefix_app_r.
Qed.

Lemma commit_extends st env c : extends st (commit st env c).
Proof.
  destruct (commit_cases st env c) as [->|Hrun].
  - apply extends_refl.
  - by eapply run_extends.
Qed.

Lemma commitAll_extends st calls : extends st (commitAll st calls).
Proof.
  revert st. induction calls as [|[env c] calls IH]; intros st.
  - apply extends_refl.
  - simpl. eapply extends_trans; [apply commit_extends|apply IH].
Qed.

(** ** Creating a group *)

Lemma validGroup_invalid st groupId :
  (getGroupCount st ≤ groupId)%N → validGroup st groupId = Revert "Invalid group".
Proof.
  unfold getGroupCount, validGroup. intros Hge.
  by rewrite lookup_ge_None_2 by lia.
Qed.

Lemma validGroup_lookup st groupId g :
  _groups st !! N.to_nat groupId = Some g → validGroup st groupId = Ok g.
Proof. apply validGroup_Ok. Qed.


(** ** When a call succeeds *)

(** X2.  The three state-changing calls succeed in exactly these cases:
    [createGroup] when the name is not empty (it reverts with "Name
    required" otherwise); [joinGroup] when the group exists and the caller
    is not a member of it; [sendMessage] when the group exists, the caller
    is a member of it and the service accepts the external input.  A call
    that does not succeed leaves the state as it was. *)
Theorem calls_succeed_exactly_when st env :
  (∀ nm, (∃ r, createGroup st env nm = Ok r) ↔ nm ≠ EmptyString) ∧
  createGroup st env EmptyString = Revert "Name required" ∧
  (∀ groupId,
     (∃ st', joinGroup st env groupId = Ok st')
     ↔ isGroupMember st groupId (msg_sender env) = Ok false) ∧
  (∀ groupId encryptedMessage inputProof,
     (∃ st', sendMessage st env groupId encryptedMessage inputProof = Ok st')
     ↔ isGroupMember st groupId (msg_sender env) = Ok true ∧
       is_Some (FHE_fromExternal (msg_sender env) encryptedMessage inputProof)) ∧
  (∀ c, (∀ st', run st env c ≠ Ok st') → commit st env c = st).
Proof.
  split; [|split; [|split; [|split]]].
  - intros nm. split.
    + intros [r Hr] ->. by rewrite createGroup_empty in Hr.
    + intros Hnm. eexists. by apply createGroup_Ok.
  - apply createGroup_empty.
  - intros groupId. split.
    + intros [st' Hjoin]. apply (run_inv st env (JoinGroup groupId)) in Hjoin
        as (g & Hg & Hnot & _).
      apply isGroupMember_Ok. exists g. by split; [apply validGroup_lookup|].
    + intros (g & Hg & Hnot)%isGroupMember_Ok. unfold joinGroup.
      rewrite Hg. simpl. rewrite Hnot. by eexists.
  - intros groupId encryptedMessage inputProof. split.
    + intros [st' Hsend].
      apply (run_inv st env (SendMessage groupId encryptedMessage inputProof)) in Hsend
        as (g & h & Hg & Hmem & Himport & _).
      split; [|by exists h].
      apply isGroupMember_Ok. exists g. by split; [apply validGroup_lookup|].
    + intros [(g & Hg & Hmem)%isGroupMember_Ok [h Himport]].
      unfold ZVerseGroups.sendMessage. rewrite Hg. simpl.
      rewrite Hmem, Himport. by eexists.
  - intros c Hfail. destruct (commit_cases st env c) as [Heq|Hrun]; [done|].
    by destruct (Hfail _ Hrun).
Qed.

(** ** The guards *)

(** X3.  For an identifier that is not below the group count, [joinGroup],
    [sendMessage] and every view that takes a group revert with "Invalid
    group" (before an index is looked at), and the two calls leave the
    state as it was. *)
Theorem invalid_group_reverts st env groupId :
  (getGroupCount st ≤ groupId)%N →
  joinGroup st env groupId = Revert "Invalid group" ∧
  (∀ encryptedMessage inputProof,
     sendMessage st env groupId encryptedMessage inputProof = Revert "Invalid group" ∧
     commit st env (SendMessage groupId encryptedMessage inputProof) = st) ∧
  commit st env (JoinGroup groupId) = st ∧
  getGroup st groupId = Revert "Invalid group" ∧
  getGroupMembers st groupId = Revert "Invalid group" ∧
  getGroupKey st groupId = Revert "Invalid group" ∧
  getMessageCount st groupId = Revert "Invalid group" ∧
  (∀ account, isGroupMember st groupId account = Revert "Invalid group") ∧
  (∀ account, canDecryptGroupKey st groupId account = Revert "Invalid group") ∧
  (∀ index, getMessage st groupId index = Revert "Invalid group") ∧
  (∀ index account, canDecryptMessage st groupId index account = Revert "Invalid group").
Proof.
  intros Hv%validGroup_invalid.
  unfold ZVerseGroups.commit, ZVerseGroups.run, joinGroup, ZVerseGroups.sendMessage,
    getGroup, getGroupMembers, getGroupKey, getMessageCount, isGroupMember,
    canDecryptGroupKey, getMessage, canDecryptMessage.
  rewrite Hv. simpl. by repeat split.
Qed.

(** X4.  [sendMessage] to an existing group by a caller who is not a
    member of it reverts with "Join group first", whatever the input and
    its proof are, and the state stays as it was: no message is stored and
    no grant is made. *)
Theorem sendMessage_requires_membership st env groupId encryptedMessage inputProof :
  isGroupMember st groupId (msg_sender env) = Ok false →
  sendMessage st env groupId encryptedMessage inputProof = Revert "Join group first" ∧
  commit st env (SendMessage groupId encryptedMessage inputProof) = st.
Proof.
  intros (g & Hg & Hnot)%isGroupMember_Ok.
  assert (Hrev : sendMessage st env groupId encryptedMessage inputProof
                 = Revert "Join group first").
  { unfold ZVerseGroups.sendMessage. rewrite Hg. simpl. by rewrite Hnot. }
  split; [done|]. unfold ZVerseGroups.commit. simpl. by rewrite Hrev.
Qed.

(** X5.  For an existing group with [count] messages, [getMessage] and
    [canDecryptMessage] return at every index below [count]: the stored
    sender, handle and time stamp, and whether the account holds a grant
    for that handle.  At every other index both panic with code 0x32. *)
Theorem getMessage_bounds st groupId count index :
  getMessageCount st groupId = Ok count →
  ((index < count)%N →
   ∃ m, messagesOf st groupId !! N.to_nat index = Some m ∧
        getMessage st groupId index
        = Ok (sender m, encryptedContent m, timestamp m) ∧
        ∀ account, canDecryptMessage st groupId index account
                   = Ok (FHE_isAllowed (encryptedContent m) account (acl st))) ∧
  ((count ≤ index)%N →
   getMessage st groupId index = Panic 0x32 ∧
   ∀ account, canDecryptMessage st groupId index account = Panic 0x32).
Proof.
  unfold getMessageCount, getMessage, canDecryptMessage, messageAt.
  destruct (validGroup st groupId) as [g| |]; simpl; [|done..].
  intros [= <-]. split.
  - intros Hlt.
    destruct (lookup_lt_is_Some_2 (messagesOf st groupId) (N.to_nat index)) as [m Hm];
      [lia|].
    exists m. rewrite Hm. by repeat split.
  - intros Hge. by rewrite lookup_ge_None_2 by lia.
Qed.

(** ** What no sequence of calls undoes *)

Lemma extends_validGroup st st' groupId g :
  extends st st' → validGroup st groupId = Ok g →
  ∃ g', validGroup st' groupId = Ok g' ∧
        name g' = name g ∧ encryptedKey g' = encryptedKey g ∧
        creator g' = creator g ∧
        members g `prefix_of` members g' ∧
        ∀ a, isMemberOf g a = true → isMemberOf g' a = true.
Proof.
  intros (_ & Hgroups & _) Hg%validGroup_Ok.
  destruct (Hgroups _ _ Hg) as (g' & Hg' & Hrest).
  exists g'. by split; [apply validGroup_lookup|].
Qed.

Lemma extends_messageAt st st' groupId index m :
  extends st st' →
  messagesOf st groupId !! N.to_nat index = Some m →
  messagesOf st' groupId !! N.to_nat index = Some m.
Proof.
  intros (_ & _ & Hmsgs) Hm. by eapply prefix_lookup_Some.
Qed.

(** X6.  No sequence of calls takes a decrypt permission away: a grant the
    service holds stays, and whenever [canDecryptGroupKey] or
    [canDecryptMessage] returned [true] for an account it returns [true]
    for that account after any further transactions, failed ones
    included. *)
Theorem grants_never_revoked st calls :
  (∀ h account,
     FHE_isAllowed h account (acl st) = true →
     FHE_isAllowed h account (acl (commitAll st calls)) = true) ∧
  (∀ groupId account,
     canDecryptGroupKey st groupId account = Ok true →
     canDecryptGroupKey (commitAll st calls) groupId account = Ok true) ∧
  (∀ groupId index account,
     canDecryptMessage st groupId index account = Ok true →
     canDecryptMessage (commitAll st calls) groupId index account = Ok true).
Proof.
  pose proof (commitAll_extends st calls) as Hext.
  set (st' := commitAll st calls) in *.
  assert (Hacl : ∀ h account,
            FHE_isAllowed h account (acl st) = true →
            FHE_isAllowed h account (acl st') = true).
  { intros h account Hin%FHE_isAllowed_true.
    apply FHE_isAllowed_true. by apply Hext. }
  split; [done|]. split.
  - intros groupId account. unfold canDecryptGroupKey.
    destruct (validGroup st groupId) as [g| |] eqn:Hg; simpl; [|done..].
    destruct (extends_validGroup _ _ _ _ Hext Hg) as (g' & -> & _ & Hk & _).
    simpl. rewrite Hk. intros [= Hin]. f_equal. by apply Hacl.
  - intros groupId index account. unfold canDecryptMessage, messageAt.
    destruct (validGroup st groupId) as [g| |] eqn:Hg; simpl; [|done..].
    destruct (extends_validGroup _ _ _ _ Hext Hg) as (g' & -> & _).
    simpl. destruct (messagesOf st groupId !! N.to_nat index) as [m|] eqn:Hm;
      simpl; [|done].
    rewrite (extends_messageAt _ _ _ _ _ Hext Hm). simpl.
    intros [= Hin]. f_equal. by apply Hacl.
Qed.

(** X7.  The message history of a group is append-only: after any
    sequence of calls the earlier history is a prefix of the later one,
    the message count has not gone down, and [getMessage] returns at every
    index what it returned there before. *)
Theorem history_append_only st calls groupId :
  messagesOf st groupId `prefix_of` messagesOf (commitAll st calls) groupId ∧
  (∀ count,
     getMessageCount st groupId = Ok count →
     ∃ count', getMessageCount (commitAll st calls) groupId = Ok count' ∧
               (count ≤ count')%N) ∧
  (∀ index r,
     getMessage st groupId index = Ok r →
     getMessage (commitAll st calls) groupId index = Ok r).
Proof.
  pose proof (commitAll_extends st calls) as Hext.
  set (st' := commitAll st calls) in *.
  split; [apply Hext|]. split.
  - intros count. unfold getMessageCount.
    destruct (validGroup st groupId) as [g| |] eqn:Hg; simpl; [|done..].
    destruct (extends_validGroup _ _ _ _ Hext Hg) as (g' & -> & _).
    simpl. intros [= <-]. eexists. split; [done|].
    destruct Hext as (_ & _ & Hmsgs).
    pose proof (prefix_length _ _ (Hmsgs groupId)). lia.
  - intros index r. unfold getMessage, messageAt.
    destruct (validGroup st groupId) as [g| |] eqn:Hg; simpl; [|done..].
    destruct (extends_validGroup _ _ _ _ Hext Hg) as (g' & -> & _).
    simpl. destruct (messagesOf st groupId !! N.to_nat index) as [m|] eqn:Hm;
      simpl; [|done].
    by rewrite (extends_messageAt _ _ _ _ _ Hext Hm).
Qed.

(** X8.  Groups are never removed or renumbered, and nobody ever leaves
    one: after any sequence of calls the group count has not gone down, an
    existing group has the name, key handle and creator it had, its
    earlier member list is a prefix of the later one, and whoever was a
    member is a member. *)
Theorem groups_append_only st calls :
  (getGroupCount st ≤ getGroupCount (commitAll st calls))%N ∧
  ∀ groupId nm key who count ms,
    getGroup st groupId = Ok (nm, key, who, count) →
    getGroupMembers st groupId = Ok ms →
    ∃ count' ms',
      getGroup (commitAll st calls) groupId = Ok (nm, key, who, count') ∧
      (count ≤ count')%N ∧
      getGroupKey (commitAll st calls) groupId = Ok key ∧
      getGroupMembers (commitAll st calls) groupId = Ok ms' ∧
      ms `prefix_of` ms' ∧
      ∀ account,
        isGroupMember st groupId account = Ok true →
        isGroupMember (commitAll st calls) groupId account = Ok true.
Proof.
  pose proof (commitAll_extends st calls) as Hext.
  set (st' := commitAll st calls) in *. split.
  - unfold getGroupCount.
    destruct (decide (length (_groups st) = 0%nat)) as [->|Hne]; [lia|].
    destruct (lookup_lt_is_Some_2 (_groups st) (pred (length (_groups st)))) as [g Hg];
      [lia|].
    destruct Hext as (_ & Hgroups & _).
    destruct (Hgroups _ _ Hg) as (g' & Hg'%lookup_lt_Some & _). lia.
  - intros groupId nm key who count ms.
    unfold getGroup, getGroupMembers, getGroupKey, isGroupMember.
    destruct (validGroup st groupId) as [g| |] eqn:Hg; simpl; [|done..].
    destruct (extends_validGroup _ _ _ _ Hext Hg)
      as (g' & -> & Hn & Hk & Hc & Hm & Hf).
    simpl. intros [= <- <- <- <-] [= <-].
    exists (N.of_nat (length (members g'))), (members g').
    rewrite Hn, Hk, Hc. split; [done|].
    split; [pose proof (prefix_length _ _ Hm); lia|].
    split; [done|]. split; [done|]. split; [done|].
    intros account [= Ha]. f_equal. by apply Hf.
Qed.

(** ** Calls on one group leave the others alone *)

(** X9.  A successful [joinGroup] or [sendMessage] on one group changes
    the stored data of no other group: for every other identifier the
    group count and the views [getGroup], [getGroupMembers],
    [isGroupMember], [getGroupKey], [getMessageCount] and [getMessage]
    return what they returned before. *)
Theorem other_groups_untouched st env c st' groupId other :
  run st env c = Ok st' →
  c = JoinGroup groupId
  ∨ (∃ encryptedMessage inputProof, c = SendMessage groupId encryptedMessage inputProof) →
  other ≠ groupId →
  getGroupCount st' = getGroupCount st ∧
  getGroup st' other = getGroup st other ∧
  getGroupMembers st' other = getGroupMembers st other ∧
  getGroupKey st' other = getGroupKey st other ∧
  getMessageCount st' other = getMessageCount st other ∧
  (∀ account, isGroupMember st' other account = isGroupMember st other account) ∧
  (∀ index, getMessage st' other index = getMessage st other index).
Proof.
  intros Hrun Hc Hother.
  assert (Hnat : N.to_nat other ≠ N.to_nat groupId) by lia.
  assert (Hsame : getGroupCount st' = getGroupCount st ∧
                  validGroup st' other = validGroup st other ∧
                  messagesOf st' other = messagesOf st other).
  { apply run_inv in Hrun.
    destruct Hc as [->|(encryptedMessage & inputProof & ->)].
    - destruct Hrun as (g & Hg & _ & ->).
      unfold getGroupCount, validGroup, messagesOf. simpl.
      by rewrite length_insert, list_lookup_insert_ne.
    - destruct Hrun as (g & h & Hg & _ & _ & ->).
      rewrite messagesOf_insert. by rewrite decide_False. }
  destruct Hsame as (Hcount & Hv & Hmsgs).
  unfold getGroup, getGroupMembers, getGroupKey, getMessageCount, isGroupMember,
    getMessage, messageAt.
  by rewrite Hcount, Hv, Hmsgs.
Qed.

(** ** What holds in every reachable state *)

Lemma run_noStrayMessages st env c st' :
  noStrayMessages st → run st env c = Ok st' → noStrayMessages st'.
Proof.
  intros Hno Hrun%run_inv groupId.
  destruct c as [nm|groupId0|groupId0 encryptedMessage inputProof].
  - destruct Hrun as [_ ->]. simpl. rewrite length_app. simpl. intros Hge.
    apply Hno. lia.
  - destruct Hrun as (g & Hg & _ & ->). simpl. rewrite length_insert. apply Hno.
  - destruct Hrun as (g & h & Hg%lookup_lt_Some & _ & _ & ->). simpl. intros Hge.
    rewrite messagesOf_insert. case_decide as Hne; [subst; lia|].
    by apply Hno.
Qed.

Lemma run_grantsComplete st env c st' :
  noStrayMessages st → grantsComplete this st → run st env c = Ok st' →
  grantsComplete this st'.
Proof.
  intros Hno Hgr Hrun.
  pose proof (run_extends _ _ _ _ Hrun) as (Hacl & _ & _).
  apply run_inv in Hrun.
  assert (Hold : ∀ groupId g a,
            _groups st !! N.to_nat groupId = Some g → a = this ∨ a ∈ members g →
            (encryptedKey g, a) ∈ acl st' ∧
            ∀ m, m ∈ messagesOf st groupId → (encryptedContent m, a) ∈ acl st').
  { intros groupId g a Hg Ha. destruct (Hgr groupId g a Hg Ha) as [Hkey Hmsgs].
    split; [by apply Hacl|]. intros m Hm. by apply Hacl, Hmsgs. }
  intros groupId g' a Hg' Ha.
  destruct c as [nm|groupId0|groupId0 encryptedMessage inputProof].
  - destruct Hrun as [_ ->]. simpl in Hg'.
    change (messagesOf (mkState _ (_groupMessages st) _ _) groupId)
      with (messagesOf st groupId).
    apply lookup_app_Some in Hg' as [Hg'|[Hlen Hg']]; [by apply Hold|].
    rewrite (Hno groupId Hlen). split; [|by intros m Hm%not_elem_of_nil].
    destruct (N.to_nat groupId - length (_groups st))%nat as [|n] eqn:E; [|done].
    injection Hg' as <-. simpl in *.
    destruct Ha as [->|Ha%list_elem_of_singleton]; [|subst a].
    + apply FHE_allow_elem. right. apply FHE_allow_elem. by left.
    + apply FHE_allow_elem. by left.
  - destruct Hrun as (g & Hg & _ & ->). simpl in Hg'.
    change (messagesOf (mkState _ (_groupMessages st) _ _) groupId)
      with (messagesOf st groupId).
    destruct (decide (groupId = groupId0)) as [->|Hne].
    + rewrite list_lookup_insert_eq in Hg' by by eapply lookup_lt_Some.
      injection Hg' as <-. simpl in *.
      assert (Hcases : (a = this ∨ a ∈ members g) ∨ a = msg_sender env).
      { destruct Ha as [->|[Ha|Ha%list_elem_of_singleton]%elem_of_app]; auto. }
      destruct Hcases as [Ha'| ->]; [by apply (Hold groupId0 g a)|].
      split.
      * apply allowHistory_mono, FHE_allow_elem. by left.
      * intros m Hm. by apply allowHistory_grants.
    + rewrite list_lookup_insert_ne in Hg' by lia. by apply Hold.
  - destruct Hrun as (g & h & Hg & _ & _ & ->). simpl in Hg'.
    rewrite messagesOf_insert.
    case_decide as Hne; [subst groupId|by apply Hold].
    assert (g' = g) as -> by congruence.
    destruct (Hold groupId0 g a Hg Ha) as [Hkey Hmsgs]. split; [done|].
    intros m [Hm|Hm%list_elem_of_singleton]%elem_of_app; [by apply Hmsgs|].
    subst m. simpl. destruct Ha as [->|Ha].
    + apply allowMembers_mono, FHE_allow_elem. by left.
    + by apply allowMembers_grants.
Qed.

Lemma run_sendersAreMembers st env c st' :
  noStrayMessages st → sendersAreMembers st → run st env c = Ok st' →
  sendersAreMembers st'.
Proof.
  intros Hno Hsend Hrun.
  pose proof (run_extends _ _ _ _ Hrun) as (_ & Hgroups & _).
  apply run_inv in Hrun.
  intros groupId g' m Hg' Hm.
  destruct c as [nm|groupId0|groupId0 encryptedMessage inputProof].
  - destruct Hrun as [_ ->]. simpl in Hg'.
    change (messagesOf (mkState _ (_groupMessages st) _ _) groupId)
      with (messagesOf st groupId) in Hm.
    apply lookup_app_Some in Hg' as [Hg'|[Hlen Hg']]; [by eapply Hsend|].
    rewrite (Hno groupId Hlen) in Hm. by apply not_elem_of_nil in Hm.
  - destruct Hrun as (g & Hg & _ & Hst').
    assert (Hm' : m ∈ messagesOf st groupId) by by subst st'.
    destruct (lookup_lt_is_Some_2 (_groups st) (N.to_nat groupId)) as [g0 Hg0].
    { apply lookup_lt_Some in Hg'. subst st'. simpl in Hg'.
      by rewrite length_insert in Hg'. }
    destruct (Hgroups _ _ Hg0) as (g'' & Hg'' & _ & _ & _ & _ & Hf).
    assert (g'' = g') as -> by congruence.
    apply Hf. by eapply Hsend.
  - destruct Hrun as (g & h & Hg & Hmem & _ & ->). simpl in Hg'.
    rewrite messagesOf_insert in Hm.
    case_decide as Hne; [subst groupId|by eapply Hsend].
    assert (g' = g) as -> by congruence.
    apply elem_of_app in Hm as [Hm|Hm%list_elem_of_singleton]; [by eapply Hsend|].
    by subst m.
Qed.

Lemma imap_insert_same {A B} (f : nat → A → B) (l : list A) i x y :
  l !! i = Some x → f i y = f i x → imap f (<[ i := y ]> l) = imap f l.
Proof.
  intros Hx Hf. apply list_eq. intros j. rewrite !list_lookup_imap.
  destruct (decide (j = i)) as [->|Hne].
  - rewrite list_lookup_insert_eq by by eapply lookup_lt_Some.
    rewrite Hx. simpl. by rewrite Hf.
  - by rewrite list_lookup_insert_ne.
Qed.

Lemma run_logMirrorsState st env c st' :
  logMirrorsState st → run st env c = Ok st' → logMirrorsState st'.
Proof.
  intros [Hgroups Hper] Hrun%run_inv.
  destruct c as [nm|groupId0|groupId0 encryptedMessage inputProof].
  - destruct Hrun as [_ ->]. split; simpl.
    + unfold groupsFromLog in *. rewrite omap_app, Hgroups, imap_app. simpl.
      by rewrite Nat.add_0_r.
    + intros groupId. destruct (Hper groupId) as [Hmem Hmsgs].
      unfold membersFromLog, messagesFromLog in *.
      rewrite !omap_app, Hmem, Hmsgs. simpl.
      change (messagesOf (mkState _ (_groupMessages st) _ _) groupId)
        with (messagesOf st groupId).
      split; [|by rewrite app_nil_r].
      case_decide as Hid.
      * subst groupId. rewrite Nat2N.id, lookup_ge_None_2 by lia.
        by rewrite lookup_app_r, Nat.sub_diag by lia.
      * rewrite app_nil_r.
        destruct (decide (N.to_nat groupId < length (_groups st))%nat).
        -- by rewrite lookup_app_l by lia.
        -- rewrite !lookup_ge_None_2; [done|rewrite length_app; simpl; lia|lia].
  - destruct Hrun as (g & Hg & _ & ->). split; simpl.
    + unfold groupsFromLog in *. rewrite omap_app, Hgroups. simpl.
      rewrite app_nil_r. symmetry. by eapply imap_insert_same.
    + intros groupId. destruct (Hper groupId) as [Hmem Hmsgs].
      unfold membersFromLog, messagesFromLog in *.
      rewrite !omap_app, Hmem, Hmsgs. simpl.
      change (messagesOf (mkState _ (_groupMessages st) _ _) groupId)
        with (messagesOf st groupId).
      split; [|by rewrite app_nil_r].
      case_decide as Hid.
      * subst groupId. rewrite list_lookup_insert_eq by by eapply lookup_lt_Some.
        by rewrite Hg.
      * rewrite list_lookup_insert_ne by lia. by rewrite app_nil_r.
  - destruct Hrun as (g & h & Hg & _ & _ & ->). split; simpl.
    + unfold groupsFromLog in *. rewrite omap_app, Hgroups. simpl.
      by rewrite app_nil_r.
    + intros groupId. destruct (Hper groupId) as [Hmem Hmsgs].
      unfold membersFromLog, messagesFromLog in *.
      rewrite !omap_app, Hmem, Hmsgs. simpl.
      rewrite messagesOf_insert. split; [by rewrite app_nil_r|].
      case_decide as Hid.
      * subst groupId. rewrite decide_True by done. by rewrite fmap_app.
      * rewrite decide_False by done. by rewrite app_nil_r.
Qed.

Lemma reachable_invariants st :
  reachable st →
  noStrayMessages st ∧ grantsComplete this st ∧ sendersAreMembers st ∧
  logMirrorsState st.
Proof.
  induction 1 as [|st env c Hreach (Hno & Hgr & Hsend & Hlog)].
  - split; [done|]. split; [by intros groupId g a Hg|].
    split; [by intros groupId g m Hg|]. split; [done|].
    intros groupId. unfold messagesOf. simpl. by rewrite lookup_empty.
  - destruct (commit_cases st env c) as [->|Hrun]; [done|].
    split; [by eapply run_noStrayMessages|].
    split; [by eapply run_grantsComplete|].
    split; [by eapply run_sendersAreMembers|by eapply run_logMirrorsState].
Qed.

Lemma reachable_member st groupId g account :
  reachable st → _groups st !! N.to_nat groupId = Some g →
  isMemberOf g account = true → account ∈ members g.
Proof.
  intros Hreach Hg Hmem.
  apply (reachable_groups this keccak256_packed FHE_asEaddress FHE_fromExternal) in Hreach.
  pose proof (Forall_lookup_1 _ _ _ _ Hreach Hg) as (_ & _ & _ & Hiff).
  by apply Hiff.
Qed.

Lemma granted_views st groupId g account :
  grantsComplete this st →
  _groups st !! N.to_nat groupId = Some g →
  account = this ∨ account ∈ members g →
  canDecryptGroupKey st groupId account = Ok true ∧
  ∀ count index,
    getMessageCount st groupId = Ok count → (index < count)%N →
    canDecryptMessage st groupId index account = Ok true.
Proof.
  intros Hgr Hg Ha. destruct (Hgr groupId g account Hg Ha) as [Hkey Hmsgs].
  apply validGroup_lookup in Hg. split.
  - unfold canDecryptGroupKey. rewrite Hg. simpl. f_equal.
    by apply FHE_isAllowed_true.
  - intros count index. unfold getMessageCount. rewrite Hg. simpl.
    intros [= <-] Hlt.
    destruct (lookup_lt_is_Some_2 (messagesOf st groupId) (N.to_nat index)) as [m Hm];
      [lia|].
    rewrite (canDecryptMessage_Ok st groupId index account g m Hg Hm). f_equal.
    apply FHE_isAllowed_true, Hmsgs. by eapply list_elem_of_lookup_2.
Qed.

(** X10.  In every state reached from the deployed contract, whoever is a
    member of a group may decrypt the group's key and every message of
    the group, whether it was sent before or after the member joined. *)
Theorem members_can_decrypt st groupId account :
  reachable st →
  isGroupMember st groupId account = Ok true →
  canDecryptGroupKey st groupId account = Ok true ∧
  ∀ count index,
    getMessageCount st groupId = Ok count → (index < count)%N →
    canDecryptMessage st groupId index account = Ok true.
Proof.
  intros Hreach (g & Hg%validGroup_Ok & Hmem)%isGroupMember_Ok.
  pose proof (reachable_invariants st Hreach) as (_ & Hgr & _).
  apply (granted_views st groupId g account Hgr Hg). right.
  by eapply reachable_member.
Qed.

(** X11.  In every state reached from the deployed contract, the contract
    itself holds a grant for the key of every group and for every stored
    message. *)
Theorem contract_can_decrypt st groupId :
  reachable st →
  (groupId < getGroupCount st)%N →
  canDecryptGroupKey st groupId this = Ok true ∧
  ∀ count index,
    getMessageCount st groupId = Ok count → (index < count)%N →
    canDecryptMessage st groupId index this = Ok true.
Proof.
  intros Hreach [g Hg%validGroup_Ok]%validGroup_range.
  pose proof (reachable_invariants st Hreach) as (_ & Hgr & _).
  apply (granted_views st groupId g this Hgr Hg). by left.
Qed.

(** X12.  In every state reached from the deployed contract, the sender
    recorded with a message is a member of the message's group (nobody
    leaves a group, and only a member's message is stored). *)
Theorem senders_are_members st groupId index who h t :
  reachable st →
  getMessage st groupId index = Ok (who, h, t) →
  isGroupMember st groupId who = Ok true.
Proof.
  intros Hreach. pose proof (reachable_invariants st Hreach) as (_ & _ & Hsend & _).
  unfold getMessage, messageAt, isGroupMember.
  destruct (validGroup st groupId) as [g| |] eqn:Hg; simpl; [|done..].
  destruct (messagesOf st groupId !! N.to_nat index) as [m|] eqn:Hm; simpl; [|done].
  intros [= <- <- <-]. f_equal. apply validGroup_Ok in Hg.
  apply (Hsend groupId g m Hg). by eapply list_elem_of_lookup_2.
Qed.

(** X13.  In every state reached from the deployed contract, a group
    that [createGroup] has just made has no messages: its message count
    is 0 and [getMessage] panics at every index. *)
Theorem new_group_has_no_messages st env nm st' groupId :
  reachable st →
  createGroup st env nm = Ok (st', groupId) →
  getMessageCount st' groupId = Ok 0%N ∧
  ∀ index, getMessage st' groupId index = Panic 0x32.
Proof.
  intros Hreach Hcreate.
  pose proof (reachable_invariants st Hreach) as (Hno & _).
  destruct (decide (nm = EmptyString)) as [->|Hnm];
    [by rewrite createGroup_empty in Hcreate|].
  rewrite createGroup_Ok in Hcreate by done.
  injection Hcreate as <- <-.
  unfold getMessageCount, getMessage, messageAt, validGroup. simpl.
  rewrite Nat2N.id, lookup_app_r, Nat.sub_diag by lia. simpl.
  change (messagesOf (mkState _ (_groupMessages st) _ _) ?i) with (messagesOf st i).
  rewrite (Hno (N.of_nat (length (_groups st)))) by lia. done.
Qed.

(** X14.  In every state reached from the deployed contract the event
    log tells the stored data: the [GroupCreated] events are, in order,
    the groups with their identifier, name, creator and key handle; the
    creator of a group followed by the members its [GroupJoined] events
    name is its member list; and the [MessageSent] events of a group give
    the sender and the handle of each of its messages, in order. *)
Theorem events_mirror_state st :
  reachable st →
  N.of_nat (length (groupsFromLog (events st))) = getGroupCount st ∧
  (∀ groupId nm key who count,
     getGroup st groupId = Ok (nm, key, who, count) →
     groupsFromLog (events st) !! N.to_nat groupId = Some (groupId, nm, who, key)) ∧
  (∀ groupId ms,
     getGroupMembers st groupId = Ok ms → membersFromLog groupId (events st) = ms) ∧
  (∀ groupId count,
     getMessageCount st groupId = Ok count →
     N.of_nat (length (messagesFromLog groupId (events st))) = count) ∧
  (∀ groupId index who h t,
     getMessage st groupId index = Ok (who, h, t) →
     messagesFromLog groupId (events st) !! N.to_nat index = Some (who, h)).
Proof.
  intros Hreach.
  pose proof (reachable_invariants st Hreach) as (_ & _ & _ & Hlog & Hper).
  split; [|split; [|split; [|split]]].
  - rewrite Hlog. by rewrite length_imap.
  - intros groupId nm key who count. unfold getGroup.
    destruct (validGroup st groupId) as [g| |] eqn:Hg; simpl; [|done..].
    apply validGroup_Ok in Hg. intros [= <- <- <- <-].
    rewrite Hlog, list_lookup_imap, Hg. simpl. by rewrite N2Nat.id.
  - intros groupId ms. unfold getGroupMembers.
    destruct (validGroup st groupId) as [g| |] eqn:Hg; simpl; [|done..].
    apply validGroup_Ok in Hg. intros [= <-].
    destruct (Hper groupId) as [-> _]. by rewrite Hg.
  - intros groupId count. unfold getMessageCount.
    destruct (validGroup st groupId) as [g| |] eqn:Hg; simpl; [|done..].
    intros [= <-]. destruct (Hper groupId) as [_ ->]. by rewrite length_fmap.
  - intros groupId index who h t. unfold getMessage, messageAt.
    destruct (validGroup st groupId) as [g| |] eqn:Hg; simpl; [|done..].
    destruct (messagesOf st groupId !! N.to_nat index) as [m|] eqn:Hm; simpl; [|done].
    intros [= <- <- <-]. destruct (Hper groupId) as [_ ->].
    by rewrite list_lookup_fmap, Hm.
Qed.

(** ** Joining, one principal after the other *)

Lemma commit_join st env groupId g :
  _groups st !! N.to_nat groupId = Some g →
  isMemberOf g (msg_sender env) = false →
  _groups (commit st env (JoinGroup groupId)) !! N.to_nat groupId
  = Some (mkGroup (name g) (encryptedKey g) (creator g)
                  (members g ++ [msg_sender env])
                  (<[ msg_sender env := true ]> (isMember g))).
Proof.
  intros Hg Hnot. unfold ZVerseGroups.commit, ZVerseGroups.run, joinGroup.
  rewrite (validGroup_lookup _ _ _ Hg). simpl. rewrite Hnot. simpl.
  apply list_lookup_insert_eq. by eapply lookup_lt_Some.
Qed.

(** X15.  Joins compose in call order: from a reachable state in which a
    group has the member list [ms], when principals who are not members,
    no one twice, call [joinGroup] one after the other, the group's member
    list afterwards is [ms] followed by those principals in the order of
    their calls. *)
Theorem joins_in_order st groupId ms envs :
  reachable st →
  getGroupMembers st groupId = Ok ms →
  NoDup (ms ++ (msg_sender <$> envs)) →
  getGroupMembers (commitAll st ((λ env, (env, JoinGroup groupId)) <$> envs)) groupId
  = Ok (ms ++ (msg_sender <$> envs)).
Proof.
  revert st ms. induction envs as [|env envs IH]; intros st ms Hreach Hms Hnodup.
  - simpl. by rewrite app_nil_r.
  - unfold getGroupMembers in Hms.
    destruct (validGroup st groupId) as [g| |] eqn:Hg; simpl in Hms; [|done..].
    injection Hms as <-. apply validGroup_Ok in Hg.
    assert (Hnot : isMemberOf g (msg_sender env) = false).
    { destruct (isMemberOf g (msg_sender env)) eqn:Hmem; [|done].
      apply (reachable_member st groupId g _ Hreach Hg) in Hmem.
      apply NoDup_app in Hnodup as (_ & Hdisj & _).
      destruct (Hdisj _ Hmem). simpl. apply elem_of_cons. by left. }
    cbn [fmap list_fmap]. simpl.
    rewrite (IH _ (members g ++ [msg_sender env])).
    + by rewrite <-app_assoc.
    + by apply reachable_commit.
    + unfold getGroupMembers.
      by rewrite (validGroup_lookup _ _ _ (commit_join st env groupId g Hg Hnot)).
    + by rewrite <-app_assoc.
Qed.

(** ** The views agree with one another *)

Lemma run_creator_first st env c st' :
  Forall (λ g, head (members g) = Some (creator g)) (_groups st) →
  run st env c = Ok st' →
  Forall (λ g, head (members g) = Some (creator g)) (_groups st').
Proof.
  intros Hall Hrun%run_inv.
  destruct c as [nm|groupId|groupId encryptedMessage inputProof].
  - destruct Hrun as [_ ->]. simpl. apply Forall_app. split; [done|].
    by apply Forall_singleton.
  - destruct Hrun as (g & Hg & _ & ->). simpl. apply Forall_insert; [done|].
    simpl. pose proof (Forall_lookup_1 _ _ _ _ Hall Hg) as Hhead.
    simpl in Hhead. revert Hhead. by destruct (members g).
  - by destruct Hrun as (g & h & _ & _ & _ & ->).
Qed.

Lemma reachable_creator_first st :
  reachable st → Forall (λ g, head (members g) = Some (creator g)) (_groups st).
Proof.
  induction 1 as [|st env c Hreach IH]; [by constructor|].
  destruct (commit_cases st env c) as [->|Hrun]; [done|].
  by eapply run_creator_first.
Qed.

(** X27.  In every state reached from the deployed contract, for every
    identifier below the group count the views return and agree: the
    member count of [getGroup] is the length of the list of
    [getGroupMembers], the key is the one of [getGroupKey], the creator
    is the first entry of the member list and [isGroupMember] holds for
    it, and [getMessage] returns at every index below the count of
    [getMessageCount]. *)
Theorem views_agree_with_counts st groupId :
  reachable st →
  (groupId < getGroupCount st)%N →
  ∃ nm key who ms count,
    getGroup st groupId = Ok (nm, key, who, N.of_nat (length ms)) ∧
    getGroupMembers st groupId = Ok ms ∧
    getGroupKey st groupId = Ok key ∧
    head ms = Some who ∧
    isGroupMember st groupId who = Ok true ∧
    getMessageCount st groupId = Ok count ∧
    ∀ index, (index < count)%N → ∃ r, getMessage st groupId index = Ok r.
Proof.
  intros Hreach [g Hg]%validGroup_range.
  pose proof Hg as Hlook%validGroup_Ok.
  pose proof (Forall_lookup_1 _ _ _ _ (reachable_creator_first st Hreach) Hlook) as Hhead.
  pose proof (Forall_lookup_1 _ _ _ _
    (reachable_groups this keccak256_packed FHE_asEaddress FHE_fromExternal st Hreach)
    Hlook) as (_ & Hcreator & _ & Hiff).
  exists (name g), (encryptedKey g), (creator g), (members g),
    (N.of_nat (length (messagesOf st groupId))).
  unfold getGroup, getGroupMembers, getGroupKey, isGroupMember, getMessageCount,
    getMessage, messageAt.
  rewrite Hg. simpl.
  split; [done|]. split; [done|]. split; [done|]. split; [done|].
  split; [f_equal; by apply Hiff|]. split; [done|].
  intros index Hlt.
  destruct (lookup_lt_is_Some_2 (messagesOf st groupId) (N.to_nat index)) as [m Hm];
    [lia|].
  rewrite Hm. by eexists.
Qed.

(** ** Who holds a grant *)

Lemma allowHistory_elem account messages (s : ACL) p :
  p ∈ allowHistory account messages s →
  p ∈ s ∨ ∃ m, m ∈ messages ∧ p = (encryptedContent m, account).
Proof.
  revert s. induction messages as [|m ms IH]; intros s Hp; simpl in Hp; [by left|].
  apply IH in Hp as [Hp|(m' & Hm' & ->)].
  - destruct p as [h a]. apply FHE_allow_elem in Hp as [->|Hp]; [|by left].
    right. exists m. split; [apply elem_of_cons; by left|done].
  - right. exists m'. split; [apply elem_of_cons; by right|done].
Qed.

Lemma allowMembers_elem h ms (s : ACL) p :
  p ∈ allowMembers h ms s → p ∈ s ∨ ∃ a, a ∈ ms ∧ p = (h, a).
Proof.
  revert s. induction ms as [|m ms IH]; intros s Hp; simpl in Hp; [by left|].
  apply IH in Hp as [Hp|(a & Ha & ->)].
  - destruct p as [h' a']. apply FHE_allow_elem in Hp as [->|Hp]; [|by left].
    right. exists m. split; [apply elem_of_cons; by left|done].
  - right. exists a. split; [apply elem_of_cons; by right|done].
Qed.

Lemma extends_justified st st' h a :
  extends st st' →
  (∃ groupId g,
     _groups st !! N.to_nat groupId = Some g ∧ a ∈ members g ∧
     (h = encryptedKey g ∨ ∃ m, m ∈ messagesOf st groupId ∧ h = encryptedContent m)) →
  ∃ groupId g,
    _groups st' !! N.to_nat groupId = Some g ∧ a ∈ members g ∧
    (h = encryptedKey g ∨ ∃ m, m ∈ messagesOf st' groupId ∧ h = encryptedContent m).
Proof.
  intros (_ & Hgroups & Hmsgs) (groupId & g & Hg & Ha & Hh).
  destruct (Hgroups _ _ Hg) as (g' & Hg' & _ & Hk & _ & [k Hm] & _).
  exists groupId, g'. split; [done|].
  split; [rewrite Hm; apply elem_of_app; by left|].
  destruct Hh as [->|(m & Hin & ->)]; [by left|]. right. exists m. split; [|done].
  destruct (Hmsgs groupId) as [k' ->]. apply elem_of_app. by left.
Qed.

Lemma run_grantsJustified st env c st' :
  grantsJustified this st → run st env c = Ok st' → grantsJustified this st'.
Proof.
  intros Hjust Hrun. pose proof (run_extends _ _ _ _ Hrun) as Hext.
  assert (Hold : ∀ h a, (h, a) ∈ acl st →
            a = this ∨
            ∃ groupId g,
              _groups st' !! N.to_nat groupId = Some g ∧ a ∈ members g ∧
              (h = encryptedKey g
               ∨ ∃ m, m ∈ messagesOf st' groupId ∧ h = encryptedContent m)).
  { intros h a Hin. destruct (Hjust h a Hin) as [->|Hmember]; [by left|].
    right. by eapply extends_justified. }
  apply run_inv in Hrun. intros h a Hin.
  destruct c as [nm|groupId|groupId encryptedMessage inputProof].
  - destruct Hrun as [_ ->]. simpl in Hin.
    apply FHE_allow_elem in Hin as [[= -> ->]|Hin].
    + right. exists (N.of_nat (length (_groups st))). eexists.
      split; [simpl; rewrite Nat2N.id; by rewrite lookup_app_r, Nat.sub_diag by lia|].
      simpl. split; [by apply list_elem_of_singleton|by left].
    + apply FHE_allow_elem in Hin as [[= -> ->]|Hin]; [by left|by apply Hold].
  - destruct Hrun as (g & Hg & _ & ->). simpl in Hin.
    assert (Hjoined : ∀ h',
              (h' = encryptedKey g
               ∨ ∃ m, m ∈ messagesOf st groupId ∧ h' = encryptedContent m) →
              ∃ groupId0 g0,
                <[ N.to_nat groupId :=
                     mkGroup (name g) (encryptedKey g) (creator g)
                             (members g ++ [msg_sender env])
                             (<[ msg_sender env := true ]> (isMember g)) ]>
                  (_groups st) !! N.to_nat groupId0 = Some g0 ∧
                msg_sender env ∈ members g0 ∧
                (h' = encryptedKey g0
                 ∨ ∃ m, m ∈ messagesOf st groupId0 ∧ h' = encryptedContent m)).
    { intros h' Hh'. exists groupId. eexists.
      split; [apply list_lookup_insert_eq; by eapply lookup_lt_Some|].
      simpl. split; [|done]. apply elem_of_app. right. by apply list_elem_of_singleton. }
    apply allowHistory_elem in Hin as [Hin|(m & Hm & [= -> ->])].
    + apply FHE_allow_elem in Hin as [[= -> ->]|Hin]; [|by apply Hold].
      right. apply Hjoined. by left.
    + right. apply Hjoined. right. by exists m.
  - destruct Hrun as (g & storedMessage & Hg & _ & _ & ->). simpl in Hin.
    apply allowMembers_elem in Hin as [Hin|(a' & Ha' & [= -> ->])].
    + apply FHE_allow_elem in Hin as [[= -> ->]|Hin]; [by left|by apply Hold].
    + right. exists groupId, g. split; [done|]. split; [done|]. right.
      exists (mkMessage (msg_sender env) storedMessage (block_timestamp env)).
      split; [|done]. rewrite messagesOf_insert, decide_True by done.
      apply elem_of_app. right. by apply list_elem_of_singleton.
Qed.

Lemma reachable_grantsJustified st : reachable st → grantsJustified this st.
Proof.
  induction 1 as [|st env c Hreach IH].
  - intros h a Hin. by apply not_elem_of_empty in Hin.
  - destruct (commit_cases st env c) as [->|Hrun]; [done|].
    by eapply run_grantsJustified.
Qed.

(** X28.  The contract hands a grant to nobody but a member and itself:
    in every state reached from the deployed contract, an account other
    than the contract that holds a grant for a handle is a member of a
    group of which the handle is the key or a message. *)
Theorem grants_only_to_members st h account :
  reachable st →
  FHE_isAllowed h account (acl st) = true →
  account ≠ this →
  ∃ groupId,
    isGroupMember st groupId account = Ok true ∧
    (getGroupKey st groupId = Ok h
     ∨ ∃ index who t, getMessage st groupId index = Ok (who, h, t)).
Proof.
  intros Hreach Hin%FHE_isAllowed_true Hother.
  destruct (reachable_grantsJustified st Hreach h account Hin)
    as [->|(groupId & g & Hg & Ha & Hh)]; [done|].
  pose proof (Forall_lookup_1 _ _ _ _
    (reachable_groups this keccak256_packed FHE_asEaddress FHE_fromExternal st Hreach)
    Hg) as (_ & _ & _ & Hiff).
  apply validGroup_lookup in Hg as Hv.
  exists groupId. split.
  - unfold isGroupMember. rewrite Hv. simpl. f_equal. by apply Hiff.
  - destruct Hh as [->|(m & Hm & ->)].
    + left. unfold getGroupKey. by rewrite Hv.
    + right. apply list_elem_of_lookup_1 in Hm as [i Hi].
      exists (N.of_nat i), (sender m), (timestamp m).
      unfold getMessage, messageAt. rewrite Hv. simpl.
      by rewrite Nat2N.id, Hi.
Qed.

End RegistryCoverage.

(* ===================================================================== *)
(** * Part VII: the codec, its keys and its texts                        *)
(* ===================================================================== *)

Section CodecCoverage.

Import Messages.

(** ** [normalizeGroupKey]: the 20-byte form *)

Lemma toBeHex_width_range w v k :
  toBeHex v (Some w) = Return k → 0 ≤ v < 256 ^ Z.of_nat w.
Proof.
  unfold toBeHex. destruct (Z.ltb_spec v 0); [done|].
  unfold toString16. rewrite length_fmap, length_digitsOf.
  destruct (Nat.ltb_spec (w * 2) (hexWidth v)); [done|]. intros _.
  split; [done|]. pose proof (hexWidth_bound v ltac:(done)) as Hb.
  eapply Z.lt_le_trans; [exact Hb|].
  replace (Z.of_nat w) with (Z.of_nat w * 1) by lia.
  change 256 with (16 ^ 2). rewrite <-Z.pow_mul_r by lia.
  apply Z.pow_le_mono_r; lia.
Qed.

Lemma toBeHex_width_fault w v :
  v < 0 ∨ 256 ^ Z.of_nat w ≤ v → toBeHex v (Some w) = Throw NUMERIC_FAULT.
Proof.
  intros Hv. destruct (toBeHex v (Some w)) as [k|e] eqn:E.
  - apply toBeHex_width_range in E. lia.
  - unfold toBeHex in E. destruct (v <? 0); [congruence|].
    destruct (_ <? _)%nat; congruence.
Qed.

Lemma hexlify_bytesBE_digits n v :
  hexlify (bytesBE n v) = js "0x" ++ (hexChar <$> digitsOf (2 * n) v).
Proof. by rewrite hexlify_nibbles, nibbles_bytesBE by apply bytesBE_bytes. Qed.

(** X16.  For a secret [v] in the range of an address, [normalizeGroupKey]
    returns a string of 42 code units that starts with [0x]; its 40
    digits spell the 20 big-endian bytes of [v]; [BigInt] reads [v] back
    from it; and normalizing the string again gives the same string. *)
Theorem normalizeGroupKey_canonical v :
  0 ≤ v < 2 ^ 160 →
  ∃ k, normalizeGroupKey (inr v) = Return k ∧
       length k = 42%nat ∧
       startsWith0x k = true ∧
       getBytes k = Return (bytesBE 20 v) ∧
       BigInt k = Return v ∧
       normalizeGroupKey (inl k) = Return k.
Proof.
  intros Hv. exists (hexlify (bytesBE 20 v)).
  assert (Hnorm : normalizeGroupKey (inr v) = Return (hexlify (bytesBE 20 v))).
  { cbn [normalizeGroupKey mbind Js_bind]. apply toBeHex_width; [lia|exact Hv]. }
  assert (Hback : BigInt (hexlify (bytesBE 20 v)) = Return v).
  { rewrite BigInt_hexlify; [|apply bytesBE_bytes|by intros H%(f_equal length)].
    rewrite beValue_bytesBE. f_equal. apply Z.mod_small. exact Hv. }
  split; [exact Hnorm|]. split.
  { rewrite hexlify_bytesBE_digits, length_app, length_fmap, length_digitsOf. done. }
  split; [done|]. split; [apply getBytes_hexlify, bytesBE_bytes|].
  split; [exact Hback|].
  unfold normalizeGroupKey in *. rewrite Hback. exact Hnorm.
Qed.

(** X17.  [normalizeGroupKey] fails with the library's NUMERIC_FAULT
    exactly for the integers below 0 and from 2^160 on, and with a
    SyntaxError exactly for the strings that [BigInt] does not read as an
    integer; a string is normalized as the integer it denotes. *)
Theorem normalizeGroupKey_rejects :
  (∀ v, normalizeGroupKey (inr v) = Throw NUMERIC_FAULT ↔ v < 0 ∨ 2 ^ 160 ≤ v) ∧
  (∀ s, normalizeGroupKey (inl s) = Throw SyntaxError ↔ StringToBigInt s = None) ∧
  (∀ s v, StringToBigInt s = Some v →
          normalizeGroupKey (inl s) = normalizeGroupKey (inr v)).
Proof.
  assert (Hint : ∀ v, normalizeGroupKey (inr v) = Throw NUMERIC_FAULT
                      ↔ v < 0 ∨ 2 ^ 160 ≤ v).
  { intros v. cbn [normalizeGroupKey mbind Js_bind]. split.
    - intros Hthrow.
      destruct (Z.ltb_spec v 0) as [|Hv0]; [by left|].
      destruct (Z.leb_spec (2 ^ 160) v) as [|Hv1]; [by right|].
      rewrite toBeHex_width in Hthrow; [done|lia|].
      split; [done|exact Hv1].
    - intros Hv. apply toBeHex_width_fault. exact Hv. }
  split; [exact Hint|]. split.
  - intros s. unfold normalizeGroupKey, BigInt.
    destruct (StringToBigInt s) as [v|]; cbn [mbind Js_bind]; [|done].
    split; [|done]. intros Hthrow.
    destruct (toBeHex v (Some 20%nat)) as [k|e] eqn:E; [done|].
    unfold toBeHex in E. destruct (v <? 0); [congruence|].
    destruct (_ <? _)%nat; congruence.
  - intros s v Hs. unfold normalizeGroupKey, BigInt. by rewrite Hs.
Qed.

(** ** Hexadecimal strings in either case *)

Ltac split_tests :=
  repeat match goal with
         | |- context [(?a <=? ?b)] => destruct (Z.leb_spec a b)
         | |- context [(?a <? ?b)] => destruct (Z.ltb_spec a b)
         | H : context [(?a <=? ?b)] |- _ => destruct (Z.leb_spec a b)
         | H : context [(?a <? ?b)] |- _ => destruct (Z.ltb_spec a b)
         end.

Lemma isHexDigit_digitOf c :
  isHexDigit c = true →
  ∃ d, digitOf 16 c = Some d ∧ 0 ≤ d < 16 ∧ hexChar d = asciiLower c.
Proof.
  unfold isHexDigit, digitOf, asciiLower. intros Hc.
  split_tests; simpl in *; try done; try lia;
    (eexists; split; [reflexivity|]; unfold hexChar; split; [lia|]; split_tests; lia).
Qed.

Lemma digitOf_isHexDigit c :
  isHexDigit c = false → digitOf 16 c = None.
Proof.
  unfold isHexDigit, digitOf. intros Hc.
  split_tests; simpl in *; try done; lia.
Qed.

Lemma isHexDigit_not_space c :
  isHexDigit c = true → isStrWhiteSpaceChar c = false.
Proof.
  intros Hc. assert (48 ≤ c < 48 + 55).
  { unfold isHexDigit in Hc. split_tests; simpl in *; try done; lia. }
  revert Hc. by_cases_on c 48 55%nat; done.
Qed.

Lemma digitsOf_foldl ds :
  Forall (λ d, 0 ≤ d < 16) ds →
  0 ≤ foldl (λ a d, a * 16 + d) 0 ds < 16 ^ Z.of_nat (length ds) ∧
  digitsOf (length ds) (foldl (λ a d, a * 16 + d) 0 ds) = ds.
Proof.
  induction ds as [|d ds IH] using rev_ind; intros Hds; [done|].
  apply Forall_app in Hds as [Hds Hd%Forall_inv].
  destruct (IH Hds) as [Hrange Hdigits].
  rewrite foldl_app, length_app, Nat.add_1_r. cbn [foldl length digitsOf].
  set (v := foldl _ 0 ds) in *.
  replace ((v * 16 + d) / 16) with v by (Z.div_mod_to_equations; lia).
  replace ((v * 16 + d) mod 16) with d by (Z.div_mod_to_equations; lia).
  rewrite Hdigits. split; [|done].
  rewrite Nat2Z.inj_succ, Z.pow_succ_r by lia. lia.
Qed.

Lemma digitsValue_any_case ds :
  forallb isHexDigit ds = true →
  ∃ dv, length dv = length ds ∧
        Forall (λ d, 0 ≤ d < 16) dv ∧
        hexChar <$> dv = asciiLower <$> ds ∧
        ∀ acc, digitsValue 16 acc ds = Some (foldl (λ a d, a * 16 + d) acc dv).
Proof.
  induction ds as [|c ds IH]; intros Hds.
  - by exists [].
  - cbn [forallb] in Hds. apply andb_true_iff in Hds as [Hc Hds].
    destruct (isHexDigit_digitOf c Hc) as (d & Hd & Hrange & Hlow).
    destruct (IH Hds) as (dv & Hlen & Hdv & Hchars & Hval).
    exists (d :: dv). split; [simpl; by rewrite Hlen|].
    split; [by constructor|]. split; [cbn [fmap list_fmap]; by rewrite Hlow, Hchars|].
    intros acc. cbn [digitsValue foldl]. rewrite Hd. cbn [mbind option_bind].
    apply Hval.
Qed.

Lemma trim_plain s :
  (∀ c, head s = Some c → isStrWhiteSpaceChar c = false) →
  (∀ c, last s = Some c → isStrWhiteSpaceChar c = false) →
  trim s = s.
Proof.
  intros Hhead Hlast. unfold trim. destruct s as [|c s]; [done|].
  rewrite trimStart_id by by apply Hhead.
  destruct (reverse (c :: s)) as [|d r] eqn:E.
  { apply (f_equal length) in E. by rewrite length_reverse in E. }
  rewrite trimStart_id.
  - by rewrite <-E, reverse_involutive.
  - apply Hlast. apply (f_equal reverse) in E.
    rewrite reverse_involutive, reverse_cons in E. rewrite E. apply last_snoc.
Qed.

(** X18.  Reading is case-blind and writing is lower-case: for up to 40
    hexadecimal digits after [0x], in either case, [normalizeGroupKey]
    returns [0x], zeros up to 40 digits, and the given digits with the
    letters in lower case. *)
Theorem normalizeGroupKey_lower_case ds :
  ds ≠ [] → (length ds ≤ 40)%nat → forallb isHexDigit ds = true →
  normalizeGroupKey (inl (js "0x" ++ ds))
  = Return (js "0x" ++ replicate (40 - length ds) 48 ++ (asciiLower <$> ds)).
Proof.
  intros Hne Hlen Hds.
  destruct (digitsValue_any_case ds Hds) as (dv & Hdvlen & Hdv & Hchars & Hval).
  destruct (digitsOf_foldl dv Hdv) as [Hrange Hdigits].
  set (v := foldl (λ a d, a * 16 + d) 0 dv) in *.
  assert (Hread : BigInt (js "0x" ++ ds) = Return v).
  { unfold BigInt, StringToBigInt. rewrite trim_plain.
    - change (js "0x" ++ ?s) with (48 :: 120 :: s). cbn [Z.eqb Pos.eqb orb].
      unfold parseDigits. destruct ds as [|c ds']; [done|]. by rewrite Hval.
    - by intros c [= <-].
    - intros c Hc. apply isHexDigit_not_space.
      change (js "0x" ++ ds) with ([48; 120] ++ ds) in Hc.
      destruct ds as [|c0 ds' _] using rev_ind; [done|].
      rewrite app_assoc, last_snoc in Hc. injection Hc as <-.
      rewrite forallb_app in Hds. cbn [forallb] in Hds.
      by apply andb_true_iff in Hds as [_ [Hc _]%andb_true_iff]. }
  assert (Hpow : 16 ^ Z.of_nat (length dv) ≤ 256 ^ Z.of_nat 20).
  { change 256 with (16 ^ 2). rewrite <-Z.pow_mul_r by lia.
    apply Z.pow_le_mono_r; lia. }
  unfold normalizeGroupKey. rewrite Hread. cbn [mbind Js_bind].
  rewrite toBeHex_width by lia. rewrite hexlify_bytesBE_digits. do 2 f_equal.
  replace (2 * 20)%nat with ((40 - length dv) + length dv)%nat by lia.
  rewrite digitsOf_pad by done.
  by rewrite Hdigits, fmap_app, fmap_replicate, Hchars, Hdvlen.
Qed.

(** ** How long an encoding is *)

Lemma length_utf8EncodeCodePoint cp :
  length (utf8EncodeCodePoint cp)
  = if cp <=? 0x7F then 1%nat else if cp <=? 0x7FF then 2%nat
    else if cp <=? 0xFFFF then 3%nat else 4%nat.
Proof. unfold utf8EncodeCodePoint. by repeat case_match. Qed.

Lemma length_TextEncoder_encode s :
  Forall isCodeUnit s →
  (length s ≤ length (TextEncoder_encode s) ≤ 3 * length s)%nat.
Proof.
  unfold TextEncoder_encode.
  induction s as [s IH] using (induction_ltof1 _ length). unfold ltof in IH.
  destruct s as [|c rest]; [done|]. intros [Hc Hrest]%Forall_cons.
  unfold isCodeUnit in Hc. cbn [toScalarValues].
  destruct (isLeadSurrogate c) eqn:Hlead.
  - apply isLeadSurrogate_true in Hlead.
    destruct rest as [|d rest']; [simpl; lia|].
    pose proof Hrest as [Hd Hrest']%Forall_cons. unfold isCodeUnit in Hd.
    destruct (isTrailSurrogate d) eqn:Htrail.
    + apply isTrailSurrogate_true in Htrail.
      rewrite bind_cons, length_app, length_utf8EncodeCodePoint.
      pose proof (IH rest' ltac:(simpl; lia) Hrest').
      repeat case_match; simpl; lia.
    + rewrite bind_cons, length_app.
      pose proof (IH (d :: rest') ltac:(simpl; lia) Hrest).
      simpl in *. lia.
  - pose proof (IH rest ltac:(simpl; lia) Hrest).
    destruct (isTrailSurrogate c) eqn:Htrail.
    + rewrite bind_cons, length_app. simpl in *. lia.
    + rewrite bind_cons, length_app, length_utf8EncodeCodePoint.
      repeat case_match; simpl in *; lia.
Qed.

Lemma TextEncoder_encode_ascii s :
  Forall (λ u, 0 ≤ u ≤ 0x7F) s → TextEncoder_encode s = s.
Proof.
  unfold TextEncoder_encode. induction 1 as [|c rest Hc _ IH]; [done|].
  cbn [toScalarValues].
  assert (isLeadSurrogate c = false) as -> by (apply isLeadSurrogate_false; lia).
  assert (isTrailSurrogate c = false) as -> by (apply isTrailSurrogate_false; lia).
  rewrite bind_cons, IH. unfold utf8EncodeCodePoint.
  by destruct (Z.leb_spec c 0x7F); [|lia].
Qed.

Lemma mapXor_recover p kb :
  Forall isByte p → Forall isByte kb → length kb = length p →
  mapXor (mapXor p kb) p = kb.
Proof.
  intros Hp Hkb Hlen. apply list_eq. intros i. unfold mapXor.
  rewrite !list_lookup_imap. unfold at_.
  destruct (p !! i) as [x|] eqn:Hx; simpl.
  - destruct (lookup_lt_is_Some_2 kb i) as [y Hy];
      [rewrite Hlen; by eapply lookup_lt_Some|].
    rewrite Hy. simpl. f_equal.
    pose proof (Forall_lookup_1 _ _ _ _ Hp Hx) as Hbx.
    pose proof (Forall_lookup_1 _ _ _ _ Hkb Hy) as Hby.
    rewrite (lxor_byte x y) by done.
    rewrite (Z.lxor_comm x y), Z.lxor_assoc, Z.lxor_nilpotent, Z.lxor_0_r.
    by apply Z.mod_small.
  - symmetry. apply lookup_ge_None_2. rewrite Hlen. by apply lookup_ge_None_1.
Qed.

Lemma lookup_mapXor p kb i :
  mapXor p kb !! i = (λ x, Z.lxor x (at_ kb i) mod 256) <$> p !! i.
Proof. unfold mapXor. by rewrite list_lookup_imap. Qed.

Lemma mapXor_same_key p q kb :
  Forall isByte p → Forall isByte q → Forall isByte kb → length q = length p →
  mapXor (mapXor p kb) (mapXor q kb) = mapXor p q.
Proof.
  intros Hp Hq Hkb Hlen. apply list_eq. intros i.
  rewrite !lookup_mapXor.
  destruct (p !! i) as [x|] eqn:Hx; simpl; [|done].
  destruct (lookup_lt_is_Some_2 q i) as [y Hy];
    [rewrite Hlen; by eapply lookup_lt_Some|].
  assert (at_ (mapXor q kb) i = Z.lxor y (at_ kb i) mod 256) as ->
    by (unfold at_ at 1; by rewrite lookup_mapXor, Hy).
  assert (at_ q i = y) as -> by (unfold at_; by rewrite Hy).
  f_equal.
  pose proof (Forall_lookup_1 _ _ _ _ Hp Hx) as Hbx.
  pose proof (Forall_lookup_1 _ _ _ _ Hq Hy) as Hby.
  pose proof (at_bytes kb i Hkb) as Hbk. set (k := at_ kb i) in *.
  rewrite (lxor_byte x k), (lxor_byte y k) by done.
  f_equal. rewrite (Z.lxor_comm y k), Z.lxor_assoc, <-(Z.lxor_assoc k k y).
  by rewrite Z.lxor_nilpotent, Z.lxor_0_l.
Qed.

Section CoverageWithDigest.

Variable keccak256Digest : list Z → list Z.

Abbreviation deriveKeyBytes := (Messages.deriveKeyBytes keccak256Digest).
Abbreviation sealMessage := (Messages.sealMessage keccak256Digest).
Abbreviation openMessage := (Messages.openMessage keccak256Digest).
Abbreviation openedBlock := (Messages.openedBlock keccak256Digest).
Abbreviation keccak256 := (Messages.keccak256 keccak256Digest).

(** ** Which messages fit *)

(** X19.  A message of [n] UTF-16 code units encodes to at least [n] and
    at most [3 n] bytes.  So, under a key the derivation accepts,
    [sealMessage] seals every message of at most 10 code units, rejects
    every message of more than 31 code units as too long, and seals a
    message of ASCII characters exactly when it has at most 31 of them. *)
Theorem sealMessage_by_length m k kb :
  Forall isCodeUnit m →
  deriveKeyBytes k = Return kb →
  (length m ≤ length (TextEncoder_encode m) ≤ 3 * length m)%nat ∧
  ((length m ≤ 10)%nat → ∃ c, sealMessage m k = Return c) ∧
  ((31 < length m)%nat →
   sealMessage m k = Throw (Error "Message too long. Limit 31 bytes")) ∧
  (Forall (λ u, 0 ≤ u ≤ 0x7F) m →
   TextEncoder_encode m = m ∧
   ((length m ≤ 31)%nat ↔ ∃ c, sealMessage m k = Return c)).
Proof.
  intros Hm Hk. pose proof (length_TextEncoder_encode m Hm) as Hlen.
  split; [exact Hlen|]. split; [|split].
  - intros Hshort. eexists.
    apply (sealMessage_short keccak256Digest m k kb Hk).
    unfold MAX_MESSAGE_BYTES, KEY_BYTES. simpl. lia.
  - intros Hlong. apply (sealMessage_long keccak256Digest m k kb Hk).
    unfold MAX_MESSAGE_BYTES, KEY_BYTES. simpl. lia.
  - intros Hascii. pose proof (TextEncoder_encode_ascii m Hascii) as Henc.
    split; [exact Henc|]. split.
    + intros Hshort. eexists.
      apply (sealMessage_short keccak256Digest m k kb Hk). by rewrite Henc.
    + intros [c Hc]. destruct (le_lt_dec (length m) 31) as [|Hlong]; [done|].
      rewrite (sealMessage_long keccak256Digest m k kb Hk) in Hc; [done|].
      rewrite Henc. unfold MAX_MESSAGE_BYTES, KEY_BYTES. simpl. lia.
Qed.

(** ** Sealing is a byte-wise XOR with the key stream *)

Lemma sealMessage_Return m k c :
  Forall isCodeUnit m →
  sealMessage m k = Return c →
  ∃ kb, deriveKeyBytes k = Return kb ∧
        Forall isByte kb ∧
        (length (TextEncoder_encode m) ≤ MAX_MESSAGE_BYTES)%nat ∧
        Forall isByte (block (TextEncoder_encode m)) ∧
        length (block (TextEncoder_encode m)) = KEY_BYTES ∧
        bytesBE KEY_BYTES c = mapXor (block (TextEncoder_encode m)) kb.
Proof.
  intros Hm Hseal.
  destruct (deriveKeyBytes k) as [kb|e] eqn:Hk;
    [|by unfold Messages.sealMessage in Hseal; rewrite Hk in Hseal].
  exists kb. split; [done|].
  split; [by eapply deriveKeyBytes_bytes|].
  destruct (le_lt_dec (length (TextEncoder_encode m)) MAX_MESSAGE_BYTES) as [Hlen|Hlong];
    [|by rewrite (sealMessage_long keccak256Digest m k kb Hk Hlong) in Hseal].
  split; [done|].
  split; [by apply block_bytes, TextEncoder_encode_bytes|].
  pose proof (length_block _ Hlen) as Hblen. split; [done|].
  rewrite (sealMessage_short keccak256Digest m k kb Hk Hlen) in Hseal.
  assert (c = beValue (mapXor (block (TextEncoder_encode m)) kb)) as -> by congruence.
  rewrite <-Hblen, <-(length_mapXor (block (TextEncoder_encode m)) kb).
  apply bytesBE_beValue, mapXor_bytes.
Qed.

Lemma block_inj e1 e2 :
  (length e1 ≤ MAX_MESSAGE_BYTES)%nat → (length e2 ≤ MAX_MESSAGE_BYTES)%nat →
  block e1 = block e2 → e1 = e2.
Proof.
  intros H1 H2 Heq. rewrite <-(slice_block e1 H1), <-(slice_block e2 H2).
  by rewrite Heq.
Qed.

Lemma TextEncoder_encode_inj m1 m2 :
  Forall isCodeUnit m1 → Forall isCodeUnit m2 →
  isWellFormed m1 = true → isWellFormed m2 = true →
  TextEncoder_encode m1 = TextEncoder_encode m2 → m1 = m2.
Proof.
  intros H1 H2 Hwf1 Hwf2 Heq. unfold TextEncoder_encode in Heq.
  apply (f_equal (utf8DecodeFrom utf8Initial)) in Heq.
  rewrite !utf8DecodeFrom_encoded in Heq by by apply toScalarValues_scalars.
  rewrite <-(utf16_of_toScalarValues m1), <-(utf16_of_toScalarValues m2) by done.
  by rewrite Heq.
Qed.

(** X20.  Under one key, different messages never seal to the same
    cipher value: two messages with the same cipher value have the same
    UTF-8 encoding, and are the same string when both are well formed. *)
Theorem sealMessage_injective m1 m2 k c :
  Forall isCodeUnit m1 → Forall isCodeUnit m2 →
  sealMessage m1 k = Return c →
  sealMessage m2 k = Return c →
  TextEncoder_encode m1 = TextEncoder_encode m2 ∧
  (isWellFormed m1 = true → isWellFormed m2 = true → m1 = m2).
Proof.
  intros H1 H2 Hc1 Hc2.
  destruct (sealMessage_Return m1 k c H1 Hc1) as (kb & Hk & Hkb & Hlen1 & Hb1 & _ & Hx1).
  destruct (sealMessage_Return m2 k c H2 Hc2) as (kb' & Hk' & _ & Hlen2 & Hb2 & _ & Hx2).
  assert (kb' = kb) as -> by congruence.
  assert (Henc : TextEncoder_encode m1 = TextEncoder_encode m2).
  { apply block_inj; [done..|].
    rewrite <-(mapXor_twice (block (TextEncoder_encode m1)) kb) by done.
    rewrite <-(mapXor_twice (block (TextEncoder_encode m2)) kb) by done.
    by rewrite <-Hx1, <-Hx2. }
  split; [exact Henc|]. intros Hwf1 Hwf2. by apply TextEncoder_encode_inj.
Qed.

(** X21.  The cipher value hides a message only behind a fixed key
    stream.  Whoever knows one message and its cipher value computes the
    key stream: the XOR of the cipher's 32 bytes with the message's block.
    And the XOR of two cipher values sealed under one key is the XOR of
    the two messages' blocks, whatever the key is. *)
Theorem sealMessage_reveals_key_stream m k kb c :
  Forall isCodeUnit m →
  deriveKeyBytes k = Return kb →
  length kb = KEY_BYTES →
  sealMessage m k = Return c →
  mapXor (bytesBE KEY_BYTES c) (block (TextEncoder_encode m)) = kb ∧
  ∀ m' c',
    Forall isCodeUnit m' →
    sealMessage m' k = Return c' →
    mapXor (bytesBE KEY_BYTES c) (bytesBE KEY_BYTES c')
    = mapXor (block (TextEncoder_encode m)) (block (TextEncoder_encode m')).
Proof.
  intros Hm Hk Hlen Hc.
  destruct (sealMessage_Return m k c Hm Hc) as (kb0 & Hk0 & Hkb & _ & Hb & Hblen & Hx).
  assert (kb0 = kb) as -> by congruence.
  split.
  - rewrite Hx. apply mapXor_recover; [done..|]. by rewrite Hblen.
  - intros m' c' Hm' Hc'.
    destruct (sealMessage_Return m' k c' Hm' Hc')
      as (kb' & Hk' & _ & _ & Hb' & Hblen' & Hx').
    assert (kb' = kb) as -> by congruence.
    rewrite Hx, Hx'. apply mapXor_same_key; [done..|]. by rewrite Hblen, Hblen'.
Qed.

(** ** The interface's path: a normalized key and a trimmed text *)

Lemma whiteSpace_plain c :
  isStrWhiteSpaceChar c = true →
  isLeadSurrogate c = false ∧ isTrailSurrogate c = false ∧ isCodeUnit c.
Proof using Type.
  intros H. apply bool_decide_eq_true in H.
  repeat (apply elem_of_cons in H as [->|H]; [by unfold isCodeUnit|]).
  by apply elem_of_nil in H.
Qed.

Lemma trimStart_split s :
  ∃ pre, s = pre ++ trimStart s ∧
         Forall (λ c, isStrWhiteSpaceChar c = true) pre ∧
         ∀ c, head (trimStart s) = Some c → isStrWhiteSpaceChar c = false.
Proof using Type.
  induction s as [|c s (pre & Hs & Hpre & Hhead)].
  - by exists [].
  - cbn [trimStart]. destruct (isStrWhiteSpaceChar c) eqn:Hc.
    + exists (c :: pre). split; [simpl; by rewrite <-Hs|]. by split; [constructor|].
    + exists []. split; [done|]. split; [done|]. by intros c' [= <-].
Qed.

Lemma trim_split s :
  ∃ pre post,
    s = pre ++ trim s ++ post ∧
    Forall (λ c, isStrWhiteSpaceChar c = true) pre ∧
    Forall (λ c, isStrWhiteSpaceChar c = true) post ∧
    ∀ c, head (trim s) = Some c → isStrWhiteSpaceChar c = false.
Proof using Type.
  destruct (trimStart_split s) as (pre & Hs & Hpre & Hhead).
  destruct (trimStart_split (reverse (trimStart s))) as (post & Hr & Hpost & _).
  unfold trim. set (u := trimStart (reverse (trimStart s))) in *.
  assert (Ht : trimStart s = reverse u ++ reverse post).
  { by rewrite <-reverse_app, <-Hr, reverse_involutive. }
  exists pre, (reverse post). split; [by rewrite <-Ht|].
  split; [done|]. split; [by apply Forall_reverse|].
  intros c Hc. apply Hhead. rewrite Ht.
  by destruct (reverse u).
Qed.

Lemma isWellFormed_cons_plain c s :
  isLeadSurrogate c = false → isTrailSurrogate c = false →
  isWellFormed (c :: s) = isWellFormed s.
Proof using Type. intros Hl Ht. cbn [isWellFormed]. by rewrite Hl, Ht. Qed.

Lemma isWellFormed_snoc_plain s c :
  isLeadSurrogate c = false → isTrailSurrogate c = false →
  isWellFormed (s ++ [c]) = isWellFormed s.
Proof using Type.
  intros Hl Ht.
  induction s as [s IH] using (induction_ltof1 _ length). unfold ltof in IH.
  destruct s as [|a rest]; [simpl; by rewrite Hl, Ht|].
  cbn [app isWellFormed]. destruct (isLeadSurrogate a).
  - destruct rest as [|d rest']; [simpl; by rewrite Ht|].
    cbn [app]. by rewrite IH by (simpl; lia).
  - by rewrite IH by (simpl; lia).
Qed.

Lemma isWellFormed_trim s : isWellFormed (trim s) = isWellFormed s.
Proof using Type.
  destruct (trim_split s) as (pre & post & Hs & Hpre & Hpost & _).
  rewrite Hs at 2. clear Hs.
  induction Hpre as [|c pre Hc _ IH].
  - cbn [app]. induction post as [|c post IH] using rev_ind;
      [by rewrite app_nil_r|].
    apply Forall_app in Hpost as [Hpost Hc%Forall_inv].
    destruct (whiteSpace_plain c Hc) as (Hl & Ht & _).
    rewrite app_assoc, isWellFormed_snoc_plain by done. by apply IH.
  - destruct (whiteSpace_plain c Hc) as (Hl & Ht & _).
    cbn [app]. by rewrite isWellFormed_cons_plain.
Qed.

Lemma trim_code_units s : Forall isCodeUnit s → Forall isCodeUnit (trim s).
Proof using Type.
  destruct (trim_split s) as (pre & post & Hs & _). intros H. rewrite Hs in H.
  by apply Forall_app in H as [_ [H _]%Forall_app].
Qed.

Lemma head_trim s : head (trim s) ≠ Some 0xFEFF.
Proof using Type.
  destruct (trim_split s) as (pre & post & _ & _ & _ & Hhead).
  intros H. by apply Hhead in H.
Qed.

Section CoverageKeyed.

(** The digest is 32 bytes. *)
Hypothesis keccak256Digest_bytes :
  ∀ data, length (keccak256Digest data) = 32%nat ∧ Forall isByte (keccak256Digest data).

Lemma normalizeGroupKey_Return value k :
  normalizeGroupKey value = Return k →
  ∃ v, 0 ≤ v < 2 ^ 160 ∧ k = hexlify (bytesBE 20 v) ∧
       deriveKeyBytes k = Return (keccak256Digest (bytesBE 20 v)).
Proof using keccak256Digest_bytes.
  unfold normalizeGroupKey.
  destruct (match value with inl s => BigInt s | inr v => Return v end) as [v|];
    [|done].
  cbn [mbind Js_bind]. intros Hk.
  pose proof (toBeHex_width_range _ _ _ Hk) as Hv.
  rewrite toBeHex_width in Hk by (done || lia).
  assert (k = hexlify (bytesBE 20 v)) as -> by congruence.
  exists v. split; [exact Hv|]. split; [done|].
  destruct (normalizeGroupKey_accepted keccak256Digest keccak256Digest_bytes v Hv)
    as (k' & Hk' & _ & _ & Hderive).
  cbn [normalizeGroupKey mbind Js_bind] in Hk'.
  rewrite toBeHex_width in Hk' by (done || lia).
  by assert (k' = hexlify (bytesBE 20 v)) as <- by congruence.
Qed.

(** X22.  The interface's path round-trips without a condition on the
    first character: with the key [normalizeGroupKey] wrote for the
    decrypted group secret, and for every well-formed text whose trimmed
    form encodes to at most 31 bytes, [sealMessage] of the trimmed text
    returns a value below 2^256, and [openMessage] of that value returns
    the trimmed text. *)
Theorem interface_round_trip value k text :
  normalizeGroupKey value = Return k →
  Forall isCodeUnit text →
  isWellFormed text = true →
  (length (TextEncoder_encode (trim text)) ≤ 31)%nat →
  ∃ c, sealMessage (trim text) k = Return c ∧
       0 ≤ c < 2 ^ 256 ∧
       openMessage c k = Return (trim text).
Proof using keccak256Digest_bytes.
  intros (v & _ & _ & Hk)%normalizeGroupKey_Return Htext Hwf Hlen.
  pose proof (trim_code_units text Htext) as Hunits.
  destruct (openMessage_sealed keccak256Digest (trim text) k _ Hunits Hk Hlen)
    as (c & Hseal & _ & Hopen).
  exists c. split; [exact Hseal|]. split.
  - rewrite (sealMessage_short keccak256Digest (trim text) k _ Hk Hlen) in Hseal.
    assert (c = beValue (mapXor (block (TextEncoder_encode (trim text)))
                                (keccak256Digest (bytesBE 20 v)))) as ->
      by congruence.
    apply mapXor_block_range. by apply length_block.
  - rewrite Hopen. f_equal. apply TextDecoder_decode_encoded; [done| |apply head_trim].
    by rewrite isWellFormed_trim.
Qed.

(** ** Which strings are keys *)

Lemma parseHexPairs_accepts ds :
  parseHexPairs ds = None
  ↔ Nat.even (length ds) && forallb isHexDigit ds = false.
Proof using Type.
  induction ds as [ds IH] using (induction_ltof1 _ length). unfold ltof in IH.
  destruct ds as [|hi [|lo rest]]; [done|done|].
  cbn [parseHexPairs length forallb]. change (Nat.even (S (S ?n))) with (Nat.even n).
  destruct (isHexDigit hi) eqn:Hhi.
  - destruct (isHexDigit_digitOf hi Hhi) as (h & -> & _).
    destruct (isHexDigit lo) eqn:Hlo.
    + destruct (isHexDigit_digitOf lo Hlo) as (l & -> & _).
      cbn [mbind option_bind andb]. rewrite <-IH by (simpl; lia).
      by destruct (parseHexPairs rest).
    + rewrite (digitOf_isHexDigit lo Hlo). cbn [mbind option_bind andb].
      by rewrite andb_false_r.
  - rewrite (digitOf_isHexDigit hi Hhi). cbn [mbind option_bind andb].
    by rewrite andb_false_r.
Qed.

Lemma startsWith0x_drop k :
  startsWith0x k = true → ∃ digits, k = 48 :: 120 :: digits.
Proof using Type.
  destruct k as [|c0 [|c1 digits]]; [done..|]. cbn [startsWith0x].
  intros [->%Z.eqb_eq ->%Z.eqb_eq]%andb_true_iff. by exists digits.
Qed.

(** X24.  Which strings the codec takes as a key.  A string that starts
    with [0x] is a key exactly when an even number of hexadecimal digits
    (in either case) follows; otherwise the library rejects it with
    INVALID_ARGUMENT.  Any other string is a key exactly when [BigInt]
    reads a non-negative integer from it; otherwise the failure is a
    SyntaxError, or NUMERIC_FAULT for a negative integer.  A key gives a
    stream of 32 bytes; for a string that is no key, [sealMessage] and
    [openMessage] fail with the same error, whatever the message or the
    cipher value is. *)
Theorem deriveKeyBytes_accepts k :
  (startsWith0x k = true →
   if Nat.even (length k) && forallb isHexDigit (drop 2 k)
   then ∃ kb, deriveKeyBytes k = Return kb ∧ length kb = 32%nat
   else deriveKeyBytes k = Throw INVALID_ARGUMENT) ∧
  (startsWith0x k = false →
   match StringToBigInt k with
   | None => deriveKeyBytes k = Throw SyntaxError
   | Some v =>
     if v <? 0 then deriveKeyBytes k = Throw NUMERIC_FAULT
     else ∃ kb, deriveKeyBytes k = Return kb ∧ length kb = 32%nat
   end) ∧
  (∀ e, deriveKeyBytes k = Throw e →
        (∀ m, sealMessage m k = Throw e) ∧ (∀ c, openMessage c k = Throw e)).
Proof using keccak256Digest_bytes.
  assert (Hhash : ∀ bytes, keyMaterial k = Return bytes →
                    ∃ kb, deriveKeyBytes k = Return kb ∧ length kb = 32%nat).
  { intros bytes Hbytes. exists (keccak256Digest bytes).
    rewrite deriveKeyBytes_keyMaterial, Hbytes. cbn [mbind Js_bind].
    split; [apply getBytes_hexlify|]; apply keccak256Digest_bytes. }
  assert (Hthrow : ∀ e, keyMaterial k = Throw e → deriveKeyBytes k = Throw e).
  { intros e He. by rewrite deriveKeyBytes_keyMaterial, He. }
  split; [|split].
  - intros H0x. destruct (startsWith0x_drop k H0x) as [digits ->].
    cbn [length drop]. rewrite drop_0.
    change (Nat.even (S (S ?n))) with (Nat.even n).
    destruct (Nat.even (length digits) && forallb isHexDigit digits) eqn:Hok.
    + destruct (parseHexPairs digits) as [bytes|] eqn:Hparse;
        [|apply parseHexPairs_accepts in Hparse; congruence].
      apply (Hhash bytes). unfold keyMaterial, getBytes. by rewrite H0x, Hparse.
    + apply parseHexPairs_accepts in Hok. apply Hthrow.
      unfold keyMaterial, getBytes. by rewrite H0x, Hok.
  - intros H0x. unfold keyMaterial, BigInt in *. rewrite H0x in *.
    destruct (StringToBigInt k) as [v|]; cbn [mbind Js_bind] in *;
      [|by apply Hthrow].
    destruct (v <? 0); [by apply Hthrow|]. by eapply Hhash.
  - intros e He. split.
    + intros m. unfold Messages.sealMessage. by rewrite He.
    + intros c. unfold Messages.openMessage. by rewrite He.
Qed.

End CoverageKeyed.

(** ** What comes back in general *)

Lemma utf16EncodeCodePoint_head cp :
  isScalarValue cp → cp ≠ 0xFEFF →
  ∃ u us, utf16EncodeCodePoint cp = u :: us ∧ u ≠ 0xFEFF.
Proof using Type.
  intros [Hrange Hsur] Hne. unfold utf16EncodeCodePoint.
  destruct (Z.leb_spec cp 0xFFFF); [by eexists _, _|].
  eexists _, _. split; [done|].
  rewrite Z.shiftr_div_pow2 by lia. change (2 ^ 10) with 1024.
  Z.div_mod_to_equations. lia.
Qed.

Lemma stripBOM_scalars cps :
  Forall isScalarValue cps →
  match cps with
  | c :: rest => if c =? 0xFEFF then rest else cps
  | [] => []
  end ≫= utf16EncodeCodePoint
  = stripBOM (cps ≫= utf16EncodeCodePoint).
Proof using Type.
  intros [|cp cps' Hcp _]; [done|].
  destruct (Z.eqb_spec cp 0xFEFF) as [->|Hne]; [done|].
  rewrite bind_cons.
  destruct (utf16EncodeCodePoint_head cp Hcp Hne) as (u & us & -> & Hu).
  cbn [app stripBOM]. by destruct (Z.eqb_spec u 0xFEFF).
Qed.

Lemma TextDecoder_decode_encode m :
  Forall isCodeUnit m →
  TextDecoder_decode (TextEncoder_encode m) = stripBOM (toWellFormed m).
Proof using Type.
  intros Hm. pose proof (toScalarValues_scalars m Hm) as Hs.
  unfold TextDecoder_decode, TextEncoder_encode, toWellFormed.
  rewrite utf8DecodeFrom_encoded by done. by apply stripBOM_scalars.
Qed.

Lemma utf16EncodeCodePoint_cases cp :
  isScalarValue cp →
  (cp ≤ 0xFFFF ∧ utf16EncodeCodePoint cp = [cp] ∧
   isLeadSurrogate cp = false ∧ isTrailSurrogate cp = false)
  ∨ (∃ hi lo, utf16EncodeCodePoint cp = [hi; lo] ∧
              isLeadSurrogate hi = true ∧ isTrailSurrogate lo = true).
Proof using Type.
  intros [Hrange Hsur]. unfold utf16EncodeCodePoint.
  destruct (Z.leb_spec cp 0xFFFF).
  - left. split; [done|]. split; [done|].
    split; [apply isLeadSurrogate_false|apply isTrailSurrogate_false]; lia.
  - right. eexists _, _. split; [done|].
    rewrite Z.shiftr_div_pow2 by lia. change 0x3FF with (Z.ones 10).
    rewrite Z.land_ones by lia. change (2 ^ 10) with 1024.
    split; [apply isLeadSurrogate_true|apply isTrailSurrogate_true];
      Z.div_mod_to_equations; lia.
Qed.

Lemma isWellFormed_utf16 cps :
  Forall isScalarValue cps → isWellFormed (cps ≫= utf16EncodeCodePoint) = true.
Proof using Type.
  induction 1 as [|cp cps Hcp _ IH]; [done|]. rewrite bind_cons.
  destruct (utf16EncodeCodePoint_cases cp Hcp)
    as [(_ & -> & Hl & Ht)|(hi & lo & -> & Hl & Ht)].
  - cbn [app]. by rewrite isWellFormed_cons_plain.
  - cbn [app isWellFormed]. by rewrite Hl, Ht, IH.
Qed.

Lemma isWellFormed_stripBOM s : isWellFormed s = true → isWellFormed (stripBOM s) = true.
Proof using Type.
  destruct s as [|c rest]; [done|]. cbn [stripBOM].
  destruct (Z.eqb_spec c 0xFEFF) as [->|]; [|done]. by rewrite isWellFormed_cons_plain.
Qed.

Lemma length_toWellFormed s :
  Forall isCodeUnit s → length (toWellFormed s) = length s.
Proof using Type.
  unfold toWellFormed.
  induction s as [s IH] using (induction_ltof1 _ length). unfold ltof in IH.
  destruct s as [|c rest]; [done|]. intros [Hc Hrest]%Forall_cons.
  unfold isCodeUnit in Hc. cbn [toScalarValues].
  assert (Hrepl : utf16EncodeCodePoint 0xFFFD = [0xFFFD]) by done.
  destruct (isLeadSurrogate c) eqn:Hlead.
  - apply isLeadSurrogate_true in Hlead.
    destruct rest as [|d rest']; [done|].
    pose proof Hrest as [Hd Hrest']%Forall_cons. unfold isCodeUnit in Hd.
    destruct (isTrailSurrogate d) eqn:Htrail.
    + apply isTrailSurrogate_true in Htrail.
      rewrite bind_cons, utf16_pair, length_app, IH by (done || simpl; lia). done.
    + rewrite bind_cons, Hrepl, length_app, IH by (done || simpl; lia). done.
  - destruct (isTrailSurrogate c) eqn:Htrail.
    + rewrite bind_cons, Hrepl, length_app, IH by (done || simpl; lia). done.
    + rewrite bind_cons, length_app, IH by (done || simpl; lia).
      unfold utf16EncodeCodePoint. by destruct (Z.leb_spec c 0xFFFF); [|lia].
Qed.

(** X25.  What comes back for any message: under a key the derivation
    accepts, and for every string whose encoding has at most 31 bytes,
    opening the sealed value returns the string with every surrogate that
    is not half of a pair replaced by U+FFFD, and without the byte order
    mark U+FEFF if it started with one.  So the round trip is the
    identity exactly on the well-formed strings that do not start with
    U+FEFF. *)
Theorem openMessage_sealMessage_general m k kb :
  Forall isCodeUnit m →
  deriveKeyBytes k = Return kb →
  (length (TextEncoder_encode m) ≤ 31)%nat →
  ∃ c, sealMessage m k = Return c ∧
       openMessage c k = Return (stripBOM (toWellFormed m)) ∧
       (stripBOM (toWellFormed m) = m
        ↔ isWellFormed m = true ∧ head m ≠ Some 0xFEFF).
Proof using Type.
  intros Hm Hk Hlen.
  destruct (openMessage_sealed keccak256Digest m k kb Hm Hk Hlen)
    as (c & Hseal & _ & Hopen).
  exists c. split; [exact Hseal|].
  split; [by rewrite Hopen, TextDecoder_decode_encode|].
  split.
  - intros Hid. split.
    + rewrite <-Hid. apply isWellFormed_stripBOM, isWellFormed_utf16.
      by apply toScalarValues_scalars.
    + intros Hbom. destruct m as [|u rest]; [done|]. injection Hbom as ->.
      apply (f_equal length) in Hid.
      pose proof (length_toWellFormed rest (Forall_inv_tail Hm)) as Hl.
      change (toWellFormed (0xFEFF :: rest)) with (0xFEFF :: toWellFormed rest) in Hid.
      cbn [stripBOM Z.eqb Pos.eqb length] in Hid. lia.
  - intros [Hwf Hbom]. rewrite <-TextDecoder_decode_encode by done.
    by apply TextDecoder_decode_encoded.
Qed.

(** ** What [openMessage] can return *)

Lemma length_utf16EncodeCodePoint cp :
  (length (utf16EncodeCodePoint cp) ≤ 2)%nat ∧
  (cp ≤ 0xFFFF → length (utf16EncodeCodePoint cp) = 1%nat).
Proof using Type.
  unfold utf16EncodeCodePoint.
  destruct (Z.leb_spec cp 0xFFFF); simpl; split; lia.
Qed.

Lemma utf8Lead_budget b :
  (length ((utf8Lead b).2 ≫= utf16EncodeCodePoint) + pendingBytes (utf8Lead b).1 ≤ 1)%nat
  ∧ 0 ≤ bytesSeen (utf8Lead b).1.
Proof using Type.
  unfold utf8Lead. repeat case_match; cbn [fst snd]; try done.
  split; [|done]. rewrite bind_cons, length_app.
  rewrite (proj2 (length_utf16EncodeCodePoint b)); [done|].
  match goal with H : _ && _ = true |- _ => apply andb_true_iff in H as [_ H] end.
  lia.
Qed.

Lemma utf8Handler_budget d b :
  0 ≤ bytesSeen d →
  (length ((utf8Handler d b).2 ≫= utf16EncodeCodePoint)
   + pendingBytes (utf8Handler d b).1 ≤ 1 + pendingBytes d)%nat
  ∧ 0 ≤ bytesSeen (utf8Handler d b).1.
Proof using Type.
  intros Hseen. pose proof (utf8Lead_budget b) as [Hlead Hseen'].
  unfold utf8Handler, pendingBytes at 2.
  destruct (Z.eqb_spec (bytesNeeded d) 0) as [Hidle|Hopen].
  - split; [lia|done].
  - destruct (negb _).
    + destruct (utf8Lead b) as [d' out]. cbn [fst snd] in *.
      split; [|done]. rewrite bind_cons, length_app.
      change (length (utf16EncodeCodePoint 65533)) with 1%nat. lia.
    + destruct (Z.eqb_spec (bytesSeen d + 1) (bytesNeeded d)); cbn [fst snd].
      * split; [|done]. rewrite bind_cons, length_app.
        pose proof (proj1 (length_utf16EncodeCodePoint
          (Z.lor (Z.shiftl (codePoint d) 6) (Z.land b 63)))).
        change (length ([] ≫= utf16EncodeCodePoint)) with 0%nat.
        change (pendingBytes utf8Initial) with 0%nat. lia.
      * split; [|simpl; lia]. unfold pendingBytes. cbn [bytesNeeded bytesSeen].
        destruct (Z.eqb_spec (bytesNeeded d) 0); [done|]. simpl. lia.
Qed.

Lemma utf8DecodeFrom_budget d input :
  0 ≤ bytesSeen d →
  (length (utf8DecodeFrom d input ≫= utf16EncodeCodePoint)
   ≤ length input + pendingBytes d)%nat.
Proof using Type.
  revert d. induction input as [|b input IH]; intros d Hseen.
  - cbn [utf8DecodeFrom]. unfold pendingBytes.
    destruct (bytesNeeded d =? 0); simpl; lia.
  - cbn [utf8DecodeFrom]. pose proof (utf8Handler_budget d b Hseen) as [Hstep Hseen'].
    destruct (utf8Handler d b) as [d' out]. cbn [fst snd] in *.
    rewrite bind_app, length_app. pose proof (IH d' Hseen'). simpl. lia.
Qed.

Lemma length_stripBOM s : (length (stripBOM s) ≤ length s)%nat.
Proof using Type.
  destruct s as [|c rest]; [done|]. cbn [stripBOM].
  destruct (c =? 0xFEFF); simpl; lia.
Qed.

Lemma TextDecoder_decode_shape input :
  Forall isByte input →
  isWellFormed (TextDecoder_decode input) = true ∧
  (length (TextDecoder_decode input) ≤ length input)%nat.
Proof using Type.
  intros Hinput.
  pose proof (utf8DecodeFrom_scalars utf8Initial input eq_refl Hinput) as Hs.
  unfold TextDecoder_decode. rewrite stripBOM_scalars by done. split.
  - by apply isWellFormed_stripBOM, isWellFormed_utf16.
  - etrans; [apply length_stripBOM|].
    pose proof (utf8DecodeFrom_budget utf8Initial input ltac:(done)) as Hb.
    change (pendingBytes utf8Initial) with 0%nat in Hb. lia.
Qed.

(** X26.  For every cipher value in [0, 2^256) and every key the
    derivation accepts, the string [openMessage] returns is well formed
    (it holds no surrogate outside a pair) and has at most as many code
    units as the length byte of the opened block says, and never more
    than 31. *)
Theorem openMessage_returns_short_text c k kb :
  0 ≤ c < 2 ^ 256 →
  deriveKeyBytes k = Return kb →
  ∃ plain s,
    openedBlock c k = Return plain ∧
    openMessage c k = Return s ∧
    isWellFormed s = true ∧
    (length s ≤ 31)%nat ∧
    Z.of_nat (length s) ≤ at_ plain 0.
Proof using Type.
  intros Hc Hk.
  pose proof (openedBlock_in_range keccak256Digest c k kb Hk Hc) as Hplain.
  pose proof (openMessage_in_range keccak256Digest c k kb Hk Hc) as Hopen.
  cbv zeta in Hopen. set (plain := mapXor (bytesBE KEY_BYTES c) kb) in *.
  assert (Hlen : length plain = 32%nat)
    by (unfold plain; by rewrite length_mapXor, length_bytesBE).
  assert (Hbytes : Forall isByte plain) by apply mapXor_bytes.
  pose proof (at_bytes plain 0 Hbytes) as Hfirst. unfold isByte in Hfirst.
  set (slice := Uint8Array_slice plain 1 (1 + Z.to_nat (at_ plain 0))) in *.
  assert (Hslice : (length slice ≤ 31)%nat ∧ Z.of_nat (length slice) ≤ at_ plain 0).
  { unfold slice, Uint8Array_slice. rewrite length_take, length_drop, Hlen. lia. }
  assert (Hsb : Forall isByte slice).
  { unfold slice, Uint8Array_slice. by apply Forall_take, Forall_drop. }
  destruct (TextDecoder_decode_shape slice Hsb) as [Hwf Hshort].
  exists plain, (TextDecoder_decode slice).
  split; [exact Hplain|]. split; [exact Hopen|]. split; [exact Hwf|]. lia.
Qed.

End CoverageWithDigest.

(** ** [shortenAddress] *)

(** X23.  For a non-empty address and a size of at least 0,
    [shortenAddress] returns the first [2 + size] code units of the
    address, the one code unit U+2026, and the last [size] code units; an
    address shorter than that is kept whole on the side it is short on,
    and for size 0 the whole address follows the separator ([slice(-0)]
    is [slice(0)]).  A missing size is 4, which turns an address of 42
    code units into 11; a missing or empty address gives the empty
    string. *)
Theorem shortenAddress_shape address size :
  address ≠ [] → 0 ≤ size →
  shortenAddress (Some address) (Some size)
  = take (Z.to_nat (2 + size)) address ++ [0x2026]
    ++ (if size =? 0 then address
        else drop (length address - Z.to_nat size) address) ∧
  shortenAddress (Some address) None = shortenAddress (Some address) (Some 4) ∧
  (length address = 42%nat → length (shortenAddress (Some address) None) = 11%nat) ∧
  shortenAddress None (Some size) = [] ∧
  shortenAddress (Some []) (Some size) = [].
Proof.
  intros Hne Hsize.
  assert (Hshape : ∀ n, 0 ≤ n →
    shortenAddress (Some address) (Some n)
    = take (Z.to_nat (2 + n)) address ++ [0x2026]
      ++ (if n =? 0 then address else drop (length address - Z.to_nat n) address)).
  { intros n Hn. unfold shortenAddress. destruct address as [|c a]; [done|].
    change (default 4 (Some n)) with n. cbv zeta.
    set (s := c :: a) in *. f_equal; [|f_equal].
    - unfold String_slice, relativeIndex.
      destruct (Z.ltb_spec (2 + n) 0); [lia|]. cbn [Z.ltb Z.compare].
      rewrite (Z.min_l 0) by lia. cbn [Z.to_nat]. rewrite drop_0, Nat.sub_0_r.
      destruct (Z.le_ge_cases (2 + n) (Z.of_nat (length s))).
      + by rewrite Z.min_l by lia.
      + rewrite Z.min_r, Nat2Z.id by lia. rewrite !take_ge; [done|lia..].
    - unfold String_slice, relativeIndex.
      destruct (Z.eqb_spec n 0) as [->|Hn0].
      + cbn [Z.opp Z.ltb Z.compare]. rewrite (Z.min_l 0) by lia. cbn [Z.to_nat].
        by rewrite drop_0, Nat.sub_0_r, firstn_all.
      + destruct (Z.ltb_spec (- n) 0); [|lia].
        replace (Z.to_nat (Z.max (Z.of_nat (length s) + - n) 0))
          with (length s - Z.to_nat n)%nat by lia.
        apply take_ge. rewrite length_drop. lia. }
  split; [by apply Hshape|]. split; [done|]. split; [|done].
  intros Hlen. change (shortenAddress (Some address) None)
    with (shortenAddress (Some address) (Some 4)).
  rewrite Hshape by lia. cbn [Z.eqb].
  rewrite !length_app, length_take, length_drop, Hlen. done.
Qed.

End CodecCoverage.

(* ===================================================================== *)
(** * Part VIII: these properties on concrete inputs                     *)
(* ===================================================================== *)

Section RegistrySamples.

Import ZVerseGroups.

Abbreviation sampleCreateGroup :=
  (createGroup sampleThis samplePacked sampleAsEaddress).
Abbreviation sampleSendMessage := (sendMessage sampleThis sampleFromExternal).
Abbreviation sampleRun := (run sampleThis samplePacked sampleAsEaddress sampleFromExternal).
Abbreviation sampleCommitAll :=
  (commitAll sampleThis samplePacked sampleAsEaddress sampleFromExternal).
Abbreviation sampleReachable :=
  (reachable sampleThis samplePacked sampleAsEaddress sampleFromExternal).


(** X3 on the sample: no group exists right after deployment. *)
Lemma invalid_group_reverts_sample :
  (getGroupCount deployed ≤ 0)%N ∧
  joinGroup deployed (mkEnv bob 100%N 7%N) 0%N = Revert "Invalid group" ∧
  getGroup deployed 0%N = Revert "Invalid group" ∧
  getMessage deployed 0%N 0%N = Revert "Invalid group".
Proof.
  split; [reflexivity|].
  destruct (invalid_group_reverts sampleThis samplePacked sampleAsEaddress
              sampleFromExternal deployed (mkEnv bob 100%N 7%N) 0%N (N.le_refl 0))
    as (Hjoin & _ & _ & Hgroup & _ & _ & _ & _ & _ & Hmessage & _).
  split; [exact Hjoin|]. split; [exact Hgroup|exact (Hmessage 0%N)].
Defined.

(** X4 on the sample: Bob sends before he has joined. *)
Lemma sendMessage_requires_membership_sample :
  isGroupMember historyState 0%N bob = Ok false ∧
  sampleSendMessage historyState (mkEnv bob 102%N 9%N) 0%N 99%N [1%N]
  = Revert "Join group first" ∧
  sampleCommit historyState (mkEnv bob 102%N 9%N) (SendMessage 0%N 99%N [1%N])
  = historyState.
Proof.
  split; [reflexivity|].
  exact (sendMessage_requires_membership sampleThis samplePacked sampleAsEaddress
           sampleFromExternal historyState (mkEnv bob 102%N 9%N) 0%N 99%N [1%N] eq_refl).
Defined.

(** X5 on the sample: the one message of the first group, and the index
    after it. *)
Lemma getMessage_bounds_sample :
  getMessageCount historyState 0%N = Ok 1%N ∧
  getMessage historyState 0%N 0%N = Ok (alice, 2468%N, 101%N) ∧
  getMessage historyState 0%N 1%N = Panic 0x32 ∧
  canDecryptMessage historyState 0%N 1%N alice = Panic 0x32.
Proof.
  split; [reflexivity|].
  destruct (getMessage_bounds historyState 0%N 1%N 1%N eq_refl) as [_ Hout].
  destruct (Hout (N.le_refl 1)) as [Hmessage Hcan].
  split; [reflexivity|]. split; [exact Hmessage|exact (Hcan alice)].
Defined.

(** X9 on the sample: Alice joins the second group; the first is as it
    was. *)
Lemma other_groups_untouched_sample :
  ∃ st',
    sampleRun twoGroupsState (mkEnv alice 106%N 13%N) (JoinGroup 1%N) = Ok st' ∧
    getGroupMembers st' 1%N = Ok [bob; alice] ∧
    getGroupMembers st' 0%N = getGroupMembers twoGroupsState 0%N ∧
    getMessage st' 0%N 0%N = getMessage twoGroupsState 0%N 0%N.
Proof.
  eexists. split; [reflexivity|]. split; [reflexivity|].
  destruct (other_groups_untouched sampleThis samplePacked sampleAsEaddress
              sampleFromExternal twoGroupsState (mkEnv alice 106%N 13%N)
              (JoinGroup 1%N) _ 1%N 0%N eq_refl (or_introl eq_refl) ltac:(discriminate))
    as (_ & _ & Hmembers & _ & _ & _ & Hmessage).
  split; [exact Hmembers|exact (Hmessage 0%N)].
Defined.

(** X10 on the sample: Bob, who joined after Alice's message, can read
    the key and the message. *)
Lemma members_can_decrypt_sample :
  isGroupMember joinedState 0%N bob = Ok true ∧
  canDecryptGroupKey joinedState 0%N bob = Ok true ∧
  canDecryptMessage joinedState 0%N 0%N bob = Ok true.
Proof.
  split; [reflexivity|].
  destruct (members_can_decrypt sampleThis samplePacked sampleAsEaddress
              sampleFromExternal joinedState 0%N bob joinedState_reachable eq_refl)
    as [Hkey Hmessages].
  split; [exact Hkey|]. exact (Hmessages 1%N 0%N eq_refl eq_refl).
Defined.

(** X11 on the sample: the contract can read the key and the message. *)
Lemma contract_can_decrypt_sample :
  (0 < getGroupCount joinedState)%N ∧
  canDecryptGroupKey joinedState 0%N sampleThis = Ok true ∧
  canDecryptMessage joinedState 0%N 0%N sampleThis = Ok true.
Proof.
  split; [reflexivity|].
  destruct (contract_can_decrypt sampleThis samplePacked sampleAsEaddress
              sampleFromExternal joinedState 0%N joinedState_reachable eq_refl)
    as [Hkey Hmessages].
  split; [exact Hkey|]. exact (Hmessages 1%N 0%N eq_refl eq_refl).
Defined.

(** X12 on the sample: Alice sent the message and is a member. *)
Lemma senders_are_members_sample :
  getMessage joinedState 0%N 0%N = Ok (alice, 2468%N, 101%N) ∧
  isGroupMember joinedState 0%N alice = Ok true.
Proof.
  split; [reflexivity|].
  exact (senders_are_members sampleThis samplePacked sampleAsEaddress
           sampleFromExternal joinedState 0%N 0%N alice 2468%N 101%N
           joinedState_reachable eq_refl).
Defined.

(** X13 on the sample: the second group starts without messages. *)
Lemma new_group_has_no_messages_sample :
  ∃ st',
    sampleCreateGroup joinedState (mkEnv bob 105%N 12%N) "Second" = Ok (st', 1%N) ∧
    getMessageCount st' 1%N = Ok 0%N ∧
    getMessage st' 1%N 0%N = Panic 0x32.
Proof.
  eexists. split; [reflexivity|].
  destruct (new_group_has_no_messages sampleThis samplePacked sampleAsEaddress
              sampleFromExternal joinedState (mkEnv bob 105%N 12%N) "Second" _ 1%N
              joinedState_reachable eq_refl)
    as [Hcount Hmessage].
  split; [exact Hcount|exact (Hmessage 0%N)].
Defined.

(** X14 on the sample: the log after Alice created the group and sent a
    message and Bob joined. *)
Lemma events_mirror_state_sample :
  groupsFromLog (events joinedState) = [(0%N, "History"%string, alice, 1320051%N)] ∧
  membersFromLog 0%N (events joinedState) = [alice; bob] ∧
  messagesFromLog 0%N (events joinedState) = [(alice, 2468%N)] ∧
  getGroupMembers joinedState 0%N = Ok [alice; bob] ∧
  getMessage joinedState 0%N 0%N = Ok (alice, 2468%N, 101%N).
Proof.
  destruct (events_mirror_state sampleThis samplePacked sampleAsEaddress
              sampleFromExternal joinedState joinedState_reachable)
    as (_ & _ & Hmembers & _ & _).
  split; [reflexivity|]. split; [exact (Hmembers 0%N [alice; bob] eq_refl)|].
  split; [reflexivity|]. split; reflexivity.
Defined.

Lemma historyState_reachable : sampleReachable historyState.
Proof. repeat apply reachable_commit. apply reachable_deployed. Qed.

(** X15 on the sample: Bob, then Carol, join Alice's group. *)
Lemma joins_in_order_sample :
  getGroupMembers historyState 0%N = Ok [alice] ∧
  NoDup [alice; bob; carol] ∧
  getGroupMembers
    (sampleCommitAll historyState
       [(mkEnv bob 102%N 9%N, JoinGroup 0%N); (mkEnv carol 103%N 10%N, JoinGroup 0%N)])
    0%N
  = Ok [alice; bob; carol].
Proof.
  assert (Hnodup : NoDup [alice; bob; carol]).
  { apply (bool_decide_unpack _). exact I. }
  split; [reflexivity|]. split; [exact Hnodup|].
  exact (joins_in_order sampleThis samplePacked sampleAsEaddress sampleFromExternal
           historyState 0%N [alice] [mkEnv bob 102%N 9%N; mkEnv carol 103%N 10%N]
           historyState_reachable eq_refl Hnodup).
Defined.

(** X27 on the sample: the views of the group after Bob has joined. *)
Lemma views_agree_with_counts_sample :
  (0 < getGroupCount joinedState)%N ∧
  ∃ nm key,
    getGroup joinedState 0%N = Ok (nm, key, alice, 2%N) ∧
    getGroupMembers joinedState 0%N = Ok [alice; bob] ∧
    getGroupKey joinedState 0%N = Ok key ∧
    getMessageCount joinedState 0%N = Ok 1%N.
Proof.
  split; [reflexivity|].
  destruct (views_agree_with_counts sampleThis samplePacked sampleAsEaddress
              sampleFromExternal joinedState 0%N joinedState_reachable eq_refl)
    as (nm & key & who & ms & count & Hgroup & Hmembers & Hkey & _ & _ & Hcount & _).
  change (Ok [alice; bob] = Ok ms) in Hmembers. injection Hmembers as <-.
  change (Ok 1%N = Ok count) in Hcount. injection Hcount as <-.
  assert (who = alice) as ->.
  { change (Ok ("History"%string, 1320051%N, alice, 2%N)
            = Ok (nm, key, who, N.of_nat (length [alice; bob]))) in Hgroup.
    by injection Hgroup as _ _ <-. }
  exists nm, key. split; [exact Hgroup|]. split; [reflexivity|].
  split; [exact Hkey|reflexivity].
Defined.

(** X28 on the sample: Bob holds a grant for the handle of Alice's
    message, and is a member of her group. *)
Lemma grants_only_to_members_sample :
  FHE_isAllowed 2468%N bob (acl joinedState) = true ∧
  bob ≠ sampleThis ∧
  ∃ groupId,
    isGroupMember joinedState groupId bob = Ok true ∧
    (getGroupKey joinedState groupId = Ok 2468%N
     ∨ ∃ index who t, getMessage joinedState groupId index = Ok (who, 2468%N, t)).
Proof.
  split; [reflexivity|]. split; [discriminate|].
  exact (grants_only_to_members sampleThis samplePacked sampleAsEaddress
           sampleFromExternal joinedState 2468%N bob joinedState_reachable eq_refl
           ltac:(discriminate)).
Defined.

End RegistrySamples.

Section CodecSamples.

Import Messages.

Abbreviation sampleSeal := (sealMessage sampleDigest).
Abbreviation sampleOpen := (openMessage sampleDigest).
Abbreviation sampleDerive := (deriveKeyBytes sampleDigest).

(** X16 on the sample: the secret 1. *)
Lemma normalizeGroupKey_canonical_sample :
  0 ≤ 1 < 2 ^ 160 ∧
  normalizeGroupKey (inr 1) = Return (js "0x0000000000000000000000000000000000000001") ∧
  BigInt (js "0x0000000000000000000000000000000000000001") = Return 1.
Proof.
  assert (Hrange : 0 ≤ 1 < 2 ^ 160) by (split; [lia|reflexivity]).
  split; [exact Hrange|].
  destruct (normalizeGroupKey_canonical 1 Hrange) as (k & Hk & _ & _ & _ & Hback & _).
  assert (Heq : k = js "0x0000000000000000000000000000000000000001").
  { change (Return (js "0x0000000000000000000000000000000000000001") = Return k) in Hk.
    by injection Hk as <-. }
  rewrite Heq in Hk, Hback. split; [exact Hk|exact Hback].
Defined.

(** X18 on the sample: three digits in mixed case. *)
Lemma normalizeGroupKey_lower_case_sample :
  normalizeGroupKey (inl (js "0xAbC"))
  = Return (js "0x0000000000000000000000000000000000000abc").
Proof.
  apply (normalizeGroupKey_lower_case (js "AbC")).
  - discriminate.
  - vm_compute. lia.
  - reflexivity.
Defined.

(** X19 on the sample: Hello has five code units and five bytes. *)
Lemma sealMessage_by_length_sample :
  (length (js "Hello") ≤ 10)%nat ∧
  TextEncoder_encode (js "Hello") = js "Hello" ∧
  ∃ c, sampleSeal (js "Hello") (js "0x01") = Return c.
Proof.
  destruct (sealMessage_by_length sampleDigest (js "Hello") (js "0x01")
              (sampleDigest [1]) Hello_code_units sampleKey_bytes)
    as (_ & Hshort & _ & Hascii).
  assert (Hlen : (length (js "Hello") ≤ 10)%nat) by (vm_compute; lia).
  split; [exact Hlen|]. split; [|exact (Hshort Hlen)].
  apply Hascii. change (Forall (λ u, 0 ≤ u ≤ 0x7F) [72; 101; 108; 108; 111]).
  repeat (constructor; [lia|]). constructor.
Defined.

(** X20 on the sample: a surrogate outside a pair and U+FFFD are sealed
    alike, as they are encoded alike. *)
Lemma sealMessage_injective_sample :
  ∃ c, sampleSeal [0xD800] (js "0x01") = Return c ∧
       sampleSeal [0xFFFD] (js "0x01") = Return c ∧
       TextEncoder_encode [0xD800] = TextEncoder_encode [0xFFFD].
Proof.
  eexists. split; [vm_compute; reflexivity|]. split; [vm_compute; reflexivity|].
  refine (proj1 (sealMessage_injective sampleDigest [0xD800] [0xFFFD] (js "0x01") _
                   _ _ _ _)).
  - constructor; [unfold isCodeUnit; lia|constructor].
  - constructor; [unfold isCodeUnit; lia|constructor].
  - vm_compute. reflexivity.
  - vm_compute. reflexivity.
Defined.

(** X21 on the sample: the key stream of the sample key, from Hello and
    its cipher value. *)
Lemma sealMessage_reveals_key_stream_sample :
  ∃ c, sampleSeal (js "Hello") (js "0x01") = Return c ∧
       mapXor (bytesBE KEY_BYTES c) (block (TextEncoder_encode (js "Hello")))
       = sampleDigest [1].
Proof.
  eexists. split; [vm_compute; reflexivity|].
  refine (proj1 (sealMessage_reveals_key_stream sampleDigest (js "Hello") (js "0x01")
                   (sampleDigest [1]) _ Hello_code_units sampleKey_bytes _ _)).
  - reflexivity.
  - vm_compute. reflexivity.
Defined.

(** X22 on the sample: a text with spaces around it, under the key
    written for the secret 1. *)
Lemma interface_round_trip_sample :
  normalizeGroupKey (inr 1) = Return (js "0x0000000000000000000000000000000000000001") ∧
  trim (js "  Hello ") = js "Hello" ∧
  ∃ c, sampleSeal (trim (js "  Hello "))
         (js "0x0000000000000000000000000000000000000001") = Return c ∧
       0 ≤ c < 2 ^ 256 ∧
       sampleOpen c (js "0x0000000000000000000000000000000000000001")
       = Return (trim (js "  Hello ")).
Proof.
  split; [reflexivity|]. split; [reflexivity|].
  apply (interface_round_trip sampleDigest sampleDigest_bytes (inr 1)
           (js "0x0000000000000000000000000000000000000001") (js "  Hello ")).
  - reflexivity.
  - change (Forall isCodeUnit [32; 32; 72; 101; 108; 108; 111; 32]).
    repeat (constructor; [unfold isCodeUnit; lia|]). constructor.
  - reflexivity.
  - vm_compute. lia.
Defined.

(** X23 on the sample: an address of 42 code units. *)
Lemma shortenAddress_shape_sample :
  shortenAddress (Some (js "0x1234567890abcdef1234567890abcdef12345678")) None
  = js "0x1234" ++ [0x2026] ++ js "5678".
Proof.
  destruct (shortenAddress_shape (js "0x1234567890abcdef1234567890abcdef12345678") 4
              ltac:(discriminate) ltac:(lia))
    as (Hshape & Hdefault & _).
  rewrite Hdefault, Hshape. reflexivity.
Defined.

(** X24 on the sample: [0x01] is a key, [0x1] and [key] are not. *)
Lemma deriveKeyBytes_accepts_sample :
  (∃ kb, sampleDerive (js "0x01") = Return kb ∧ length kb = 32%nat) ∧
  sampleDerive (js "0x1") = Throw INVALID_ARGUMENT ∧
  sampleDerive (js "key") = Throw SyntaxError ∧
  sampleDerive (js "-1") = Throw NUMERIC_FAULT ∧
  sampleSeal (js "Hello") (js "0x1") = Throw INVALID_ARGUMENT.
Proof.
  split; [exact (proj1 (deriveKeyBytes_accepts sampleDigest sampleDigest_bytes (js "0x01"))
                   eq_refl)|].
  split; [exact (proj1 (deriveKeyBytes_accepts sampleDigest sampleDigest_bytes (js "0x1"))
                   eq_refl)|].
  split; [exact (proj1 (proj2 (deriveKeyBytes_accepts sampleDigest sampleDigest_bytes
                                 (js "key"))) eq_refl)|].
  split; [exact (proj1 (proj2 (deriveKeyBytes_accepts sampleDigest sampleDigest_bytes
                                 (js "-1"))) eq_refl)|].
  exact (proj1 (proj2 (proj2 (deriveKeyBytes_accepts sampleDigest sampleDigest_bytes
                                (js "0x1"))) INVALID_ARGUMENT eq_refl) (js "Hello")).
Defined.

(** X25 on the sample: a text that starts with U+FEFF, and a surrogate on
    its own. *)
Lemma openMessage_sealMessage_general_sample :
  (∃ c, sampleSeal [0xFEFF; 72; 105] (js "0x01") = Return c ∧
        sampleOpen c (js "0x01") = Return [72; 105]) ∧
  (∃ c, sampleSeal [0xD83D] (js "0x01") = Return c ∧
        sampleOpen c (js "0x01") = Return [0xFFFD]).
Proof.
  split.
  - destruct (openMessage_sealMessage_general sampleDigest [0xFEFF; 72; 105]
                (js "0x01") (sampleDigest [1]))
      as (c & Hseal & Hopen & _).
    + repeat (constructor; [unfold isCodeUnit; lia|]). constructor.
    + exact sampleKey_bytes.
    + vm_compute. lia.
    + exists c. split; [exact Hseal|exact Hopen].
  - destruct (openMessage_sealMessage_general sampleDigest [0xD83D]
                (js "0x01") (sampleDigest [1]))
      as (c & Hseal & Hopen & _).
    + repeat (constructor; [unfold isCodeUnit; lia|]). constructor.
    + exact sampleKey_bytes.
    + vm_compute. lia.
    + exists c. split; [exact Hseal|exact Hopen].
Defined.

(** X26 on the sample: the cipher value 0 opens to the two code units
    that follow the length byte 2 of the key stream. *)
Lemma openMessage_returns_short_text_sample :
  0 ≤ 0 < 2 ^ 256 ∧
  ∃ s, sampleOpen 0 (js "0x01") = Return s ∧
       isWellFormed s = true ∧
       (length s ≤ 31)%nat ∧
       Z.of_nat (length s) ≤ 2.
Proof.
  assert (Hrange : 0 ≤ 0 < 2 ^ 256) by (split; [lia|reflexivity]).
  split; [exact Hrange|].
  destruct (openMessage_returns_short_text sampleDigest 0 (js "0x01") (sampleDigest [1])
              Hrange sampleKey_bytes)
    as (plain & s & Hplain & Hopen & Hwf & Hshort & Hbyte).
  exists s. split; [exact Hopen|]. split; [exact Hwf|]. split; [exact Hshort|].
  assert (plain = sampleDigest [1]) as ->.
  { change (Return (sampleDigest [1]) = Return plain) in Hplain.
    by injection Hplain as <-. }
  exact Hbyte.
Defined.

End CodecSamples.
